(** * MovieRecs: the genre decision engine, the candidate-fetch pipeline and
      the feedback loop, embedded from [index.js]

    The development follows the layout of the source file:
    - [JsNum]: JavaScript numbers, with the non-finite values the code tests for;
    - [Text]: [normalize_text], [tokenize], [is_name_only_bio];
    - [NaiveBayes]: [createNaiveBayesModel] with [trainOne], [trainBatch], [predict];
    - [Decision]: [softmaxFromLogScores] and [choose_genre_deep];
    - [Omdb]: [omdb_search_then_fill] and [fetch_details_sequential];
    - [Feedback]: [handle_feedback], [clamp_num], [init_bias];
    - [Scenarios], [Spec], [Invariants]: sample inputs, the notions of the
      specification, and the invariants of the proofs;
    - [Html], [Params]: [escape_html], [escape_attr], [clamp_int], [clamp_float];
    - [Legacy]: [choose_genre_from_bio_location] of the earlier [index.js];
    - [App]: [run_pipeline], [start_github_oauth_or_run],
      [handle_github_callback], [logout] and [request_handler], over the two
      in-memory stores;
    - [Notions]: what the properties of those are stated with;
    - then the properties, section by section.

    Conventions. A JavaScript double is idealised: a finite value is an exact
    rational ([Q]) where the code only adds, compares and clamps decimal
    constants (ratings, biases, priors), and an exact real ([R]) where
    [Math.log] and [Math.exp] enter (classifier scores, probabilities).
    Rounding, overflow and the sign of zero are not modelled; [NaN] and the two
    infinities are, because the code branches on them ([Number.isFinite],
    [x || 1], a running maximum that starts at [-Infinity]).
    A string is a sequence of 8-bit characters, read as the Latin-1 range of
    JavaScript's code units. *)

From Stdlib Require Import Reals QArith Qminmax Qround Qabs Qreals Lra Lia String Ascii List ZArith.
From Stdlib Require Lqa.
From stdpp Require Import base gmap sets list strings.

Local Open Scope string_scope.
Local Open Scope nat_scope.
Local Open Scope list_scope.

(** ** JavaScript numbers *)

Module JsNum.

Inductive num (F : Type) : Type :=
| Fin (x : F)
| PosInf
| NegInf
| NaN.
Arguments Fin {F} x.
Arguments PosInf {F}.
Arguments NegInf {F}.
Arguments NaN {F}.

(** [Number.isFinite] *)
Definition isFinite {F} (n : num F) : bool :=
  match n with Fin _ => true | _ => false end.

(** *** Rational side: ratings, biases, priors *)

Definition Qeqb (a b : Q) : bool := Qeq_bool a b.

(** [x + y] *)
Definition qadd (a b : num Q) : num Q :=
  match a, b with
  | NaN, _ | _, NaN => NaN
  | PosInf, NegInf | NegInf, PosInf => NaN
  | PosInf, _ | _, PosInf => PosInf
  | NegInf, _ | _, NegInf => NegInf
  | Fin x, Fin y => Fin (x + y)%Q
  end.

(** [x - y] *)
Definition qsub (a b : num Q) : num Q :=
  match a, b with
  | NaN, _ | _, NaN => NaN
  | PosInf, PosInf | NegInf, NegInf => NaN
  | PosInf, _ | _, NegInf => PosInf
  | NegInf, _ | _, PosInf => NegInf
  | Fin x, Fin y => Fin (x - y)%Q
  end.

(** [x >= y]; every comparison with [NaN] is false *)
Definition qge (a b : num Q) : bool :=
  match a, b with
  | NaN, _ | _, NaN => false
  | PosInf, _ => true
  | _, NegInf => true
  | NegInf, _ => false
  | _, PosInf => false
  | Fin x, Fin y => Qle_bool y x
  end.

(** truthiness of a number: [0] and [NaN] are falsy *)
Definition qtruthy (a : num Q) : bool :=
  match a with
  | NaN => false
  | Fin x => negb (Qeqb x 0)
  | _ => true
  end.

(** [x || d] for a number [x] *)
Definition qor (a d : num Q) : num Q := if qtruthy a then a else d.

(** [+v.toFixed(k)]: the nearest multiple of [10^-k], halves away from zero
    (toFixed rounds the magnitude and then puts the sign back) *)
Definition toFixed (k : nat) (x : Q) : Q :=
  let scale := inject_Z (10 ^ Z.of_nat k) in
  let mag := Qfloor (Qabs x * scale + (1 # 2)) in
  Qred (if Qle_bool 0 x then inject_Z mag / scale else - (inject_Z mag / scale))%Q.

(** *** Real side: log-scores and probabilities *)

Definition radd (a b : num R) : num R :=
  match a, b with
  | NaN, _ | _, NaN => NaN
  | PosInf, NegInf | NegInf, PosInf => NaN
  | PosInf, _ | _, PosInf => PosInf
  | NegInf, _ | _, NegInf => NegInf
  | Fin x, Fin y => Fin (x + y)%R
  end.

Definition rsub (a b : num R) : num R :=
  match a, b with
  | NaN, _ | _, NaN => NaN
  | PosInf, PosInf | NegInf, NegInf => NaN
  | PosInf, _ | _, NegInf => PosInf
  | NegInf, _ | _, PosInf => NegInf
  | Fin x, Fin y => Fin (x - y)%R
  end.

(** [x / y]; a zero divisor gives an infinity of the dividend's sign, or
    [NaN] for [0/0] *)
Definition rdiv (a b : num R) : num R :=
  match a, b with
  | NaN, _ | _, NaN => NaN
  | Fin x, Fin y =>
      if Req_dec_T y 0 then
        (if Rlt_dec 0 x then PosInf else if Rlt_dec x 0 then NegInf else NaN)
      else Fin (x / y)%R
  | Fin _, _ => Fin 0%R
  | PosInf, Fin y => if Rlt_dec y 0 then NegInf else PosInf
  | NegInf, Fin y => if Rlt_dec y 0 then PosInf else NegInf
  | _, _ => NaN
  end.

(** [Math.log] *)
Definition Math_log (a : num R) : num R :=
  match a with
  | Fin x => if Rlt_dec 0 x then Fin (ln x)
             else if Req_dec_T x 0 then NegInf else NaN
  | PosInf => PosInf
  | _ => NaN
  end.

(** [Math.exp] *)
Definition Math_exp (a : num R) : num R :=
  match a with
  | Fin x => Fin (exp x)
  | PosInf => PosInf
  | NegInf => Fin 0%R
  | NaN => NaN
  end.

(** [x > y] *)
Definition rgt (a b : num R) : bool :=
  match a, b with
  | NaN, _ | _, NaN => false
  | PosInf, PosInf => false
  | PosInf, _ => true
  | NegInf, _ => false
  | Fin _, PosInf => false
  | Fin _, NegInf => true
  | Fin x, Fin y => if Rlt_dec y x then true else false
  end.

Definition rtruthy (a : num R) : bool :=
  match a with
  | NaN => false
  | Fin x => if Req_dec_T x 0 then false else true
  | _ => true
  end.

(** [x || d] *)
Definition ror (a d : num R) : num R := if rtruthy a then a else d.

(** a rational constant or accumulator read as a double next to real ones *)
Definition of_Q (q : Q) : num R := Fin (Q2R q).

(** an integer count read as a double *)
Definition of_nat (n : nat) : num R := Fin (INR n).

End JsNum.
Export JsNum.

(** ** Text *)

Module Text.

Definition code (c : ascii) : nat := nat_of_ascii c.

(** the class [\s], which is also what [trim] strips: TAB, LF, VT, FF, CR,
    space and the no-break space *)
Definition is_space (c : ascii) : bool :=
  let n := code c in
  ((9 <=? n) && (n <=? 13)) || (n =? 32) || (n =? 160).

(** [toLowerCase] on one character: A-Z, and the accented capitals of
    Latin-1 (all of 192..222 but the multiplication sign 215) *)
Definition lower_char (c : ascii) : ascii :=
  let n := code c in
  if ((65 <=? n) && (n <=? 90)) || ((192 <=? n) && (n <=? 222) && negb (n =? 215))
  then ascii_of_nat (n + 32) else c.

Fixpoint toLowerCase (s : string) : string :=
  match s with
  | EmptyString => EmptyString
  | String c s' => String (lower_char c) (toLowerCase s')
  end.

Fixpoint trimStart (s : string) : string :=
  match s with
  | String c s' => if is_space c then trimStart s' else s
  | EmptyString => EmptyString
  end.

Fixpoint all_space (s : string) : bool :=
  match s with
  | EmptyString => true
  | String c s' => is_space c && all_space s'
  end.

Fixpoint trimEnd (s : string) : string :=
  match s with
  | EmptyString => EmptyString
  | String c s' => if all_space s then EmptyString else String c (trimEnd s')
  end.

Definition trim (s : string) : string := trimEnd (trimStart s).

(** [.replace(/\s+/g, " ")]: every maximal run of white space becomes one
    space; [in_run] tells that the previous character was white space *)
Fixpoint collapse_from (in_run : bool) (s : string) : string :=
  match s with
  | EmptyString => EmptyString
  | String c s' =>
      if is_space c
      then (if in_run then collapse_from true s' else String " " (collapse_from true s'))
      else String c (collapse_from false s')
  end.
Definition collapse_spaces (s : string) : string := collapse_from false s.

(** [normalize_text]: [String(s || "").toLowerCase().replace(/\s+/g, " ").trim()] *)
Definition normalize_text (s : string) : string :=
  trim (collapse_spaces (toLowerCase s)).

(** the class [[a-z0-9\s]] *)
Definition is_token_char (c : ascii) : bool :=
  let n := code c in
  ((97 <=? n) && (n <=? 122)) || ((48 <=? n) && (n <=? 57)) || is_space c.

(** [.replace(/[^a-z0-9\s]/g, " ")]: one space per replaced character *)
Fixpoint blank_non_token (s : string) : string :=
  match s with
  | EmptyString => EmptyString
  | String c s' => String (if is_token_char c then c else " "%char) (blank_non_token s')
  end.

(** [.split(/\s+/)]: the pieces between the maximal runs of white space,
    with an empty piece before a leading run and after a trailing one;
    [cur] is the piece being read *)
Fixpoint split_from (cur : string) (in_run : bool) (s : string) : list string :=
  match s with
  | EmptyString => [cur]
  | String c s' =>
      if is_space c
      then (if in_run then split_from "" true s' else cur :: split_from "" true s')
      else split_from (cur ++ String c "")%string false s'
  end.
Definition split_spaces (s : string) : list string := split_from "" false s.

(** truthiness of a string, as in [.filter(Boolean)] *)
Definition nonempty (s : string) : bool :=
  match s with EmptyString => false | _ => true end.

(** [tokenize] *)
Definition tokenize (text : string) : list string :=
  take 120 (List.filter nonempty (split_spaces (blank_non_token (normalize_text text)))).

(** [s.includes(sub)] *)
Fixpoint includes (s sub : string) : bool :=
  String.prefix sub s ||
  match s with
  | EmptyString => false
  | String _ s' => includes s' sub
  end.

(** the class [[A-Za-z\s]] *)
Definition is_letter_or_space (c : ascii) : bool :=
  let n := code c in
  ((65 <=? n) && (n <=? 90)) || ((97 <=? n) && (n <=? 122)) || is_space c.

Fixpoint blank_non_letter (s : string) : string :=
  match s with
  | EmptyString => EmptyString
  | String c s' => String (if is_letter_or_space c then c else " "%char) (blank_non_letter s')
  end.

(** [is_name_only_bio]: one to three words once everything but letters is
    blanked *)
Definition is_name_only_bio (original_bio : string) : bool :=
  let raw := trim original_bio in
  if negb (nonempty raw) then false
  else
    let cleaned := trim (blank_non_letter raw) in
    let parts := List.filter nonempty (split_spaces cleaned) in
    (1 <=? length parts) && (length parts <=? 3).

End Text.

(** ** JavaScript [Map]s that the code iterates over

    A [Map] keeps its keys in insertion order; [set] on a key that is present
    replaces the value where the key already stands. *)

Module JsMap.

Definition jsmap (V : Type) : Type := list (string * V).

Fixpoint get {V} (m : jsmap V) (k : string) : option V :=
  match m with
  | [] => None
  | (k', v) :: m' => if String.eqb k' k then Some v else get m' k
  end.

Fixpoint set {V} (m : jsmap V) (k : string) (v : V) : jsmap V :=
  match m with
  | [] => [(k, v)]
  | (k', v') :: m' => if String.eqb k' k then (k', v) :: m' else (k', v') :: set m' k v
  end.

Definition keys {V} (m : jsmap V) : list string := map fst m.
Definition values {V} (m : jsmap V) : list V := map snd m.

End JsMap.
Import JsMap.

(** ** The multinomial naive Bayes model *)

Module NaiveBayes.

(** The closure state of [createNaiveBayesModel]: the four containers and
    the [labels] argument they were built from. *)
Record model : Type := Model {
  labels : list string;
  wordCounts : gmap string (gmap string nat);   (* label -> Map(token -> count) *)
  docCounts : gmap string nat;                  (* label -> docs count *)
  totalWords : gmap string nat;                 (* label -> total token count *)
  vocab : gset string
}.

(** [m.get(k) || 0] on a map of counts *)
Definition count_of (m : gmap string nat) (k : string) : nat := default 0 (m !! k).

(** [createNaiveBayesModel(labels)] *)
Definition createNaiveBayesModel (ls : list string) : model :=
  foldl (fun st l =>
           {| labels := labels st;
              wordCounts := <[l := ∅]> (wordCounts st);
              docCounts := <[l := 0]> (docCounts st);
              totalWords := <[l := 0]> (totalWords st);
              vocab := vocab st |})
        {| labels := ls; wordCounts := ∅; docCounts := ∅; totalWords := ∅; vocab := ∅ |}
        ls.

(** the body of the token loop of [trainOne]; [m] is the label's own map,
    which the loop updates in place *)
Definition add_token (label : string) (st : model) (tok : string) : model :=
  let m := default ∅ (wordCounts st !! label) in
  {| labels := labels st;
     wordCounts := <[label := <[tok := count_of m tok + 1]> m]> (wordCounts st);
     docCounts := docCounts st;
     totalWords := <[label := count_of (totalWords st) label + 1]> (totalWords st);
     vocab := {[tok]} ∪ vocab st |}.

(** [trainOne(label, text)] *)
Definition trainOne (label text : string) (st : model) : model :=
  match wordCounts st !! label with
  | None => st
  | Some _ =>
      let st1 := {| labels := labels st;
                    wordCounts := wordCounts st;
                    docCounts := <[label := count_of (docCounts st) label + 1]> (docCounts st);
                    totalWords := totalWords st;
                    vocab := vocab st |} in
      foldl (add_token label) st1 (Text.tokenize text)
  end.

(** a training sample [{ text, label }] *)
Record sample : Type := Sample { text : string; label : string }.

(** [trainBatch(samples)] *)
Definition trainBatch (samples : list sample) (st : model) : model :=
  foldl (fun st s => trainOne (label s) (text s) st) st samples.

(** [vocab.size || 1] *)
Definition vocabSize (st : model) : nat :=
  if size (vocab st) =? 0 then 1 else size (vocab st).

(** [labels.reduce((sum, l) => sum + (docCounts.get(l) || 0), 0) || 1] *)
Definition totalDocs (st : model) : nat :=
  let n := foldl (fun sum l => sum + count_of (docCounts st) l) 0 (labels st) in
  if n =? 0 then 1 else n.

(** the score of one label in [predict]: the smoothed prior, then one
    Laplace term per token.  The label's token map is there for every label
    ([createNaiveBayesModel] enters it and nothing removes it). *)
Definition label_score (st : model) (tokens : list string) (label : string) : num R :=
  let prior :=
    Math_log (rdiv (of_nat (count_of (docCounts st) label + 1))
                   (of_nat (totalDocs st + length (labels st)))) in
  let m := default ∅ (wordCounts st !! label) in
  let denom := count_of (totalWords st) label + vocabSize st in
  foldl (fun score tok =>
           let count := count_of m tok + 1 in
           radd score (Math_log (rdiv (of_nat count) (of_nat denom))))
        prior tokens.

(** [predict(text).scores]; [topTokensByLabel], which only feeds the
    rationale text, is left out *)
Definition predict (st : model) (text : string) : jsmap (num R) :=
  let tokens := Text.tokenize text in
  foldl (fun scores label => JsMap.set scores label (label_score st tokens label))
        [] (labels st).

(** [stats()] *)
Record label_stats : Type := LabelStats { docs : nat; words : nat }.
Record model_stats : Type := Stats {
  stats_labels : list string;
  stats_vocabSize : nat;
  perLabel : gmap string label_stats
}.
Definition stats (st : model) : model_stats :=
  {| stats_labels := labels st;
     stats_vocabSize := size (vocab st);
     perLabel := foldl (fun out l =>
                          <[l := {| docs := count_of (docCounts st) l;
                                    words := count_of (totalWords st) l |}]> out)
                       ∅ (labels st) |}.

End NaiveBayes.
Import NaiveBayes.

(** ** The genre decision *)

Module Decision.

Definition GENRE_LABELS : list string :=
  ["Sci-Fi"; "Action"; "Thriller"; "Drama"; "Mystery"; "Romance"].

Definition SEED_TRAINING : list sample :=
  [ Sample "software engineer backend node javascript python ai machine learning" "Sci-Fi";
    Sample "computer science developer full stack api oauth systems" "Sci-Fi";
    Sample "data engineer ml ai analytics sql database" "Sci-Fi";
    Sample "robotics engineer distributed systems cloud" "Sci-Fi";
    Sample "athlete captain soccer competitive fast paced" "Action";
    Sample "founder startup builder ship product hustle" "Action";
    Sample "fitness gym training performance discipline" "Action";
    Sample "security reverse engineering c c++ low level cryptography" "Thriller";
    Sample "debugging deep dive intense problem solver" "Thriller";
    Sample "firmware embedded systems hardware" "Thriller";
    Sample "designer ui ux art music film cinema writer storytelling" "Drama";
    Sample "education teaching community culture sociology" "Drama";
    Sample "dance theatre performance" "Drama";
    Sample "research investigation evidence analysis patterns" "Mystery";
    Sample "law policy reasoning" "Mystery";
    Sample "community empathy people relationships communication" "Romance";
    Sample "social work counseling care psychology" "Romance" ].

(** [GENRE_MODEL] as it stands when the server starts *)
Definition GENRE_MODEL_0 : model :=
  trainBatch SEED_TRAINING (createNaiveBayesModel GENRE_LABELS).

(** [softmaxFromLogScores] *)
Definition softmax_max (scoreMap : jsmap (num R)) : num R :=
  foldl (fun max v => if rgt v max then v else max) NegInf (JsMap.values scoreMap).

Definition softmax_exps (scoreMap : jsmap (num R)) : jsmap (num R) * num R :=
  let max := softmax_max scoreMap in
  foldl (fun '(exps, sum) '(k, v) =>
           let e := Math_exp (rsub v max) in
           (JsMap.set exps k e, radd sum e))
        ([], Fin 0%R) scoreMap.

Definition softmaxFromLogScores (scoreMap : jsmap (num R)) : jsmap (num R) :=
  let '(exps, sum) := softmax_exps scoreMap in
  foldl (fun probs '(k, e) => JsMap.set probs k (rdiv e (ror sum (Fin 1%R)))) [] exps.

(** the notes pushed to [heuristicNotes] *)
Inductive note : Type := NoBio | NameOnlyBio | NycLocation | TechHubLocation.

(** [priors.set(g, priors.get(g) + w)]; reading a key that is not there
    gives [undefined], and [undefined + w] is [NaN] *)
Definition bump (priors : jsmap (num Q)) (g : string) (w : num Q) : jsmap (num Q) :=
  JsMap.set priors g (qadd (default NaN (JsMap.get priors g)) w).

(** the conditions of the four [if]s that set heuristic priors *)
Definition no_bio (bio : string) : bool :=
  negb (Text.nonempty (Text.normalize_text (Text.trim bio))).

Definition name_only_bio (bio : string) : bool :=
  Text.nonempty (Text.trim bio) && Text.is_name_only_bio (Text.trim bio).

Definition nyc_location (location : string) : bool :=
  let locNorm := Text.normalize_text (Text.trim location) in
  Text.includes locNorm "new york" || Text.includes locNorm "nyc" || String.eqb locNorm "ny".

Definition tech_hub_location (location : string) : bool :=
  let locNorm := Text.normalize_text (Text.trim location) in
  Text.includes locNorm "san francisco" || Text.includes locNorm "bay area"
  || Text.includes locNorm "seattle".

(** the heuristic priors, in the order of the four [if]s *)
Definition heuristic_priors (bio location : string) : jsmap (num Q) * list note :=
  let p0 := foldl (fun p g => JsMap.set p g (Fin 0%Q)) [] GENRE_LABELS in
  let '(p1, n1) :=
    if no_bio bio
    then (bump p0 "Drama" (Fin (7 # 10)), [NoBio]) else (p0, []) in
  let '(p2, n2) :=
    if name_only_bio bio
    then (bump p1 "Thriller" (Fin (9 # 10)), n1 ++ [NameOnlyBio]) else (p1, n1) in
  let '(p3, n3) :=
    if nyc_location location
    then (bump p2 "Action" (Fin (35 # 100)), n2 ++ [NycLocation]) else (p2, n2) in
  if tech_hub_location location
  then (bump p3 "Sci-Fi" (Fin (35 # 100)), n3 ++ [TechHubLocation]) else (p3, n3).

(** [Number(userBias[g] || 0)] for a label [g]; the six labels are no
    property names of [Object.prototype], so a key that is not there reads
    [undefined] *)
Definition bias_value (userBias : gmap string (num Q)) (g : string) : num Q :=
  match userBias !! g with
  | Some v => qor v (Fin 0%Q)
  | None => Fin 0%Q
  end.

(** the loop that adds the per-user bias to the priors *)
Definition apply_bias (priors : jsmap (num Q)) (userBias : gmap string (num Q)) : jsmap (num Q) :=
  foldl (fun p g =>
           let v := bias_value userBias g in
           if isFinite v && qtruthy v then bump p g v else p)
        priors GENRE_LABELS.

Definition priors_of (bio location : string) (userBias : gmap string (num Q)) : jsmap (num Q) :=
  apply_bias (fst (heuristic_priors bio location)) userBias.

(** [`${bioRaw} ${locRaw}`.trim()] *)
Definition joined (bio location : string) : string :=
  Text.trim (Text.trim bio ++ " " ++ Text.trim location)%string.

Definition probs_of (st : model) (bio location : string) : jsmap (num R) :=
  softmaxFromLogScores (predict st (joined bio location)).

(** a prior read next to a probability *)
Definition to_real (q : num Q) : num R :=
  match q with
  | Fin x => of_Q x
  | PosInf => PosInf
  | NegInf => NegInf
  | NaN => NaN
  end.

(** [combined.set(g, (probs.get(g) || 0) + (priors.get(g) || 0))] *)
Definition combine (probs : jsmap (num R)) (priors : jsmap (num Q)) : jsmap (num R) :=
  foldl (fun c g =>
           JsMap.set c g
             (radd (ror (default NaN (JsMap.get probs g)) (Fin 0%R))
                   (to_real (qor (default NaN (JsMap.get priors g)) (Fin 0%Q)))))
        [] GENRE_LABELS.

Definition combined_of (st : model) (bio location : string)
    (userBias : gmap string (num Q)) : jsmap (num R) :=
  combine (probs_of st bio location) (priors_of bio location userBias).

Definition priority : list string :=
  ["Sci-Fi"; "Action"; "Thriller"; "Mystery"; "Drama"; "Romance"].

(** the winner loop: a strict [>] against the running best, which starts at
    [priority[0]] and [-Infinity] *)
Definition choose_winner (combined : jsmap (num R)) : string * num R :=
  foldl (fun '(bestGenre, bestScore) g =>
           let s := default NaN (JsMap.get combined g) in
           if rgt s bestScore then (g, s) else (bestGenre, bestScore))
        ("Sci-Fi", NegInf) priority.

(** [[...combined.values()].reduce((a, b) => a + b, 0) || 1] *)
Definition total_of (combined : jsmap (num R)) : num R :=
  ror (foldl radd (Fin 0%R) (JsMap.values combined)) (Fin 1%R).

(** [(combined.get(bestGenre) || 0) / total] *)
Definition confidence_of (combined : jsmap (num R)) (bestGenre : string) : num R :=
  rdiv (ror (default NaN (JsMap.get combined bestGenre)) (Fin 0%R)) (total_of combined).

(** [+v.toFixed(3)] on a prior *)
Definition round3 (v : num Q) : num Q :=
  match v with Fin x => Fin (toFixed 3 x) | _ => v end.

(** What [choose_genre_deep] returns.  The rationale string, and the debug
    entries [ml_probs], [combined] and [top_tokens], are presentation of the
    values below and are left out. *)
Record decision : Type := MkDecision {
  genre : string;
  confidence : num R;
  notes : list note;
  debug_priors : jsmap (num Q)
}.

Definition choose_genre_deep (st : model) (bio location : string)
    (userBias : gmap string (num Q)) : decision :=
  let priors := priors_of bio location userBias in
  let combined := combined_of st bio location userBias in
  let bestGenre := fst (choose_winner combined) in
  {| genre := bestGenre;
     confidence := confidence_of combined bestGenre;
     notes := snd (heuristic_priors bio location);
     debug_priors := map (fun '(k, v) => (k, round3 v)) priors |}.

(** [genre_to_search_term] *)
Definition genre_to_search_term (genre : string) : string :=
  if Text.includes (Text.normalize_text genre) "sci" then "science fiction" else genre.

End Decision.
Import Decision.

(** ** The OMDb pipeline *)

Module Omdb.

(** *** [parseFloat] *)

Definition is_digit (c : ascii) : bool := (48 <=? Text.code c) && (Text.code c <=? 57).

Fixpoint take_digits (s : string) : list nat * string :=
  match s with
  | String c s' =>
      if is_digit c
      then let '(ds, r) := take_digits s' in ((Text.code c - 48) :: ds, r)
      else ([], s)
  | EmptyString => ([], EmptyString)
  end.

Definition digits_value (ds : list nat) : Z :=
  foldl (fun acc d => (10 * acc + Z.of_nat d)%Z) 0%Z ds.

(** the exponent part, when one is there in full; [0] otherwise *)
Definition parse_exponent (s : string) : Z :=
  match s with
  | String c s' =>
      if Ascii.eqb c "e" || Ascii.eqb c "E" then
        let '(neg, s'') :=
          match s' with
          | String "-" r => (true, r)
          | String "+" r => (false, r)
          | _ => (false, s')
          end in
        match take_digits s'' with
        | ([], _) => 0%Z
        | (ds, _) => if neg then (- digits_value ds)%Z else digits_value ds
        end
      else 0%Z
  | EmptyString => 0%Z
  end.

(** the longest prefix that is an unsigned decimal literal *)
Definition parse_unsigned (s : string) : num Q :=
  if String.prefix "Infinity" s then PosInf
  else
    let '(ip, r1) := take_digits s in
    match r1 with
    | String "." r1' =>
        let '(fp, r2) := take_digits r1' in
        match ip, fp with
        | [], [] => NaN
        | _, _ =>
            Fin (Qred (inject_Z (digits_value (ip ++ fp))
                       * Qpower 10 (parse_exponent r2 - Z.of_nat (length fp))))
        end
    | _ =>
        match ip with
        | [] => NaN
        | _ => Fin (Qred (inject_Z (digits_value ip) * Qpower 10 (parse_exponent r1)))
        end
    end.

Definition qneg (a : num Q) : num Q :=
  match a with
  | Fin x => Fin (Qred (- x))
  | PosInf => NegInf
  | NegInf => PosInf
  | NaN => NaN
  end.

(** [parseFloat(v)] for a JSON field that is a string or is missing *)
Definition parseFloat (v : option string) : num Q :=
  match v with
  | None => NaN
  | Some s =>
      match Text.trimStart s with
      | String "-" r => qneg (parse_unsigned r)
      | String "+" r => parse_unsigned r
      | r => parse_unsigned r
      end
  end.

(** *** Responses of the catalogue *)

(** an entry of [data.Search] *)
Record search_item : Type := SearchItem {
  s_imdbID : option string;
  s_Title : option string
}.

(** the body of a search response; [sd_Search] is [None] when [data.Search]
    is not an array *)
Record search_data : Type := SearchData {
  sd_Response : option string;
  sd_Error : option string;
  sd_Search : option (list (option search_item))
}.

(** the body of a detail response *)
Record movie : Type := Movie {
  imdbID : option string;
  Response : option string;
  imdbRating : option string;
  Title : option string;
  Genre : option string;
  Plot : option string;
  Actors : option string;
  Director : option string;
  Writer : option string;
  Year : option string
}.

(** what [https_get_json] hands to its callback: an error, or the parsed
    body, which is [None] for the JSON value [null] *)
Inductive http_result (A : Type) : Type :=
| HttpError (err : string)
| HttpOk (data : option A).
Arguments HttpError {A} err.
Arguments HttpOk {A} data.

(** the catalogue as the pipeline sees it *)
Record omdb : Type := Api {
  search : string -> nat -> http_result search_data;
  detail : string -> http_result movie
}.

(** the requests the pipeline issues, in order *)
Inductive request : Type :=
| GetSearch (term : string) (page : nat)
| GetDetail (id : string).

(** the records pushed to [debug.steps] (the endpoint URL of a search step
    is left out) *)
Inductive step : Type :=
| StepSearch (page : nat)
| StepSearchPageEmpty (page : nat) (error : string)
| StepFinalCandidates (count : nat)
| StepFilteredOut (id : string) (rating : option string).

(** the arguments of the final [cb(err, movies, debug)], and the requests
    issued on the way *)
Record outcome : Type := Outcome {
  err : option string;
  movies : list movie;
  steps : list step;
  requests : list request
}.

(** truthiness of a string field *)
Definition truthy_str (v : option string) : option string :=
  match v with
  | Some s => if Text.nonempty s then Some s else None
  | None => None
  end.

(** *** Phase 2: [fetch_details_sequential]

    The index [i] of the source is the position of [candidates] in the whole
    list: the argument here is [candidates.slice(i)]. *)
Fixpoint fetch_details_sequential (api : omdb) (candidates : list (option search_item))
    (acc : list movie) (limit : Z) (min_rating : num Q)
    (dbg : list step) (reqs : list request) : outcome :=
  if (limit <=? Z.of_nat (length acc))%Z then Outcome None acc dbg reqs
  else
    match candidates with
    | [] => Outcome None acc dbg reqs
    | c :: rest =>
        match truthy_str (c ≫= s_imdbID) with
        | None => fetch_details_sequential api rest acc limit min_rating dbg reqs
        | Some id =>
            let reqs := reqs ++ [GetDetail id] in
            match detail api id with
            | HttpOk (Some movie) =>
                if negb (bool_decide (Response movie = Some "False")) then
                  let rating := parseFloat (imdbRating movie) in
                  let passes := isFinite rating && qge rating min_rating in
                  if passes
                  then fetch_details_sequential api rest (acc ++ [movie]) limit min_rating dbg reqs
                  else fetch_details_sequential api rest acc limit min_rating
                         (dbg ++ [StepFilteredOut id (imdbRating movie)]) reqs
                else fetch_details_sequential api rest acc limit min_rating dbg reqs
            | _ => fetch_details_sequential api rest acc limit min_rating dbg reqs
            end
        end
    end.

(** *** Phase 1: [fetch_page] *)

Definition MAX_PAGES : nat := 5.

(** the body of the loop over [pageResults] *)
Definition add_result (st : gset string * list search_item) (r : option search_item)
    : gset string * list search_item :=
  let '(seen, candidates) := st in
  match r with
  | Some item =>
      match truthy_str (s_imdbID item) with
      | Some id =>
          if bool_decide (id ∈ seen) then st
          else ({[id]} ∪ seen, candidates ++ [item])
      | None => st
      end
  | None => st
  end.

(** how the search phase ends: with the error of a page, or in [finish()] *)
Inductive search_end : Type :=
| PageError (err : string) (dbg : list step) (reqs : list request)
| Finish (candidates : list search_item) (dbg : list step) (reqs : list request).

(** [fetch_page(page)], with the state of the enclosing call.  [fuel] bounds
    the number of pages still to be requested; [None] is running out of it. *)
Fixpoint fetch_page (api : omdb) (search_term : string) (fuel page : nat)
    (seen : gset string) (candidates : list search_item)
    (dbg : list step) (reqs : list request) : option search_end :=
  match fuel with
  | O => None
  | S fuel' =>
      let dbg := dbg ++ [StepSearch page] in
      let reqs := reqs ++ [GetSearch search_term page] in
      match search api search_term page with
      | HttpError err => Some (PageError err dbg reqs)
      | HttpOk None =>
          Some (Finish candidates (dbg ++ [StepSearchPageEmpty page "Unknown"]) reqs)
      | HttpOk (Some data) =>
          if bool_decide (sd_Response data = Some "False") then
            Some (Finish candidates
                    (dbg ++ [StepSearchPageEmpty page
                               (default "Unknown" (truthy_str (sd_Error data)))])
                    reqs)
          else
            let pageResults := default [] (sd_Search data) in
            let '(seen, candidates) := foldl add_result (seen, candidates) pageResults in
            if (MAX_PAGES <=? page) || (45 <=? length candidates)
            then Some (Finish candidates dbg reqs)
            else fetch_page api search_term fuel' (page + 1) seen candidates dbg reqs
      end
  end.

(** [finish()] *)
Definition finish (api : omdb) (limit : Z) (min_rating : num Q)
    (candidates : list search_item) (dbg : list step) (reqs : list request) : outcome :=
  let dbg := dbg ++ [StepFinalCandidates (length candidates)] in
  if length candidates =? 0 then Outcome None [] dbg reqs
  else fetch_details_sequential api (map Some candidates) [] limit min_rating dbg reqs.

(** [omdb_search_then_fill(search_term, limit, min_rating, cb)]: the value is
    what [cb] receives *)
Definition omdb_search_then_fill (api : omdb) (search_term : string)
    (limit : Z) (min_rating : num Q) : option outcome :=
  match fetch_page api search_term MAX_PAGES 1 ∅ [] [] [] with
  | None => None
  | Some (PageError err dbg reqs) => Some (Outcome (Some err) [] dbg reqs)
  | Some (Finish candidates dbg reqs) => Some (finish api limit min_rating candidates dbg reqs)
  end.

End Omdb.
Import Omdb.


(** ** Sessions and the feedback loop *)

Module Feedback.

(** *** Property reads on plain objects

    [moviesById] and [preferenceBias] are object literals, so a read
    [o[k]] that finds no own property goes on to [Object.prototype]. *)

Definition OBJECT_PROTOTYPE_KEYS : list string :=
  ["constructor"; "__proto__"; "hasOwnProperty"; "isPrototypeOf";
   "propertyIsEnumerable"; "toLocaleString"; "toString"; "valueOf";
   "__defineGetter__"; "__defineSetter__"; "__lookupGetter__"; "__lookupSetter__"].

Inductive property (V : Type) : Type :=
| Own (v : V)       (* an own property *)
| Inherited         (* a function or object of [Object.prototype] *)
| Absent.           (* [undefined] *)
Arguments Own {V} v.
Arguments Inherited {V}.
Arguments Absent {V}.

Definition obj_get {V} (o : gmap string V) (k : string) : property V :=
  match o !! k with
  | Some v => Own v
  | None => if bool_decide (k ∈ OBJECT_PROTOTYPE_KEYS) then Inherited else Absent
  end.

(** *** The session store *)

Record user : Type := User { login : string; bio : string; location : string }.

(** [session.last] *)
Record lastrun : Type := LastRun {
  last_genre : string;
  moviesById : gmap string movie;
  ts : nat
}.

Record session : Type := Session {
  session_user : user;
  access_token : string;
  created_at : nat;
  preferenceBias : option (gmap string (num Q));
  last : option lastrun
}.

(** the two process-wide stores the feedback handler touches *)
Record server : Type := Server {
  session_store : gmap string session;
  GENRE_MODEL : model
}.

(** [init_bias()] *)
Definition init_bias : gmap string (num Q) :=
  foldl (fun out g => <[g := Fin 0%Q]> out) ∅ GENRE_LABELS.

(** [clamp_num(n, min, max)] *)
Definition clamp_num (n : num Q) (min max : Q) : num Q :=
  match n with
  | Fin x => Fin (Qmax min (Qmin max x))
  | _ => Fin 0%Q
  end.

Definition STEP : Q := 1 # 4.

(** [session.preferenceBias[chosenGenre] || 0].  An inherited property is a
    function; it is truthy, and adding [STEP] to it gives a string that
    [Number] reads as [NaN], which is what stands for it here. *)
Definition bias_read (b : gmap string (num Q)) (g : string) : num Q :=
  match obj_get b g with
  | Own v => qor v (Fin 0%Q)
  | Inherited => NaN
  | Absent => Fin 0%Q
  end.

(** the movie fields [build_movie_training_text] reads off what
    [moviesById[imdbID]] gave; an inherited function has none of them *)
Definition training_fields (m : property movie) : list (option string) :=
  match m with
  | Own m => [Title m; Genre m; Plot m; Actors m; Director m; Writer m; Year m]
  | _ => []
  end.

(** [parts.filter(Boolean).join(" ")] *)
Fixpoint join_space (parts : list string) : string :=
  match parts with
  | [] => ""
  | [p] => p
  | p :: rest => (p ++ " " ++ join_space rest)%string
  end.

(** [build_movie_training_text(movie)] *)
Definition build_movie_training_text (m : property movie) : string :=
  join_space (omap truthy_str (training_fields m)).

(** *** [POST /feedback] *)

(** the request: the [sid] cookie, and what [parse_json_body] hands over,
    with [body.imdbID] and [body.action] already through [String(_ || "")] *)
Record feedback_body : Type := Body { body_imdbID : string; body_action : string }.
Record feedback_request : Type := Request {
  cookie_sid : option string;
  body : string + feedback_body
}.

(** the reply of [send_json] *)
Inductive reply : Type :=
| ReplyError (status : nat) (error : string)
| ReplyOk (action imdbID appliedGenre : string)
          (updatedBias : gmap string (num Q)) (modelStats : model_stats).

Definition status_of (r : reply) : nat :=
  match r with
  | ReplyError status _ => status
  | ReplyOk _ _ _ _ _ => 200
  end.

(** [get_session(req)] *)
Definition get_session (srv : server) (sid : option string) : option (string * session) :=
  match truthy_str sid with
  | None => None
  | Some sid => (fun s => (sid, s)) <$> session_store srv !! sid
  end.

(** [handle_feedback(req, res)]: the reply and the stores afterwards.  The
    write [session.preferenceBias[chosenGenre] = ...] is an insertion: the
    genre of a LastRun is one of the six labels, never ["__proto__"]. *)
Definition handle_feedback (req : feedback_request) (srv : server) : reply * server :=
  match get_session srv (cookie_sid req) with
  | None => (ReplyError 401 "Not logged in.", srv)
  | Some (sid, session) =>
      match body req with
      | inl err => (ReplyError 400 err, srv)
      | inr body =>
          let imdbID := Text.trim (body_imdbID body) in
          let action := Text.toLowerCase (Text.trim (body_action body)) in
          if negb (Text.nonempty imdbID)
             || (negb (String.eqb action "like") && negb (String.eqb action "dislike"))
          then (ReplyError 400 "Expected { imdbID, action: like|dislike }", srv)
          else
            match last session with
            | None =>
                (ReplyError 400 "No active recommendation session to provide feedback on.", srv)
            | Some lastrun =>
                if negb (Text.nonempty (last_genre lastrun)) then
                  (ReplyError 400 "No active recommendation session to provide feedback on.",
                   srv)
                else
                  match obj_get (moviesById lastrun) imdbID with
                  | Absent =>
                      (ReplyError 404 "Movie not found in last recommendation results.", srv)
                  | movie =>
                      let chosenGenre := last_genre lastrun in
                      let bias := default init_bias (preferenceBias session) in
                      let bias' :=
                        if String.eqb action "like"
                        then <[chosenGenre :=
                                 clamp_num (qadd (bias_read bias chosenGenre) (Fin STEP))
                                           (-2) 2]> bias
                        else <[chosenGenre :=
                                 clamp_num (qsub (bias_read bias chosenGenre) (Fin STEP))
                                           (-2) 2]> bias in
                      let session' :=
                        {| session_user := session_user session;
                           access_token := access_token session;
                           created_at := created_at session;
                           preferenceBias := Some bias';
                           last := last session |} in
                      let model' :=
                        if String.eqb action "like"
                        then trainOne chosenGenre (build_movie_training_text movie)
                                      (GENRE_MODEL srv)
                        else GENRE_MODEL srv in
                      (ReplyOk action imdbID chosenGenre bias' (stats model'),
                       {| session_store := <[sid := session']> (session_store srv);
                          GENRE_MODEL := model' |})
                  end
            end
      end
  end.

(** [session.last = { genre, moviesById, ts }] at the end of a pipeline run:
    [moviesById] gets every movie that has a truthy [imdbID] *)
Definition movies_by_id (movies : list movie) : gmap string movie :=
  foldl (fun o m =>
           match truthy_str (imdbID m) with
           | Some id => <[id := m]> o
           | None => o
           end)
        ∅ movies.

End Feedback.
Import Feedback.

(** ** Inputs of the scenarios *)

Module Scenarios.


(** a bias map after eight dislikes of Action runs *)
Definition bias_against_action : gmap string (num Q) :=
  {[ "Action" := Fin (-2)%Q ]}.

(** a search item and a detail record that carry just an ID, a title and a
    rating *)
Definition item (id : string) : search_item :=
  {| s_imdbID := Some id; s_Title := Some ("Title of " ++ id)%string |}.

Definition rated (id rating : string) : movie :=
  {| imdbID := Some id; Response := Some "True"; imdbRating := Some rating;
     Title := Some ("Title of " ++ id)%string; Genre := None; Plot := None;
     Actors := None; Director := None; Writer := None; Year := None |}.

Definition page (items : list search_item) : http_result search_data :=
  HttpOk (Some {| sd_Response := Some "True"; sd_Error := None;
                  sd_Search := Some (map Some items) |}).

Definition no_results : http_result search_data :=
  HttpOk (Some {| sd_Response := Some "False"; sd_Error := Some "Movie not found!";
                  sd_Search := None |}).

(** Scenario D: one page of five candidates, rated 9.1, 7.5, 8.8, N/A, 8.0 *)
Definition ratings_D : list (string * string) :=
  [("tt1", "9.1"); ("tt2", "7.5"); ("tt3", "8.8"); ("tt4", "N/A"); ("tt5", "8.0")].

Definition api_D : omdb :=
  {| search := fun _ p => if p =? 1 then page (map (fun r => item (fst r)) ratings_D)
                          else no_results;
     detail := fun id =>
       match List.find (fun r => String.eqb (fst r) id) ratings_D with
       | Some r => HttpOk (Some (rated (fst r) (snd r)))
       | None => HttpError "HTTPS error: not found"
       end |}.

(** a catalogue whose first page lists one well-rated movie and whose second
    page cannot be fetched *)
Definition api_page2_fails : omdb :=
  {| search := fun _ p => if p =? 1 then page [item "tt1"]
                          else HttpError "HTTPS error: socket hang up";
     detail := fun id => HttpOk (Some (rated id "9.0")) |}.

(** the same catalogue with a second page that answers "no results" *)
Definition api_page2_empty : omdb :=
  {| search := fun _ p => if p =? 1 then page [item "tt1"] else no_results;
     detail := fun id => HttpOk (Some (rated id "9.0")) |}.

(** a session right after a recommendation run that chose Drama and returned
    one movie, and the server that holds it *)
Definition session_1 : session :=
  {| session_user := User "octocat" "" "";
     access_token := "token";
     created_at := 0;
     preferenceBias := Some init_bias;
     last := Some (LastRun "Drama" (movies_by_id [rated "tt1" "9.0"]) 0) |}.

Definition server_1 : server :=
  {| session_store := {[ "s1" := session_1 ]}; GENRE_MODEL := GENRE_MODEL_0 |}.

(** [POST /feedback] with the cookie of that session *)
Definition feedback (id action : string) : feedback_request :=
  {| cookie_sid := Some "s1"; body := inr (Body id action) |}.

End Scenarios.
Import Scenarios.

(** ** Vocabulary of the specification

  The notions the properties below are stated with, written after the
  prose of the specification rather than after the code. *)

Module Spec.

(** the sum of a token-count map's values *)
Definition sum_counts (m : gmap string nat) : nat :=
  map_fold (fun _ v acc => v + acc) 0 m.

(** "for every label, total token count equals the sum of that label's
    token-count map values; vocabulary is the union of all labels' token
    keys" *)
Definition counts_consistent (st : model) : Prop :=
  (∀ l m, wordCounts st !! l = Some m → totalWords st !! l = Some (sum_counts m)) ∧
  (∀ tok, tok ∈ vocab st ↔ ∃ l m, wordCounts st !! l = Some m ∧ tok ∈ dom m).

(** "tokens and counts are only added, never removed" *)
Definition model_le (st st' : model) : Prop :=
  (∀ l, count_of (docCounts st) l ≤ count_of (docCounts st') l) ∧
  (∀ l m, wordCounts st !! l = Some m →
     ∃ m', wordCounts st' !! l = Some m' ∧ dom m ⊆ dom m' ∧
           ∀ tok, count_of m tok ≤ count_of m' tok) ∧
  (∀ l, count_of (totalWords st) l ≤ count_of (totalWords st') l) ∧
  vocab st ⊆ vocab st'.

(** the sum of a list of reals *)
Definition Rsum (l : list R) : R := foldr Rplus 0%R l.

(** "log((docCount[label]+1)/(totalDocs+numLabels)) + the sum over tokens of
    log((tokenCount[label][token]+1)/(totalTokens[label]+vocabularySize)),
    where vocabularySize is the current global vocabulary size (minimum 1)
    and totalDocs is the sum of all labels' document counts (minimum 1)";
    [m] is the token-count map of [label] *)
Definition log_score (st : model) (m : gmap string nat)
    (tokens : list string) (label : string) : R :=
  let totalDocs := Nat.max 1 (sum_list (map (count_of (docCounts st)) (labels st))) in
  let vocabularySize := Nat.max 1 (size (vocab st)) in
  (ln (INR (count_of (docCounts st) label + 1) / INR (totalDocs + length (labels st)))
   + Rsum (map (fun tok =>
                  ln (INR (count_of m tok + 1)
                      / INR (count_of (totalWords st) label + vocabularySize)))
               tokens))%R.

(** a map that holds the finite value [f l] for each of the six labels, in
    the labels' order *)
Definition table {F : Type} (f : string -> F) : jsmap (num F) :=
  map (fun l => (l, Fin (f l))) GENRE_LABELS.

(** "add a fixed prior weight" per rule that applies: what the four
    heuristic rules together add to the prior of label [l] *)
Definition heuristic_prior (bio location l : string) : Q :=
  ((if bool_decide (l = "Drama") && no_bio bio then 7 # 10 else 0)
   + (if bool_decide (l = "Thriller") && name_only_bio bio then 9 # 10 else 0)
   + (if bool_decide (l = "Action") && nyc_location location then 35 # 100 else 0)
   + (if bool_decide (l = "Sci-Fi") && tech_hub_location location then 35 # 100 else 0))%Q.

(** "add user_bias[label] for every label where it is a non-zero finite
    number" *)
Definition bias_effect (userBias : gmap string (num Q)) (l : string) : Q :=
  match bias_value userBias l with
  | Fin v => v
  | _ => 0%Q
  end.

(** the prior of label [l] after steps 1 to 4 *)
Definition prior_value (bio location : string) (userBias : gmap string (num Q))
    (l : string) : Q :=
  (heuristic_prior bio location l + bias_effect userBias l)%Q.


(** the same with the divisor replaced by 1 only when the sum is 0 *)
Definition amended_confidence (combined : string -> R) (selected : string) : R :=
  let total := Rsum (map combined GENRE_LABELS) in
  (combined selected / (if Req_dec_T total 0 then 1 else total))%R.

(** the ID a search item is known by *)
Definition item_id (it : search_item) : string := default "" (s_imdbID it).

(** the entries of a result array that can become candidates: objects with a
    truthy ID *)
Definition valid_items (results : list (option search_item)) : list search_item :=
  omap (fun r => r ≫= fun it => truthy_str (s_imdbID it) ≫= fun _ => Some it) results.

(** a page that answers with results (even none), as opposed to a failed
    request, a [null] body or [Response: "False"] *)
Definition page_ok (api : omdb) (term : string) (p : nat) : bool :=
  match search api term p with
  | HttpOk (Some data) => negb (bool_decide (sd_Response data = Some "False"))
  | _ => false
  end.

(** the candidates a page offers *)
Definition page_items (api : omdb) (term : string) (p : nat) : list search_item :=
  match search api term p with
  | HttpOk (Some data) =>
      if bool_decide (sd_Response data = Some "False") then []
      else valid_items (default [] (sd_Search data))
  | _ => []
  end.

(** "deduplicated against all previously seen IDs ... preserving first-seen
    order" *)
Fixpoint first_seen (seen : gset string) (items : list search_item) : list search_item :=
  match items with
  | [] => []
  | it :: rest =>
      if bool_decide (item_id it ∈ seen) then first_seen seen rest
      else it :: first_seen ({[item_id it]} ∪ seen) rest
  end.

(** the candidate list after pages 1 to [n] *)
Definition collected (api : omdb) (term : string) (n : nat) : list search_item :=
  first_seen ∅ (concat (map (page_items api term) (seq 1 n))).

(** a candidate "whose detail fetch succeeds and whose rating parses to a
    finite number >= min_rating" gives its detail record *)
Definition accept (api : omdb) (min_rating : num Q) (c : option search_item) : option movie :=
  match truthy_str (c ≫= s_imdbID) with
  | None => None
  | Some id =>
      match detail api id with
      | HttpOk (Some m) =>
          if negb (bool_decide (Response m = Some "False"))
             && isFinite (parseFloat (imdbRating m))
             && qge (parseFloat (imdbRating m)) min_rating
          then Some m else None
      | _ => None
      end
  end.

Definition accepted (api : omdb) (min_rating : num Q)
    (candidates : list (option search_item)) : list movie :=
  omap (accept api min_rating) candidates.

(** the detail requests a run over [candidates] issues *)
Definition detail_requests (candidates : list (option search_item)) : list request :=
  map GetDetail (omap (fun c => truthy_str (c ≫= s_imdbID)) candidates).

(** "never push any bias value outside [-2, 2]" *)
Definition bias_in_range (b : gmap string (num Q)) : Prop :=
  map_Forall (fun _ v => ∃ q, v = Fin q ∧ (-2 <= q <= 2)%Q) b.

Definition biases_in_range (srv : server) : Prop :=
  map_Forall (fun _ s => ∀ b, preferenceBias s = Some b → bias_in_range b)
             (session_store srv).

(** a sequence of [POST /feedback] requests, one after the other *)
Definition feedback_run (reqs : list feedback_request) (srv : server) : server :=
  foldl (fun srv req => snd (handle_feedback req srv)) srv reqs.

(** the bias map a session works with: its own, or [init_bias()] *)
Definition bias_of (s : session) : gmap string (num Q) :=
  default init_bias (preferenceBias s).

(** the bias a session holds for a genre *)
Definition bias_at (srv : server) (sid g : string) : option (num Q) :=
  match session_store srv !! sid with
  | Some s => match preferenceBias s with Some b => b !! g | None => None end
  | None => None
  end.

End Spec.
Import Spec.

(** ** Invariants and run descriptions used in the proofs *)

Module Invariants.

(** a classifier that has seen no text yet *)
Definition blank (st : model) : Prop :=
  vocab st = ∅ ∧
  (∀ l m, wordCounts st !! l = Some m → m = ∅ ∧ totalWords st !! l = Some 0).

(** [p] holds, for each label, a finite prior equal to [f] of the label *)
Definition holds_priors (p : jsmap (num Q)) (f : string → Q) : Prop :=
  ∃ f', p = table f' ∧ ∀ l, (f' l == f l)%Q.

(** the IDs of a list of search items *)
Definition ids_of (items : list search_item) : gset string :=
  list_to_set (map item_id items).

(** the candidates after reading pages [page] to [p], from a state
    [(seen, cands)] *)
Definition gathered (api : omdb) (term : string) (seen : gset string)
    (cands : list search_item) (page p : nat) : list search_item :=
  cands ++ first_seen seen (concat (map (page_items api term) (seq page (p + 1 - page)))).

(** how a run of [fetch_page] that stops at page [n] ends *)
Definition stops_at (api : omdb) (term : string) (seen : gset string)
    (cands : list search_item) (reqs : list request) (page n : nat)
    (r : search_end) : Prop :=
  let reqs_n := reqs ++ map (GetSearch term) (seq page (n + 1 - page)) in
  match search api term n with
  | HttpError e => ∃ dbg', r = PageError e dbg' reqs_n
  | HttpOk _ =>
      (page_ok api term n = true →
       n = MAX_PAGES ∨ 45 <= length (gathered api term seen cands page n)) ∧
      ∃ dbg', r = Finish (gathered api term seen cands page n) dbg' reqs_n
  end.

End Invariants.
Import Invariants.

(** * The rest of the program

    The functions around the ones above: the page helpers, the request
    parameters, the handlers that drive a run, and the rule-based chooser of
    the earlier [index.js]. *)

(** ** HTML escaping *)

Module Html.

(** [s.replaceAll(c, repl)] for a pattern of one character; none of the
    replacement texts used here holds a [$] *)
Fixpoint replaceAll (c : ascii) (repl : string) (s : string) : string :=
  match s with
  | EmptyString => EmptyString
  | String x s' =>
      if Ascii.eqb x c then (repl ++ replaceAll c repl s')%string
      else String x (replaceAll c repl s')
  end.

(** the double quote *)
Definition dquote : ascii := ascii_of_nat 34.

(** [escape_html] *)
Definition escape_html (s : string) : string :=
  replaceAll "'" "&#039;"
    (replaceAll dquote "&quot;"
       (replaceAll ">" "&gt;"
          (replaceAll "<" "&lt;"
             (replaceAll "&" "&amp;" s)))).

(** [escape_attr] *)
Definition escape_attr (s : string) : string :=
  replaceAll "`" "&#096;" (escape_html s).

End Html.
Import Html.

(** ** Request parameters *)

Module Params.

(** [parseInt(v, 10)] for a query parameter, which is a string or [null];
    [None] is [NaN] *)
Definition parseInt (v : option string) : option Z :=
  match v with
  | None => None
  | Some s =>
      let '(neg, r) :=
        match Text.trimStart s with
        | String "-" r => (true, r)
        | String "+" r => (false, r)
        | r => (false, r)
        end in
      match take_digits r with
      | ([], _) => None
      | (ds, _) => Some (if neg then (- digits_value ds)%Z else digits_value ds)
      end
  end.

(** [clamp_int(v, min, max, fallback)] *)
Definition clamp_int (v : option string) (min max fallback : Z) : Z :=
  match parseInt v with
  | None => fallback
  | Some n => Z.max min (Z.min max n)
  end.

(** [Math.min] and [Math.max] of two numbers *)
Definition Math_min (a b : num Q) : num Q :=
  match a, b with
  | NaN, _ | _, NaN => NaN
  | NegInf, _ | _, NegInf => NegInf
  | PosInf, x | x, PosInf => x
  | Fin x, Fin y => Fin (Qmin x y)
  end.

Definition Math_max (a b : num Q) : num Q :=
  match a, b with
  | NaN, _ | _, NaN => NaN
  | PosInf, _ | _, PosInf => PosInf
  | NegInf, x | x, NegInf => x
  | Fin x, Fin y => Fin (Qmax x y)
  end.

(** [clamp_float(v, min, max, fallback)] *)
Definition clamp_float (v : option string) (min max fallback : Q) : num Q :=
  match parseFloat v with
  | NaN => Fin fallback
  | n => Math_max (Fin min) (Math_min (Fin max) n)
  end.

End Params.
Import Params.

(** ** The rule-based chooser of the earlier [index.js] *)

Module Legacy.

(** [contains_any_phrase(text, phrases)] *)
Definition contains_any_phrase (text : string) (phrases : list string) : bool :=
  existsb (fun p => Text.includes text (Text.toLowerCase p)) phrases.

Definition coding_words : list string :=
  ["computer science"; "software"; "developer"; "dev"; "programmer"; "coding"; "code";
   "javascript"; "node"; "python"; "java"; "c++"; "cs"; "engineering"; "engineer";
   "full stack"; "fullstack"; "backend"; "frontend"; "ai"; "ml"; "machine learning"].

(** the four ways [choose_genre_from_bio_location] decides *)
Inductive rule : Type := CodingWords | NoBioNewYork | NoBioElsewhere | NameOnly | NoMatch.

(** [choose_genre_from_bio_location(bio, location)]: the genre, and the rule
    that stands for the reason text *)
Definition choose_genre_from_bio_location (bio location : string) : string * rule :=
  let b := Text.normalize_text bio in
  if contains_any_phrase b coding_words then ("Sci-Fi", CodingWords)
  else if negb (Text.nonempty b) then
    let loc := Text.normalize_text location in
    if Text.includes loc "new york" || Text.includes loc "nyc" || Text.includes loc "ny"
    then ("Action", NoBioNewYork)
    else ("Drama", NoBioElsewhere)
  else if Text.is_name_only_bio bio then ("Thriller", NameOnly)
  else ("Drama", NoMatch).

End Legacy.

(** ** The handlers that drive a run *)

Module App.

(** an entry of [oauth_state_store] *)
Record oauth_entry : Type := OAuthEntry {
  oe_created_at : nat;
  oe_full_name : string;
  oe_min_rating : num Q;
  oe_limit : Z
}.

(** the in-memory stores of the process *)
Record process : Type := Process {
  oauth_state_store : gmap string oauth_entry;
  stores : server
}.

(** what a run hands to the page template: the HTML itself is left out *)
Record run_page : Type := RunPage {
  page_user : user;
  page_decision : decision;
  page_search_term : string;
  page_movies : list movie;
  page_steps : list step;
  page_userBias : gmap string (num Q)
}.

(** [run_pipeline(access_token, sid, full_name, limit, min_rating, cb)].
    [github_user] is what [fetch_github_user] answers this call with, [now]
    what [Date.now()] gives; the value is what [cb] receives, and [None] is
    [omdb_search_then_fill] running out of fuel.  A run is taken as one
    step: no other request is served between its start and its callback.  The assignment
    [moviesById[m.imdbID] = m] is an insertion for every ID but ["__proto__"],
    which a catalogue ID never is. *)
Definition run_pipeline (api : omdb) (github_user : string + user) (now : nat)
    (sid : option string) (limit : Z) (min_rating : num Q) (srv : server)
    : option ((string + run_page) * server) :=
  match github_user with
  | inl e => Some (inl ("GitHub API error: " ++ e)%string, srv)
  | inr user =>
      let bio := Text.trim (bio user) in
      let location := Text.trim (location user) in
      let session :=
        match truthy_str sid with
        | Some sid => session_store srv !! sid
        | None => None
        end in
      let userBias :=
        match session with
        | Some s => default init_bias (preferenceBias s)
        | None => init_bias
        end in
      let decision := choose_genre_deep (GENRE_MODEL srv) bio location userBias in
      let search_term := genre_to_search_term (genre decision) in
      match omdb_search_then_fill api search_term limit min_rating with
      | None => None
      | Some out =>
          match err out with
          | Some e2 => Some (inl ("OMDb error: " ++ e2)%string, srv)
          | None =>
              let moviesById := movies_by_id (movies out) in
              let srv' :=
                match session, truthy_str sid with
                | Some s, Some sid =>
                    {| session_store :=
                         <[sid := {| session_user := user;
                                     access_token := access_token s;
                                     created_at := created_at s;
                                     preferenceBias := preferenceBias s;
                                     last := Some (LastRun (genre decision) moviesById now) |}]>
                           (session_store srv);
                       GENRE_MODEL := GENRE_MODEL srv |}
                | _, _ => srv
                end in
              Some (inr {| page_user := user;
                           page_decision := decision;
                           page_search_term := search_term;
                           page_movies := movies out;
                           page_steps := steps out;
                           page_userBias := userBias |},
                    srv')
          end
      end
  end.

(** what a handler sends *)
Inductive response : Type :=
| RespText (status : nat) (text : string)
| RespRedirectGithub (state : string)      (* 302 to the authorize URL *)
| RespRedirectHome                         (* 302 to "/" *)
| RespHtml (status : nat) (p : run_page)
| RespSession (sid : string) (body : string + run_page).   (* 200 with Set-Cookie *)



(** [handle_github_callback(req, res)].  [token] is the answer of
    [exchange_code_for_token], [github_user] that of the handler's own
    [fetch_github_user], [github_user2] that of the one inside
    [run_pipeline]; [new_sid] is what [random_id()] gives. *)
Definition handle_github_callback (api : omdb) (token : string + string)
    (github_user github_user2 : string + user) (now now2 : nat) (new_sid : string)
    (code state : option string) (a : process) : option (response * process) :=
  match truthy_str code, truthy_str state with
  | Some code, Some state =>
      match oauth_state_store a !! state with
      | None => Some (RespText 400 "OAuth Error: missing/invalid code or state.", a)
      | Some entry =>
          let oauth' := delete state (oauth_state_store a) in
          match token with
          | inl e =>
              Some (RespText 500 ("Token Exchange Failed: " ++ e)%string,
                    {| oauth_state_store := oauth'; stores := stores a |})
          | inr access_token =>
              match github_user with
              | inl e2 =>
                  Some (RespText 500 ("GitHub User Fetch Failed: " ++ e2)%string,
                        {| oauth_state_store := oauth'; stores := stores a |})
              | inr user =>
                  let srv1 :=
                    {| session_store :=
                         <[new_sid := {| session_user := user;
                                         access_token := access_token;
                                         created_at := now;
                                         preferenceBias := Some init_bias;
                                         last := None |}]>
                           (session_store (stores a));
                       GENRE_MODEL := GENRE_MODEL (stores a) |} in
                  match run_pipeline api github_user2 now2 (Some new_sid)
                          (oe_limit entry) (oe_min_rating entry) srv1 with
                  | None => None
                  | Some (inl e3, srv) =>
                      Some (RespSession new_sid
                              (inl ("<pre>" ++ escape_html e3 ++ "</pre>")%string),
                            {| oauth_state_store := oauth'; stores := srv |})
                  | Some (inr p, srv) =>
                      Some (RespSession new_sid (inr p),
                            {| oauth_state_store := oauth'; stores := srv |})
                  end
              end
          end
      end
  | _, _ => Some (RespText 400 "OAuth Error: missing/invalid code or state.", a)
  end.

(** [logout(req, res)] *)
Definition logout (cookie : option string) (a : process) : response * process :=
  (RespRedirectHome,
   match truthy_str cookie with
   | Some sid =>
       {| oauth_state_store := oauth_state_store a;
          stores := {| session_store := delete sid (session_store (stores a));
                       GENRE_MODEL := GENRE_MODEL (stores a) |} |}
   | None => a
   end).

(** *** Routing *)








End App.
Import App.

(** ** Notions the further properties are stated with *)

Module Notions.

(** every character of a string satisfies [P] *)
Fixpoint string_forall (P : ascii -> bool) (s : string) : bool :=
  match s with
  | EmptyString => true
  | String c s' => P c && string_forall P s'
  end.

(** the class [[a-z0-9]] *)
Definition is_alnum (c : ascii) : bool :=
  let n := Text.code c in
  ((97 <=? n) && (n <=? 122)) || ((48 <=? n) && (n <=? 57)).

(** the character occurs in the string *)
Fixpoint occurs (c : ascii) (s : string) : bool :=
  match s with
  | EmptyString => false
  | String x s' => Ascii.eqb x c || occurs c s'
  end.

(** the text each character stands for after escaping *)
Definition entity (c : ascii) : string :=
  if Ascii.eqb c "&" then "&amp;"
  else if Ascii.eqb c "<" then "&lt;"
  else if Ascii.eqb c ">" then "&gt;"
  else if Ascii.eqb c dquote then "&quot;"
  else if Ascii.eqb c "'" then "&#039;"
  else String c "".

(** one text per character, concatenated *)
Fixpoint string_flat_map (f : ascii -> string) (s : string) : string :=
  match s with
  | EmptyString => EmptyString
  | String c s' => (f c ++ string_flat_map f s')%string
  end.

(** reading the five entities back *)
Fixpoint unescape_html (s : string) : string :=
  match s with
  | String "&" (String "a" (String "m" (String "p" (String ";" r)))) =>
      String "&" (unescape_html r)
  | String "&" (String "l" (String "t" (String ";" r))) => String "<" (unescape_html r)
  | String "&" (String "g" (String "t" (String ";" r))) => String ">" (unescape_html r)
  | String "&" (String "q" (String "u" (String "o" (String "t" (String ";" r))))) =>
      String dquote (unescape_html r)
  | String "&" (String "#" (String "0" (String "3" (String "9" (String ";" r))))) =>
      String "'" (unescape_html r)
  | String c r => String c (unescape_html r)
  | EmptyString => EmptyString
  end.

(** the first step of [trainOne] on a known label: one more document *)
Definition count_document (label : string) (st : model) : model :=
  {| labels := labels st;
     wordCounts := wordCounts st;
     docCounts := <[label := count_of (docCounts st) label + 1]> (docCounts st);
     totalWords := totalWords st;
     vocab := vocab st |}.

(** the debug record a fetched candidate leaves when it is not accepted: its
    detail came back, but the rating did not pass *)
Definition filtered_out (api : omdb) (min_rating : num Q) (c : option search_item)
    : option step :=
  match truthy_str (c ≫= s_imdbID) with
  | None => None
  | Some id =>
      match detail api id with
      | HttpOk (Some m) =>
          if negb (bool_decide (Response m = Some "False"))
             && negb (isFinite (parseFloat (imdbRating m))
                      && qge (parseFloat (imdbRating m)) min_rating)
          then Some (StepFilteredOut id (imdbRating m)) else None
      | _ => None
      end
  end.

(** white space only as single blanks: [prev] tells that a blank came just
    before *)
Fixpoint single_blanks (prev : bool) (s : string) : bool :=
  match s with
  | EmptyString => true
  | String c s' =>
      if Text.is_space c
      then Ascii.eqb c " " && negb prev && single_blanks true s'
      else single_blanks false s'
  end.

(** a text that does not start with white space *)
Definition starts_clean (s : string) : bool :=
  match s with
  | EmptyString => true
  | String c _ => negb (Text.is_space c)
  end.






End Notions.

(** a case per character *)
Ltac each_char c :=
  destruct c as [[] [] [] [] [] [] [] []].
Import Notions.

(** * Properties *)

(** ** The embedding on sample inputs *)

Example tokenize_sample :
  Text.tokenize "  Software-Engineer,  Node.js &amp; AI!  " =
  ["software"; "engineer"; "node"; "js"; "amp"; "ai"].
Proof. by vm_compute. Qed.

Example normalize_sample : Text.normalize_text "  New   York,  NY " = "new york, ny".
Proof. by vm_compute. Qed.

Example name_only_sample :
  map Text.is_name_only_bio ["Jane Doe"; "Jane Q. Doe-Smith III"; "42"; "  "]
  = [true; false; false; false].
Proof. by vm_compute. Qed.

Example parseFloat_samples :
  map parseFloat [Some "8.8"; Some "N/A"; None; Some " 7.5x"; Some "-.5e1"; Some "1e"; Some "."]
  = [Fin (44 # 5); NaN; NaN; Fin (15 # 2); Fin (-5 # 1); Fin 1; NaN]%Q.
Proof. by vm_compute. Qed.

Example seed_stats :
  map (fun l => count_of (docCounts GENRE_MODEL_0) l) GENRE_LABELS = [4; 3; 3; 3; 2; 2] ∧
  map (fun l => count_of (totalWords GENRE_MODEL_0) l) GENRE_LABELS = [29; 17; 18; 17; 8; 10].
Proof. split; by vm_compute. Qed.

(** ** The classifier state *)

Section classifier_state.

Implicit Types (st : model) (m : gmap string nat) (l tok : string).

Lemma sum_counts_empty : sum_counts ∅ = 0.
Proof. apply map_fold_empty. Qed.

Lemma sum_counts_insert_fresh m tok n :
  m !! tok = None → sum_counts (<[tok := n]> m) = n + sum_counts m.
Proof.
  intros Hnone. unfold sum_counts.
  rewrite map_fold_insert_L; [done | intros; lia | done].
Qed.

Lemma sum_counts_lookup m tok n :
  m !! tok = Some n → sum_counts m = n + sum_counts (delete tok m).
Proof.
  intros Hsome. unfold sum_counts.
  erewrite map_fold_delete_L; [done | intros; lia | done].
Qed.

(** one more occurrence of a token adds one to the sum *)
Lemma sum_counts_bump m tok :
  sum_counts (<[tok := count_of m tok + 1]> m) = sum_counts m + 1.
Proof.
  unfold count_of. destruct (m !! tok) as [n|] eqn:Hm; simpl.
  - rewrite <- insert_delete_eq.
    rewrite sum_counts_insert_fresh by apply lookup_delete_eq.
    rewrite (sum_counts_lookup m tok n Hm). lia.
  - rewrite sum_counts_insert_fresh by done. lia.
Qed.

Lemma model_le_refl st : model_le st st.
Proof.
  repeat split; auto. intros l m Hm. exists m. auto.
Qed.

Lemma model_le_trans st1 st2 st3 :
  model_le st1 st2 → model_le st2 st3 → model_le st1 st3.
Proof.
  intros (Hd1 & Hw1 & Ht1 & Hv1) (Hd2 & Hw2 & Ht2 & Hv2).
  split; [|split; [|split]].
  - intros l. etrans; [apply Hd1 | apply Hd2].
  - intros l m Hm.
    destruct (Hw1 l m Hm) as (m' & Hm' & Hdom & Hle).
    destruct (Hw2 l m' Hm') as (m'' & Hm'' & Hdom' & Hle').
    exists m''. split; [done|]. split; [set_solver|].
    intros tok. etrans; [apply Hle | apply Hle'].
  - intros l. etrans; [apply Ht1 | apply Ht2].
  - set_solver.
Qed.

Lemma count_of_insert (c : gmap string nat) l l' n :
  count_of (<[l := n]> c) l' = if decide (l = l') then n else count_of c l'.
Proof. unfold count_of. rewrite lookup_insert. by case_decide. Qed.

(** *** Creation *)

Lemma blank_consistent st : blank st → counts_consistent st.
Proof.
  intros [Hv Hw]. split.
  - intros l m Hm. destruct (Hw l m Hm) as [-> ->]. by rewrite sum_counts_empty.
  - intros tok. rewrite Hv. split; [set_solver|].
    intros (l & m & Hm & Hin). destruct (Hw l m Hm) as [-> _]. set_solver.
Qed.

Lemma createNaiveBayesModel_blank ls : blank (createNaiveBayesModel ls).
Proof.
  unfold createNaiveBayesModel.
  generalize ls at 1. intros ls0.
  assert (Hinit : blank {| labels := ls0; wordCounts := ∅; docCounts := ∅;
                           totalWords := ∅; vocab := ∅ |}).
  { split; [done|]. intros l m. simpl. by rewrite lookup_empty. }
  revert Hinit. generalize (Model ls0 ∅ ∅ ∅ ∅) as st.
  induction ls as [|l ls IH]; intros st Hst; simpl; [done|].
  apply IH. destruct Hst as [Hv Hw]. split; [done|]. simpl.
  intros l' m. rewrite !lookup_insert. case_decide; [naive_solver|].
  apply Hw.
Qed.

Lemma createNaiveBayesModel_labels ls : labels (createNaiveBayesModel ls) = ls.
Proof.
  unfold createNaiveBayesModel.
  generalize ls at 1 3. intros ls0.
  generalize (Model ls0 ∅ ∅ ∅ ∅) (eq_refl : labels (Model ls0 ∅ ∅ ∅ ∅) = ls0).
  induction ls as [|l ls IH]; intros st Hst; simpl; [done|].
  by apply IH.
Qed.

Lemma createNaiveBayesModel_wordCounts ls l :
  l ∈ ls → is_Some (wordCounts (createNaiveBayesModel ls) !! l).
Proof.
  unfold createNaiveBayesModel.
  generalize ls at 2. intros ls0.
  generalize (Model ls0 ∅ ∅ ∅ ∅) as st.
  assert (Hkeep : ∀ ls' st, is_Some (wordCounts st !! l) →
            is_Some (wordCounts (foldl (fun st l =>
                       {| labels := labels st;
                          wordCounts := <[l := ∅]> (wordCounts st);
                          docCounts := <[l := 0]> (docCounts st);
                          totalWords := <[l := 0]> (totalWords st);
                          vocab := vocab st |}) st ls') !! l)).
  { induction ls' as [|l' ls' IH]; intros st Hst; simpl; [done|].
    apply IH. simpl. rewrite lookup_insert. by case_decide. }
  induction ls as [|l' ls IH]; intros st Hin; [by apply elem_of_nil in Hin|].
  simpl. apply elem_of_cons in Hin as [->|Hin].
  - apply Hkeep. simpl. by rewrite lookup_insert_eq.
  - by apply IH.
Qed.

(** *** Training *)

Lemma add_token_consistent label st tok :
  is_Some (wordCounts st !! label) →
  counts_consistent st → counts_consistent (add_token label st tok).
Proof.
  intros [m Hm] [Htot Hvoc]. unfold add_token. rewrite Hm. simpl.
  split; simpl.
  - intros l m'. rewrite !lookup_insert. case_decide as Hl.
    + intros [= <-]. rewrite sum_counts_bump.
      unfold count_of. by rewrite (Htot _ _ Hm).
    + apply Htot.
  - intros tok'. rewrite elem_of_union, elem_of_singleton, Hvoc. split.
    + intros [->|(l & m' & Hm' & Hin)].
      * exists label, (<[tok := count_of m tok + 1]> m).
        rewrite lookup_insert_eq. split; [done|]. rewrite dom_insert_L. set_solver.
      * destruct (decide (label = l)) as [<-|Hne].
        -- exists label, (<[tok := count_of m tok + 1]> m).
           rewrite lookup_insert_eq. split; [done|].
           rewrite dom_insert_L. simplify_eq. set_solver.
        -- exists l, m'. by rewrite lookup_insert_ne.
    + intros (l & m' & Hm' & Hin). revert Hm'. rewrite lookup_insert.
      case_decide as Hl.
      * intros [= <-]. rewrite dom_insert_L in Hin.
        apply elem_of_union in Hin as [Hin|Hin]; [left; set_solver|].
        right. by exists label, m.
      * intros Hm'. right. by exists l, m'.
Qed.

Lemma add_token_wordCounts label st tok l :
  is_Some (wordCounts st !! l) → is_Some (wordCounts (add_token label st tok) !! l).
Proof.
  intros Hl. unfold add_token. simpl. rewrite lookup_insert. by case_decide.
Qed.

Lemma add_token_le label st tok :
  is_Some (wordCounts st !! label) → model_le st (add_token label st tok).
Proof.
  intros [m Hm]. unfold add_token. rewrite Hm. simpl.
  split; [|split; [|split]]; simpl.
  - done.
  - intros l m' Hm'. rewrite lookup_insert. case_decide as Hl.
    + subst l. simplify_eq. eexists. split; [done|].
      rewrite dom_insert_L. split; [set_solver|].
      intros tok'. rewrite count_of_insert. case_decide; [subst; lia | done].
    + exists m'. auto.
  - intros l. rewrite count_of_insert. case_decide; [subst; lia | done].
  - set_solver.
Qed.

Lemma add_tokens_spec label toks : ∀ st,
  is_Some (wordCounts st !! label) → counts_consistent st →
  let st' := foldl (add_token label) st toks in
  is_Some (wordCounts st' !! label) ∧ counts_consistent st' ∧ model_le st st'.
Proof.
  induction toks as [|tok toks IH]; intros st Hl Hc; simpl.
  - split; [done|]. split; [done|]. apply model_le_refl.
  - destruct (IH (add_token label st tok)) as (H1 & H2 & H3).
    + by apply add_token_wordCounts.
    + by apply add_token_consistent.
    + split; [done|]. split; [done|].
      eapply model_le_trans; [by apply add_token_le | done].
Qed.

Lemma trainOne_spec label text st :
  counts_consistent st →
  counts_consistent (trainOne label text st) ∧ model_le st (trainOne label text st).
Proof.
  intros Hc. unfold trainOne.
  destruct (wordCounts st !! label) as [m|] eqn:Hm; [|split; [done | apply model_le_refl]].
  set (st1 := Model _ _ _ _ _).
  assert (Hc1 : counts_consistent st1) by (destruct Hc; by split).
  assert (Hle1 : model_le st st1).
  { split; [|split; [|split]]; simpl; try done.
    - intros l. rewrite count_of_insert. case_decide; [subst; lia | done].
    - intros l m' Hm'. exists m'. auto. }
  destruct (add_tokens_spec label (Text.tokenize text) st1) as (_ & H2 & H3);
    [by (simpl; rewrite Hm) | done |].
  split; [done|]. by eapply model_le_trans.
Qed.

Lemma trainBatch_consistent samples : ∀ st,
  counts_consistent st → counts_consistent (trainBatch samples st).
Proof.
  unfold trainBatch.
  induction samples as [|s samples IH]; intros st Hc; simpl; [done|].
  apply IH. by apply trainOne_spec.
Qed.

(** C8. Starting from a freshly created classifier, after any sequence of
    [trainOne] calls the state is consistent: for each label the stored
    total token count is the sum of the values of that label's token-count
    map, and the vocabulary is the union of the labels' token keys.  A
    further [trainOne] call only grows the state: no document count, token
    count or total shrinks, no token key and no vocabulary entry goes away. *)
Theorem trainOne_keeps_counts_consistent :
  ∀ (ls : list string) (calls : list sample),
    let st := trainBatch calls (createNaiveBayesModel ls) in
    counts_consistent st ∧
    ∀ label text, model_le st (trainOne label text st).
Proof.
  intros ls calls st.
  assert (Hc : counts_consistent st).
  { apply trainBatch_consistent, blank_consistent, createNaiveBayesModel_blank. }
  split; [done|]. intros label text. by apply trainOne_spec.
Qed.

End classifier_state.

(** ** JavaScript maps *)

Section jsmap_facts.

Context {V : Type}.
Implicit Types (m : jsmap V) (k : string) (v : V).

Lemma get_set_eq m k v : JsMap.get (JsMap.set m k v) k = Some v.
Proof.
  induction m as [|[k' v'] m IH]; simpl.
  - by rewrite String.eqb_refl.
  - destruct (String.eqb k' k) eqn:E; simpl; rewrite E; [done | apply IH].
Qed.

Lemma get_set_ne m k k' v : k ≠ k' → JsMap.get (JsMap.set m k v) k' = JsMap.get m k'.
Proof.
  intros Hne. induction m as [|[k0 v0] m IH]; simpl.
  - destruct (String.eqb_spec k k'); [done | done].
  - destruct (String.eqb_spec k0 k) as [->|Hk]; simpl.
    + by destruct (String.eqb_spec k k').
    + rewrite IH. done.
Qed.

Lemma get_set m k k' v :
  JsMap.get (JsMap.set m k v) k' = if decide (k = k') then Some v else JsMap.get m k'.
Proof.
  case_decide as Hk; [subst; apply get_set_eq | by apply get_set_ne].
Qed.

Lemma keys_set_in m k v : k ∈ JsMap.keys m → JsMap.keys (JsMap.set m k v) = JsMap.keys m.
Proof.
  unfold JsMap.keys. induction m as [|[k' v'] m IH]; simpl; intros Hin.
  - by apply elem_of_nil in Hin.
  - destruct (String.eqb_spec k' k) as [->|Hk]; simpl; [done|].
    f_equal. apply IH. apply elem_of_cons in Hin as [?|?]; [congruence | done].
Qed.

Lemma keys_set_notin m k v :
  k ∉ JsMap.keys m → JsMap.keys (JsMap.set m k v) = JsMap.keys m ++ [k].
Proof.
  unfold JsMap.keys. induction m as [|[k' v'] m IH]; simpl; intros Hin; [done|].
  apply not_elem_of_cons in Hin as [Hne Hin].
  destruct (String.eqb_spec k' k) as [->|Hk]; simpl; [done|].
  f_equal. by apply IH.
Qed.

Lemma get_is_Some m k : is_Some (JsMap.get m k) ↔ k ∈ JsMap.keys m.
Proof.
  unfold JsMap.keys. induction m as [|[k' v'] m IH]; simpl.
  - split; [by intros [? ?] | by intros ?%elem_of_nil].
  - destruct (String.eqb_spec k' k) as [->|Hk].
    + split; [intros _; apply elem_of_cons; by left | by eauto].
    + rewrite IH, elem_of_cons. naive_solver.
Qed.

(** a map filled by one [set] per element of a list *)
Lemma get_fill (f : string → V) ls : ∀ m k,
  JsMap.get (foldl (fun m l => JsMap.set m l (f l)) m ls) k =
  if decide (k ∈ ls) then Some (f k) else JsMap.get m k.
Proof.
  induction ls as [|l ls IH]; intros m k; cbn [foldl].
  - rewrite decide_False; [done | apply not_elem_of_nil].
  - rewrite IH. destruct (decide (k ∈ ls)) as [Hin|Hin].
    + rewrite decide_True; [done | by apply elem_of_cons; right].
    + rewrite get_set. destruct (decide (l = k)) as [->|Hne].
      * rewrite decide_True; [done | by apply elem_of_cons; left].
      * rewrite decide_False; [done|].
        intros [?|?]%elem_of_cons; congruence.
Qed.

Lemma keys_fill (f : string → V) ls : ∀ m,
  NoDup ls → (∀ l, l ∈ ls → l ∉ JsMap.keys m) →
  JsMap.keys (foldl (fun m l => JsMap.set m l (f l)) m ls) = JsMap.keys m ++ ls.
Proof.
  induction ls as [|l ls IH]; intros m Hnd Hfresh; simpl.
  - by rewrite app_nil_r.
  - apply NoDup_cons in Hnd as [Hl Hnd].
    rewrite IH; [|done|].
    + rewrite keys_set_notin; [by rewrite <- app_assoc|].
      apply Hfresh. by apply elem_of_cons; left.
    + intros l' Hl'. rewrite keys_set_notin.
      * rewrite elem_of_app, list_elem_of_singleton.
        intros [Hin| ->]; [|done].
        revert Hin. apply Hfresh. by apply elem_of_cons; right.
      * apply Hfresh. by apply elem_of_cons; left.
Qed.

End jsmap_facts.

(** ** Prediction *)

Section prediction.

Local Open Scope R_scope.

Lemma rdiv_counts (a b : nat) :
  b ≠ 0%nat → rdiv (of_nat a) (of_nat b) = Fin (INR a / INR b).
Proof.
  intros Hb. unfold rdiv, of_nat.
  destruct (Req_dec_T (INR b) 0) as [Hz|Hz]; [|done].
  exfalso. by apply Hb, INR_eq.
Qed.

Lemma ratio_pos (a b : nat) : a ≠ 0%nat → b ≠ 0%nat → 0 < INR a / INR b.
Proof.
  intros Ha Hb. apply Rdiv_lt_0_compat; apply lt_0_INR; lia.
Qed.

Lemma Math_log_ratio (a b : nat) :
  a ≠ 0%nat → b ≠ 0%nat →
  Math_log (rdiv (of_nat a) (of_nat b)) = Fin (ln (INR a / INR b)).
Proof.
  intros Ha Hb. rewrite rdiv_counts by done. unfold Math_log.
  destruct (Rlt_dec 0 (INR a / INR b)) as [|Hn]; [done|].
  exfalso. apply Hn. by apply ratio_pos.
Qed.

Lemma totalDocs_max st :
  totalDocs st = Nat.max 1 (sum_list (map (count_of (docCounts st)) (labels st))).
Proof.
  unfold totalDocs.
  assert (Hfold : ∀ ls n, foldl (fun sum l => (sum + count_of (docCounts st) l)%nat) n ls
                          = (n + sum_list (map (count_of (docCounts st)) ls))%nat).
  { induction ls as [|l ls IH]; intros n; simpl; [lia|]. rewrite IH. lia. }
  rewrite Hfold. simpl.
  destruct (Nat.eqb_spec (sum_list (map (count_of (docCounts st)) (labels st))) 0); lia.
Qed.

Lemma vocabSize_max st : vocabSize st = Nat.max 1 (size (vocab st)).
Proof.
  unfold vocabSize. destruct (Nat.eqb_spec (size (vocab st)) 0); lia.
Qed.

(** the token loop of [predict] adds one finite term per token *)
Lemma score_loop (c : string → nat) (denom : nat) tokens : ∀ a : R,
  denom ≠ 0%nat →
  foldl (fun score tok =>
           radd score (Math_log (rdiv (of_nat (c tok + 1)) (of_nat denom))))
        (Fin a) tokens
  = Fin (a + Rsum (map (fun tok => ln (INR (c tok + 1) / INR denom)) tokens)).
Proof.
  induction tokens as [|tok tokens IH]; intros a Hd; cbn [foldl map Rsum foldr].
  - f_equal. lra.
  - rewrite Math_log_ratio by lia. cbn [radd]. rewrite IH by done.
    f_equal. unfold Rsum. lra.
Qed.

(** every label's score is the finite log-score of the specification, in
    whatever state the model is *)
Lemma label_score_finite st tokens label :
  label_score st tokens label
  = Fin (log_score st (default ∅ (wordCounts st !! label)) tokens label).
Proof.
  unfold label_score, log_score.
  rewrite Math_log_ratio; [|lia|].
  - rewrite score_loop; [|rewrite vocabSize_max; lia].
    by rewrite totalDocs_max, vocabSize_max.
  - rewrite totalDocs_max. lia.
Qed.

Lemma trainOne_labels label text st : labels (trainOne label text st) = labels st.
Proof.
  unfold trainOne. destruct (wordCounts st !! label); [|done].
  set (st1 := Model _ _ _ _ _). change (labels st) with (labels st1).
  generalize st1. induction (Text.tokenize text) as [|tok toks IH]; intros st'; [done|].
  simpl. by rewrite IH.
Qed.

Lemma trainOne_wordCounts label text st l :
  is_Some (wordCounts st !! l) → is_Some (wordCounts (trainOne label text st) !! l).
Proof.
  intros Hl. unfold trainOne. destruct (wordCounts st !! label); [|done].
  set (st1 := Model _ _ _ _ _).
  assert (H1 : is_Some (wordCounts st1 !! l)) by done.
  revert H1. generalize st1.
  induction (Text.tokenize text) as [|tok toks IH]; intros st' H1; [done|].
  simpl. apply IH. by apply add_token_wordCounts.
Qed.

Lemma trainBatch_labels samples : ∀ st, labels (trainBatch samples st) = labels st.
Proof.
  unfold trainBatch. induction samples as [|s samples IH]; intros st; simpl; [done|].
  by rewrite IH, trainOne_labels.
Qed.

Lemma trainBatch_wordCounts samples l : ∀ st,
  is_Some (wordCounts st !! l) → is_Some (wordCounts (trainBatch samples st) !! l).
Proof.
  unfold trainBatch. induction samples as [|s samples IH]; intros st Hl; simpl; [done|].
  by apply IH, trainOne_wordCounts.
Qed.

Lemma GENRE_LABELS_NoDup : NoDup GENRE_LABELS.
Proof. apply (bool_decide_unpack _). by vm_compute. Qed.

Lemma predict_get st text label :
  label ∈ labels st →
  JsMap.get (predict st text) label = Some (label_score st (Text.tokenize text) label).
Proof.
  intros Hin. unfold predict.
  rewrite (get_fill (label_score st (Text.tokenize text))). by rewrite decide_True.
Qed.

(** C4. In every state the classifier can be in (the six labels, any
    training history), and for every text, [predict] returns a score for
    exactly the six labels, and each label's score is the finite number
    given by the Laplace-smoothed formula of the specification over the
    tokens of the text, with the vocabulary size and the document total
    taken as at least 1. *)
Theorem predict_is_smoothed_log_score :
  ∀ (history : list sample) (text : string),
    let st := trainBatch history (createNaiveBayesModel GENRE_LABELS) in
    JsMap.keys (predict st text) = GENRE_LABELS ∧
    Forall (fun label =>
              ∃ m, wordCounts st !! label = Some m ∧
                   JsMap.get (predict st text) label
                   = Some (Fin (log_score st m (Text.tokenize text) label)))
           GENRE_LABELS.
Proof.
  intros history text st.
  assert (Hls : labels st = GENRE_LABELS).
  { unfold st. by rewrite trainBatch_labels, createNaiveBayesModel_labels. }
  split.
  - unfold predict. rewrite Hls, (keys_fill (label_score st (Text.tokenize text))).
    + done.
    + apply GENRE_LABELS_NoDup.
    + intros l _. apply not_elem_of_nil.
  - apply Forall_forall. intros label Hin.
    destruct (trainBatch_wordCounts history label (createNaiveBayesModel GENRE_LABELS))
      as [m Hm]; [by apply createNaiveBayesModel_wordCounts|].
    exists m. split; [done|].
    rewrite predict_get by (by rewrite Hls).
    rewrite label_score_finite. subst st. by rewrite Hm.
Qed.

End prediction.

(** ** Maps filled in key order *)

Section jsmap_fill.

Context {V : Type}.
Implicit Types (m : jsmap V) (k : string).

Lemma set_fresh m k (v : V) : k ∉ JsMap.keys m → JsMap.set m k v = m ++ [(k, v)].
Proof.
  unfold JsMap.keys. induction m as [|[k' v'] m IH]; simpl; intros Hk; [done|].
  apply not_elem_of_cons in Hk as [Hne Hk].
  destruct (String.eqb_spec k' k) as [->|_]; [done|]. by rewrite IH.
Qed.

Lemma keys_app m1 m2 : JsMap.keys (m1 ++ m2) = JsMap.keys m1 ++ JsMap.keys m2.
Proof. apply map_app. Qed.

(** filling a map with distinct fresh keys appends them in order *)
Lemma fill_fresh (f : string → V) ls : ∀ m,
  NoDup ls → (∀ l, l ∈ ls → l ∉ JsMap.keys m) →
  foldl (fun m l => JsMap.set m l (f l)) m ls = m ++ map (fun l => (l, f l)) ls.
Proof.
  induction ls as [|l ls IH]; intros m Hnd Hfresh; simpl.
  - by rewrite app_nil_r.
  - apply NoDup_cons in Hnd as [Hl Hnd].
    rewrite set_fresh by (apply Hfresh; by apply elem_of_cons; left).
    rewrite IH; [by rewrite <- app_assoc | done |].
    intros l' Hl'. rewrite keys_app, elem_of_app. simpl.
    rewrite list_elem_of_singleton. intros [Hin| ->]; [|done].
    revert Hin. apply Hfresh. by apply elem_of_cons; right.
Qed.

Lemma fill_labels (f : string → V) ls :
  NoDup ls →
  foldl (fun m l => JsMap.set m l (f l)) [] ls = map (fun l => (l, f l)) ls.
Proof.
  intros Hnd. rewrite fill_fresh; [done | done |].
  intros l _. apply not_elem_of_nil.
Qed.

Lemma keys_tabulated (f : string → V) ls : JsMap.keys (map (fun l => (l, f l)) ls) = ls.
Proof. unfold JsMap.keys. rewrite map_map. simpl. apply map_id. Qed.

Lemma values_tabulated (f : string → V) ls :
  JsMap.values (map (fun l => (l, f l)) ls) = map f ls.
Proof. unfold JsMap.values. by rewrite map_map. Qed.

Lemma get_tabulated (f : string → V) ls k :
  k ∈ ls → JsMap.get (map (fun l => (l, f l)) ls) k = Some (f k).
Proof.
  induction ls as [|l ls IH]; intros Hin; [by apply elem_of_nil in Hin|].
  simpl. destruct (String.eqb_spec l k) as [->|Hne]; [done|].
  apply IH. apply elem_of_cons in Hin as [?|?]; [congruence | done].
Qed.

End jsmap_fill.

(** ** Softmax *)

Section softmax.

Local Open Scope R_scope.

Lemma Rsum_pos (e : string → R) ls :
  (∀ l, 0 < e l) → ls ≠ [] → 0 < Rsum (map e ls).
Proof.
  intros He. induction ls as [|l ls IH]; [done|]. intros _. simpl.
  destruct ls as [|l' ls]; [simpl; specialize (He l); lra|].
  specialize (IH ltac:(done)). specialize (He l). simpl in *. lra.
Qed.

Lemma Rsum_scale (e : string → R) (c : R) ls :
  Rsum (map (fun l => e l / c) ls) = Rsum (map e ls) / c.
Proof.
  induction ls as [|l ls IH]; simpl; [lra|]. unfold Rsum in *. rewrite IH. lra.
Qed.

Lemma Rsum_plus (a b : string → R) ls :
  Rsum (map (fun l => a l + b l) ls) = Rsum (map a ls) + Rsum (map b ls).
Proof.
  induction ls as [|l ls IH]; simpl; [lra|]. unfold Rsum in *. rewrite IH. lra.
Qed.



(** the running maximum is a finite number once a finite score was seen *)
Lemma softmax_max_finite (s : string → R) ls :
  ls ≠ [] → ∃ M, softmax_max (map (fun l => (l, Fin (s l))) ls) = Fin M.
Proof.
  unfold softmax_max. rewrite values_tabulated.
  destruct ls as [|l ls]; [done|]. intros _. simpl.
  generalize (s l). induction ls as [|l' ls IH]; intros a; simpl; [by exists a|].
  destruct (Rlt_dec a (s l')); apply IH.
Qed.

Lemma softmax_exps_tabulated (s : string → R) (M : R) ls : ∀ exps a,
  NoDup ls → (∀ l, l ∈ ls → l ∉ JsMap.keys exps) →
  foldl (fun '(exps, sum) '(k, v) =>
           let e := Math_exp (rsub v (Fin M)) in
           (JsMap.set exps k e, radd sum e))
        (exps, Fin a) (map (fun l => (l, Fin (s l))) ls)
  = (exps ++ map (fun l => (l, Fin (exp (s l - M)))) ls,
     Fin (a + Rsum (map (fun l => exp (s l - M)) ls))).
Proof.
  induction ls as [|l ls IH]; intros exps a Hnd Hfresh; simpl.
  - rewrite app_nil_r. f_equal. f_equal. lra.
  - apply NoDup_cons in Hnd as [Hl Hnd].
    rewrite set_fresh by (apply Hfresh; by apply elem_of_cons; left).
    rewrite IH; [|done|].
    + rewrite <- app_assoc. simpl. f_equal. f_equal. unfold Rsum. lra.
    + intros l' Hl'. rewrite keys_app, elem_of_app. simpl.
      rewrite list_elem_of_singleton. intros [Hin| ->]; [|done].
      revert Hin. apply Hfresh. by apply elem_of_cons; right.
Qed.

Lemma softmax_probs_tabulated (e : string → R) (S : R) ls : ∀ probs,
  S ≠ 0 → NoDup ls → (∀ l, l ∈ ls → l ∉ JsMap.keys probs) →
  foldl (fun probs '(k, e) => JsMap.set probs k (rdiv e (ror (Fin S) (Fin 1))))
        probs (map (fun l => (l, Fin (e l))) ls)
  = probs ++ map (fun l => (l, Fin (e l / S))) ls.
Proof.
  intros probs HS. revert probs.
  assert (Hdiv : ∀ x, rdiv (Fin x) (ror (Fin S) (Fin 1)) = Fin (x / S)).
  { intros x. unfold ror, rtruthy, rdiv.
    destruct (Req_dec_T S 0); [done|]. by destruct (Req_dec_T S 0). }
  induction ls as [|l ls IH]; intros probs Hnd Hfresh; cbn [map foldl].
  - by rewrite app_nil_r.
  - apply NoDup_cons in Hnd as [Hl Hnd]. rewrite Hdiv.
    rewrite set_fresh by (apply Hfresh; by apply elem_of_cons; left).
    rewrite IH; [|done|].
    + by rewrite <- app_assoc.
    + intros l' Hl'. rewrite keys_app, elem_of_app. simpl.
      rewrite list_elem_of_singleton. intros [Hin| ->]; [|done].
      revert Hin. apply Hfresh. by apply elem_of_cons; right.
Qed.

(** over finite scores for distinct labels, the softmax is a table of
    positive probabilities that sum to one *)
Lemma softmax_tabulated (s : string → R) ls :
  NoDup ls → ls ≠ [] →
  ∃ p : string → R,
    softmaxFromLogScores (map (fun l => (l, Fin (s l))) ls)
    = map (fun l => (l, Fin (p l))) ls ∧
    (∀ l, 0 < p l) ∧ Rsum (map p ls) = 1.
Proof.
  intros Hnd Hne.
  destruct (softmax_max_finite s ls Hne) as [M HM].
  set (e := fun l => exp (s l - M)).
  set (S := Rsum (map e ls)).
  assert (He : ∀ l, 0 < e l) by (intros l; apply exp_pos).
  assert (HS : 0 < S) by (by apply Rsum_pos).
  exists (fun l => e l / S). split; [|split].
  - assert (Hexps : softmax_exps (map (fun l => (l, Fin (s l))) ls)
                    = (map (fun l => (l, Fin (e l))) ls, Fin S)).
    { unfold softmax_exps. rewrite HM.
      etrans; [apply (softmax_exps_tabulated s M ls [] 0 Hnd);
               intros l _; apply not_elem_of_nil|].
      simpl. fold e. fold S. by rewrite Rplus_0_l. }
    unfold softmaxFromLogScores. rewrite Hexps.
    rewrite (softmax_probs_tabulated e S ls []); [done | lra | done |].
    intros l _. apply not_elem_of_nil.
  - intros l. apply Rdiv_lt_0_compat; [apply He | done].
  - rewrite Rsum_scale. fold S. field. lra.
Qed.

End softmax.

(** ** Priors *)

Section priors.

Local Open Scope Q_scope.

Lemma holds_priors_ext p f g :
  holds_priors p f → (∀ l, f l == g l) → holds_priors p g.
Proof.
  intros (f' & -> & Hf) Hfg. exists f'. split; [done|].
  intros l. by rewrite Hf, Hfg.
Qed.

Lemma set_table {F} (f : string → F) g (v : F) :
  g ∈ GENRE_LABELS →
  JsMap.set (table f) g (Fin v) = table (fun l => if decide (l = g) then v else f l).
Proof.
  unfold table. pose proof GENRE_LABELS_NoDup as Hnd. revert Hnd.
  induction GENRE_LABELS as [|l ls IH]; intros Hnd Hin; [by apply elem_of_nil in Hin|].
  apply NoDup_cons in Hnd as [Hl Hnd]. simpl.
  destruct (String.eqb_spec l g) as [->|Hne].
  - rewrite decide_True by done. f_equal.
    apply map_ext_in. intros l' Hl'%list_elem_of_In.
    rewrite decide_False; [done | by intros ->].
  - rewrite decide_False by done. f_equal. apply IH; [done|].
    apply elem_of_cons in Hin as [?|?]; [congruence | done].
Qed.

Lemma get_table {F} (f : string → F) g :
  g ∈ GENRE_LABELS → JsMap.get (table f) g = Some (Fin (f g)).
Proof. intros Hin. unfold table. by rewrite (get_tabulated (fun l => Fin (f l))). Qed.

Lemma bump_holds p f g w :
  g ∈ GENRE_LABELS → holds_priors p f →
  holds_priors (bump p g (Fin w)) (fun l => if decide (l = g) then f l + w else f l).
Proof.
  intros Hin (f' & -> & Hf). unfold bump. rewrite get_table by done.
  change (qadd (default NaN (Some (Fin (f' g)))) (Fin w)) with (Fin (f' g + w)).
  rewrite set_table by done. eexists. split; [done|].
  intros l. simpl. case_decide; [subst l; by rewrite Hf | apply Hf].
Qed.

Lemma initial_priors_hold :
  holds_priors (foldl (fun p g => JsMap.set p g (Fin 0)) [] GENRE_LABELS) (fun _ => 0).
Proof.
  exists (fun _ => 0). split; [|done].
  rewrite (fill_labels (fun _ => Fin 0)); [done | apply GENRE_LABELS_NoDup].
Qed.

Lemma label_cases (P : string → Prop) :
  P "Sci-Fi"%string → P "Action"%string → P "Thriller"%string → P "Drama"%string →
  P "Mystery"%string → P "Romance"%string →
  ∀ l, l ∈ GENRE_LABELS → P l.
Proof.
  intros H1 H2 H3 H4 H5 H6 l Hin. unfold GENRE_LABELS in Hin.
  repeat (apply elem_of_cons in Hin as [->|Hin]; [done|]).
  by apply elem_of_nil in Hin.
Qed.

Lemma label_in_GENRE_LABELS (l : string) :
  bool_decide (l ∈ GENRE_LABELS) = true → l ∈ GENRE_LABELS.
Proof. apply bool_decide_eq_true_1. Qed.

(** the four heuristic rules leave the priors of the specification *)
Lemma heuristic_priors_hold bio location :
  holds_priors (fst (heuristic_priors bio location)) (heuristic_prior bio location).
Proof.
  unfold heuristic_priors.
  pose proof initial_priors_hold as H0.
  set (p0 := foldl _ _ _) in *.
  assert (HD : ("Drama" : string) ∈ GENRE_LABELS) by (by apply label_in_GENRE_LABELS).
  assert (HT : ("Thriller" : string) ∈ GENRE_LABELS) by (by apply label_in_GENRE_LABELS).
  assert (HA : ("Action" : string) ∈ GENRE_LABELS) by (by apply label_in_GENRE_LABELS).
  assert (HS : ("Sci-Fi" : string) ∈ GENRE_LABELS) by (by apply label_in_GENRE_LABELS).
  pose proof (bump_holds p0 _ "Drama" (7 # 10) HD H0) as H1.
  assert (H1' : holds_priors (if no_bio bio then bump p0 "Drama" (Fin (7 # 10)) else p0)
                  (fun l => if bool_decide (l = "Drama"%string) && no_bio bio
                            then 7 # 10 else 0)).
  { destruct (no_bio bio).
    - eapply holds_priors_ext; [apply H1|]. intros l. simpl.
      case_decide; [rewrite bool_decide_eq_true_2 by done | rewrite bool_decide_eq_false_2 by done];
        simpl; ring.
    - eapply holds_priors_ext; [apply H0|]. intros l. simpl.
      by rewrite andb_false_r. }
  set (p1 := if no_bio bio then _ else p0) in *.
  pose proof (bump_holds p1 _ "Thriller" (9 # 10) HT H1') as H2.
  assert (H2' : holds_priors (if name_only_bio bio then bump p1 "Thriller" (Fin (9 # 10)) else p1)
                  (fun l => (if bool_decide (l = "Drama"%string) && no_bio bio
                             then 7 # 10 else 0)
                            + (if bool_decide (l = "Thriller"%string) && name_only_bio bio
                               then 9 # 10 else 0))).
  { destruct (name_only_bio bio).
    - eapply holds_priors_ext; [apply H2|]. intros l. simpl.
      case_decide; [rewrite (bool_decide_eq_true_2 (l = "Thriller"%string)) by done
                   | rewrite (bool_decide_eq_false_2 (l = "Thriller"%string)) by done];
        simpl; ring.
    - eapply holds_priors_ext; [apply H1'|]. intros l. simpl.
      rewrite andb_false_r. ring. }
  set (p2 := if name_only_bio bio then _ else p1) in *.
  pose proof (bump_holds p2 _ "Action" (35 # 100) HA H2') as H3.
  assert (H3' : holds_priors (if nyc_location location
                              then bump p2 "Action" (Fin (35 # 100)) else p2)
                  (fun l => (if bool_decide (l = "Drama"%string) && no_bio bio
                             then 7 # 10 else 0)
                            + (if bool_decide (l = "Thriller"%string) && name_only_bio bio
                               then 9 # 10 else 0)
                            + (if bool_decide (l = "Action"%string) && nyc_location location
                               then 35 # 100 else 0))).
  { destruct (nyc_location location).
    - eapply holds_priors_ext; [apply H3|]. intros l. simpl.
      case_decide; [rewrite (bool_decide_eq_true_2 (l = "Action"%string)) by done
                   | rewrite (bool_decide_eq_false_2 (l = "Action"%string)) by done];
        simpl; ring.
    - eapply holds_priors_ext; [apply H2'|]. intros l. simpl.
      rewrite andb_false_r. ring. }
  set (p3 := if nyc_location location then _ else p2) in *.
  pose proof (bump_holds p3 _ "Sci-Fi" (35 # 100) HS H3') as H4.
  assert (Hfst : ∀ (c : bool) (a b : jsmap (num Q)) (x y : list note),
             fst (if c then (a, x) else (b, y)) = if c then a else b)
    by (by intros []).
  replace (fst _) with (if tech_hub_location location
                        then bump p3 "Sci-Fi" (Fin (35 # 100)) else p3).
  2:{ subst p3 p2 p1.
      destruct (no_bio bio), (name_only_bio bio), (nyc_location location),
        (tech_hub_location location); reflexivity. }
  unfold heuristic_prior.
  destruct (tech_hub_location location).
  - eapply holds_priors_ext; [apply H4|]. intros l. simpl.
    case_decide; [rewrite (bool_decide_eq_true_2 (l = "Sci-Fi"%string)) by done
                 | rewrite (bool_decide_eq_false_2 (l = "Sci-Fi"%string)) by done];
      simpl; ring.
  - eapply holds_priors_ext; [apply H3'|]. intros l. simpl.
    rewrite andb_false_r. ring.
Qed.

(** the bias loop adds each label's effective bias *)
Lemma apply_bias_holds p f userBias :
  holds_priors p f →
  holds_priors (apply_bias p userBias)
    (fun l => f l + (if bool_decide (l ∈ GENRE_LABELS) then bias_effect userBias l else 0)).
Proof.
  unfold apply_bias.
  assert (Hgen : ∀ ls p f, NoDup ls → (∀ l, l ∈ ls → l ∈ GENRE_LABELS) →
            holds_priors p f →
            holds_priors
              (foldl (fun p g =>
                        let v := bias_value userBias g in
                        if isFinite v && qtruthy v then bump p g v else p) p ls)
              (fun l => f l + (if bool_decide (l ∈ ls) then bias_effect userBias l else 0))).
  { clear p f. induction ls as [|g ls IH]; intros p f Hnd Hsub Hp; cbn [foldl].
    - eapply holds_priors_ext; [apply Hp|]. intros l. simpl. ring.
    - apply NoDup_cons in Hnd as [Hg Hnd].
      assert (Hg' : g ∈ GENRE_LABELS) by (apply Hsub; by apply elem_of_cons; left).
      assert (Hstep : holds_priors
                (let v := bias_value userBias g in
                 if isFinite v && qtruthy v then bump p g v else p)
                (fun l => if decide (l = g) then f l + bias_effect userBias g else f l)).
      { unfold bias_effect. cbv zeta. destruct (bias_value userBias g) as [v| | |] eqn:Hv; simpl.
        - unfold Qeqb. destruct (Qeq_bool v 0) eqn:Hz; simpl.
          + apply Qeq_bool_eq in Hz.
            eapply holds_priors_ext; [apply Hp|]. intros l. simpl.
            case_decide; [rewrite Hz; ring | done].
          + by apply bump_holds.
        - eapply holds_priors_ext; [apply Hp|]. intros l. simpl. case_decide; [ring | done].
        - eapply holds_priors_ext; [apply Hp|]. intros l. simpl. case_decide; [ring | done].
        - eapply holds_priors_ext; [apply Hp|]. intros l. simpl. case_decide; [ring | done]. }
      eapply holds_priors_ext.
      + eapply IH; [done | | apply Hstep].
        intros l Hl. apply Hsub. by apply elem_of_cons; right.
      + intros l. simpl. destruct (decide (l = g)) as [->|Hne].
        * rewrite (bool_decide_eq_false_2 (g ∈ ls)) by done.
          rewrite (bool_decide_eq_true_2 (g ∈ g :: ls)) by (by apply elem_of_cons; left).
          ring.
        * destruct (decide (l ∈ ls)) as [Hin|Hin].
          -- rewrite (bool_decide_eq_true_2 (l ∈ ls)) by done.
             by rewrite (bool_decide_eq_true_2 (l ∈ g :: ls)) by (by apply elem_of_cons; right).
          -- rewrite (bool_decide_eq_false_2 (l ∈ ls)) by done.
             rewrite (bool_decide_eq_false_2 (l ∈ g :: ls)); [done|].
             by intros [?|?]%elem_of_cons. }
  intros Hp. apply Hgen; [apply GENRE_LABELS_NoDup | done | done].
Qed.

(** the priors map holds, label by label, the prior of the specification *)
Lemma priors_of_hold bio location userBias :
  ∃ prior : string → Q,
    priors_of bio location userBias = table prior ∧
    ∀ l, l ∈ GENRE_LABELS → prior l == prior_value bio location userBias l.
Proof.
  destruct (apply_bias_holds _ _ userBias (heuristic_priors_hold bio location))
    as (prior & Hp & Heq).
  exists prior. split; [done|]. intros l Hl. rewrite Heq. unfold prior_value.
  by rewrite (bool_decide_eq_true_2 (l ∈ GENRE_LABELS)) by done.
Qed.

End priors.

(** ** The decision *)

Section decision.

Local Open Scope R_scope.

Lemma ror_zero x : ror (Fin x) (Fin 0) = Fin x.
Proof.
  unfold ror, rtruthy. destruct (Req_dec_T x 0) as [->|]; done.
Qed.

Lemma to_real_qor q : to_real (qor (Fin q) (Fin 0%Q)) = Fin (Q2R q).
Proof.
  unfold qor, qtruthy, Qeqb. destruct (Qeq_bool q 0) eqn:Hz; simpl; [|done].
  unfold of_Q. f_equal. apply Qeq_eqR. symmetry. by apply Qeq_bool_eq.
Qed.

Lemma foldl_radd (c : string → R) ls : ∀ a,
  foldl radd (Fin a) (map (fun l => Fin (c l)) ls) = Fin (a + Rsum (map c ls)).
Proof.
  induction ls as [|l ls IH]; intros a; simpl.
  - f_equal. lra.
  - rewrite IH. f_equal. unfold Rsum. lra.
Qed.

Lemma total_of_table (c : string → R) :
  total_of (table c)
  = Fin (if Req_dec_T (Rsum (map c GENRE_LABELS)) 0 then 1 else Rsum (map c GENRE_LABELS)).
Proof.
  unfold total_of, table. rewrite (values_tabulated (fun l => Fin (c l))).
  rewrite foldl_radd, Rplus_0_l. unfold ror, rtruthy.
  by destruct (Req_dec_T _ 0).
Qed.

Lemma confidence_of_table (c : string → R) g :
  g ∈ GENRE_LABELS →
  confidence_of (table c) g = Fin (amended_confidence c g).
Proof.
  intros Hg. unfold confidence_of, amended_confidence.
  rewrite total_of_table, get_table by done.
  change (default NaN (Some (Fin (c g)))) with (Fin (c g)). rewrite ror_zero.
  unfold rdiv. cbv zeta.
  destruct (Req_dec_T (Rsum (map c GENRE_LABELS)) 0) as [Hz|Hz].
  - destruct (Req_dec_T 1 0); [lra | done].
  - by destruct (Req_dec_T (Rsum (map c GENRE_LABELS)) 0).
Qed.

(** the winner loop returns the first position of the largest score *)
Lemma winner_loop (c : string → R) (combined : jsmap (num R)) (g0 : string) ps :
  (∀ g, g ∈ ps → JsMap.get combined g = Some (Fin (c g))) → ps ≠ [] →
  ∃ i g,
    foldl (fun '(bestGenre, bestScore) g =>
             let s := default NaN (JsMap.get combined g) in
             if rgt s bestScore then (g, s) else (bestGenre, bestScore))
          (g0, NegInf) ps = (g, Fin (c g)) ∧
    ps !! i = Some g ∧
    Forall (fun l => c l <= c g) ps ∧
    Forall (fun l => c l < c g) (take i ps).
Proof.
  induction ps as [|x ps IH] using rev_ind; [done|]. intros Hget _.
  rewrite foldl_snoc.
  assert (Hx : JsMap.get combined x = Some (Fin (c x))).
  { apply Hget. apply elem_of_app. right. by apply list_elem_of_singleton. }
  destruct ps as [|y ps'].
  - simpl. rewrite Hx. simpl. exists 0%nat, x.
    split; [done|]. split; [done|]. split; [|by constructor].
    constructor; [lra | constructor].
  - destruct IH as (i & g & Hfold & Hi & Hmax & Hfirst); [|done|].
    { intros g Hg. apply Hget. apply elem_of_app. by left. }
    rewrite Hfold, Hx. remember (y :: ps') as qs eqn:Hqs. simpl.
    destruct (Rlt_dec (c g) (c x)) as [Hlt|Hge].
    + exists (length qs), x. split; [done|]. split; [|split].
      * by rewrite lookup_app_r, Nat.sub_diag.
      * apply Forall_app. split; [|constructor; [lra | constructor]].
        eapply Forall_impl; [apply Hmax|]. simpl. intros l Hl. lra.
      * rewrite take_app_length.
        eapply Forall_impl; [apply Hmax|]. simpl. intros l Hl. lra.
    + exists i, g. split; [done|].
      assert (Hlen : (i < length qs)%nat) by (by eapply lookup_lt_Some).
      split; [|split].
      * by rewrite lookup_app_l.
      * apply Forall_app. split; [done|]. constructor; [lra | constructor].
      * by rewrite take_app_le by lia.
Qed.

Lemma choose_winner_first_max (c : string → R) (combined : jsmap (num R)) :
  (∀ g, g ∈ priority → JsMap.get combined g = Some (Fin (c g))) →
  ∃ i g,
    choose_winner combined = (g, Fin (c g)) ∧
    priority !! i = Some g ∧
    Forall (fun l => c l <= c g) priority ∧
    Forall (fun l => c l < c g) (take i priority).
Proof.
  intros Hget. by apply (winner_loop c combined "Sci-Fi" priority Hget).
Qed.

Lemma priority_labels l : l ∈ GENRE_LABELS ↔ l ∈ priority.
Proof.
  unfold GENRE_LABELS, priority. rewrite !elem_of_cons, !elem_of_nil. tauto.
Qed.

(** what [choose_genre_deep] computes, for a model over the six labels *)
Lemma decision_anatomy st bio location userBias :
  labels st = GENRE_LABELS →
  let d := choose_genre_deep st bio location userBias in
  ∃ (prob : string → R) (i : nat),
    probs_of st bio location = table prob ∧
    (∀ l, 0 < prob l) ∧
    Rsum (map prob GENRE_LABELS) = 1 ∧
    let score := fun l => prob l + Q2R (prior_value bio location userBias l) in
    combined_of st bio location userBias = table score ∧
    priority !! i = Some (genre d) ∧
    Forall (fun l => score l <= score (genre d)) GENRE_LABELS ∧
    Forall (fun l => score l < score (genre d)) (take i priority) ∧
    confidence d = Fin (amended_confidence score (genre d)).
Proof.
  intros Hls d.
  assert (Hpred : predict st (joined bio location)
                  = map (fun l => (l, Fin (log_score st (default ∅ (wordCounts st !! l))
                                             (Text.tokenize (joined bio location)) l)))
                        GENRE_LABELS).
  { unfold predict. rewrite Hls.
    rewrite (fill_labels (label_score st _)) by apply GENRE_LABELS_NoDup.
    apply map_ext. intros l. by rewrite label_score_finite. }
  destruct (softmax_tabulated
              (fun l => log_score st (default ∅ (wordCounts st !! l))
                          (Text.tokenize (joined bio location)) l)
              GENRE_LABELS GENRE_LABELS_NoDup ltac:(done)) as (prob & Hprob & Hpos & Hsum).
  destruct (priors_of_hold bio location userBias) as (prior & Hprior & Heq).
  set (score := fun l => prob l + Q2R (prior_value bio location userBias l)).
  assert (Hprobs : probs_of st bio location = table prob).
  { unfold probs_of. by rewrite Hpred, Hprob. }
  assert (Hcomb : combined_of st bio location userBias = table score).
  { unfold combined_of, combine. rewrite Hprobs, Hprior.
    rewrite (fill_labels (fun g => radd _ _)) by apply GENRE_LABELS_NoDup.
    apply (map_ext_in _ (fun l => (l, Fin (score l)))). intros l Hl%list_elem_of_In.
    rewrite !get_table by done.
    change (default NaN (Some ?x)) with x. rewrite ror_zero, to_real_qor.
    unfold score. cbn [radd]. do 3 f_equal. apply Qeq_eqR. by apply Heq. }
  destruct (choose_winner_first_max score (table score))
    as (i & g & Hwin & Hi & Hmax & Hfirst).
  { intros g Hg. apply get_table. by apply priority_labels. }
  assert (Hg : g ∈ GENRE_LABELS).
  { apply priority_labels. by eapply list_elem_of_lookup_2. }
  assert (Hgenre : genre d = g).
  { unfold d, choose_genre_deep. cbv zeta. cbn [genre]. by rewrite Hcomb, Hwin. }
  exists prob, i. split; [done|]. split; [done|]. split; [done|].
  fold score. cbv zeta. rewrite Hgenre.
  split; [done|]. split; [done|]. split; [|split; [done|]].
  - apply Forall_forall. intros l Hl%priority_labels.
    by eapply (proj1 (Forall_forall _ _) Hmax).
  - unfold d, choose_genre_deep. cbv zeta. cbn [confidence]. rewrite Hcomb, Hwin.
    cbn [fst]. by apply confidence_of_table.
Qed.

Lemma reachable_labels history :
  labels (trainBatch history (createNaiveBayesModel GENRE_LABELS)) = GENRE_LABELS.
Proof. by rewrite trainBatch_labels, createNaiveBayesModel_labels. Qed.

(** C6. In every state of the classifier and for every bio, location and
    user bias, the combined score of each label is its softmax probability
    plus its prior; the selected genre has a combined score that no label
    exceeds, and every label standing before it in the priority order
    Sci-Fi, Action, Thriller, Mystery, Drama, Romance has a strictly smaller
    one: among tied maxima the first in that order wins. *)
Theorem winner_is_first_maximum :
  ∀ (history : list sample) (bio location : string) (userBias : gmap string (num Q)),
    let st := trainBatch history (createNaiveBayesModel GENRE_LABELS) in
    let g := genre (choose_genre_deep st bio location userBias) in
    ∃ (prob : string → R) (i : nat),
      probs_of st bio location = table prob ∧
      let score := fun l => prob l + Q2R (prior_value bio location userBias l) in
      combined_of st bio location userBias = table score ∧
      priority !! i = Some g ∧
      Forall (fun l => score l <= score g) GENRE_LABELS ∧
      Forall (fun l => score l < score g) (take i priority).
Proof.
  intros history bio location userBias st g.
  destruct (decision_anatomy st bio location userBias (reachable_labels history))
    as (prob & i & Hp & _ & _ & Hc & Hi & Hmax & Hfirst & _).
  exists prob, i. auto.
Qed.

End decision.

(** ** Confidence *)

Section confidence.

Local Open Scope R_scope.






End confidence.

(** ** Location priors *)

Section location_priors.

Local Open Scope Q_scope.

Lemma toFixed_pos x : 7 # 20 <= x → 0 < toFixed 3 x.
Proof.
  intros Hx. unfold toFixed.
  assert (H0 : 0 <= x) by (eapply Qle_trans; [|exact Hx]; by vm_compute).
  rewrite (proj2 (Qle_bool_iff 0 x) H0). rewrite Qred_correct.
  set (scale := inject_Z (10 ^ Z.of_nat 3)).
  assert (Hmag : (350 <= Qfloor (Qabs x * scale + (1 # 2)))%Z).
  { change 350%Z with (Qfloor ((7 # 20) * scale + (1 # 2))).
    apply Qfloor_resp_le. rewrite (Qabs_pos x H0).
    apply Qplus_le_l. apply Qmult_le_compat_r; [done | by vm_compute]. }
  apply Qlt_shift_div_l; [by vm_compute|].
  rewrite Qmult_0_l. rewrite <- (Zlt_Qlt 0). lia.
Qed.

Lemma action_heuristic bio location :
  heuristic_prior bio location "Action"
  == if nyc_location location then 35 # 100 else 0.
Proof.
  unfold heuristic_prior.
  rewrite (bool_decide_eq_false_2 (("Action" : string) = "Drama"%string)) by done.
  rewrite (bool_decide_eq_false_2 (("Action" : string) = "Thriller"%string)) by done.
  rewrite (bool_decide_eq_false_2 (("Action" : string) = "Sci-Fi"%string)) by done.
  rewrite (bool_decide_eq_true_2 (("Action" : string) = "Action"%string)) by done.
  simpl. destruct (nyc_location location); ring.
Qed.

Lemma scifi_heuristic bio location :
  heuristic_prior bio location "Sci-Fi"
  == if tech_hub_location location then 35 # 100 else 0.
Proof.
  unfold heuristic_prior.
  rewrite (bool_decide_eq_false_2 (("Sci-Fi" : string) = "Drama"%string)) by done.
  rewrite (bool_decide_eq_false_2 (("Sci-Fi" : string) = "Thriller"%string)) by done.
  rewrite (bool_decide_eq_false_2 (("Sci-Fi" : string) = "Action"%string)) by done.
  rewrite (bool_decide_eq_true_2 (("Sci-Fi" : string) = "Sci-Fi"%string)) by done.
  simpl. destruct (tech_hub_location location); ring.
Qed.

(** C3 (amended). There are two location rules.  A location whose
    normalization contains "new york" or "nyc", or is "ny", adds 0.35 to the
    Action prior, once however many of these match; one whose normalization
    contains "san francisco", "bay area" or "seattle" adds 0.35 to the Sci-Fi
    prior, once.  The rules add to the other heuristic priors and to the user
    bias, which goes into the same accumulator; the debug output shows the
    accumulator rounded to three decimals.  So for a New York location the
    Action prior of the debug output is strictly positive when the user's
    Action bias is not negative. *)
Theorem location_rules_add_their_weight_once :
  ∀ (st : model) (bio location : string) (userBias : gmap string (num Q)),
    ∃ prior : string → Q,
      priors_of bio location userBias = table prior ∧
      Forall (fun l => prior l == heuristic_prior bio location l + bias_effect userBias l)
             GENRE_LABELS ∧
      heuristic_prior bio location "Action"
        == (if nyc_location location then 35 # 100 else 0) ∧
      heuristic_prior bio location "Sci-Fi"
        == (if tech_hub_location location then 35 # 100 else 0) ∧
      debug_priors (choose_genre_deep st bio location userBias)
        = table (fun l => toFixed 3 (prior l)) ∧
      (nyc_location location = true → 0 <= bias_effect userBias "Action" →
       0 < toFixed 3 (prior "Action")).
Proof.
  intros st bio location userBias.
  destruct (priors_of_hold bio location userBias) as (prior & Hp & Heq).
  exists prior. split; [done|]. split; [|split; [|split; [|split]]].
  - apply Forall_forall. intros l Hl. by apply Heq.
  - apply action_heuristic.
  - apply scifi_heuristic.
  - unfold choose_genre_deep. cbv zeta. cbn [debug_priors]. rewrite Hp.
    unfold table. rewrite map_map. done.
  - intros Hnyc Hbias. apply toFixed_pos.
    rewrite (Heq "Action"%string) by (by apply label_in_GENRE_LABELS).
    unfold prior_value. rewrite action_heuristic, Hnyc.
    apply (Qle_trans _ ((35 # 100) + 0)); [by vm_compute|].
    by apply Qplus_le_r.
Qed.

(** Scenario A: an empty bio, the location "New York" and no bias give a
    strictly positive Action prior in the debug output. *)
Lemma location_rules_add_their_weight_once_witness :
  ∃ q, JsMap.get (debug_priors (choose_genre_deep GENRE_MODEL_0 "" "New York" ∅)) "Action"
       = Some (Fin q) ∧ 0 < q.
Proof.
  destruct (location_rules_add_their_weight_once GENRE_MODEL_0 "" "New York" ∅)
    as (prior & _ & _ & _ & _ & Hdebug & Hpos).
  exists (toFixed 3 (prior "Action"%string)). split.
  - rewrite Hdebug. apply (get_table (fun l => toFixed 3 (prior l))).
    by apply label_in_GENRE_LABELS.
  - apply Hpos; by vm_compute.
Defined.

(** C3 fails as stated.  With the location "New York" and a user bias of -2
    on Action, the Action prior of the debug output is -1.65, not positive.
    And a location that contains both "new york" and "nyc" gets 0.35 on
    Action, the same as with one of them: the rule fires once, not once per
    matched substring. *)
Lemma location_prior_counterexample :
  JsMap.get (debug_priors (choose_genre_deep GENRE_MODEL_0 "" "New York" bias_against_action))
            "Action" = Some (Fin (-33 # 20)) ∧
  nyc_location "New York" = true ∧
  JsMap.get (debug_priors (choose_genre_deep GENRE_MODEL_0 "" "New York, NYC" ∅)) "Action"
  = Some (Fin (7 # 20)) ∧
  JsMap.get (debug_priors (choose_genre_deep GENRE_MODEL_0 "" "New York" ∅)) "Action"
  = Some (Fin (7 # 20)).
Proof.
  unfold choose_genre_deep. cbv zeta. cbn [debug_priors].
  repeat split; by vm_compute.
Qed.

End location_priors.

(** ** Phase 2: details in order, up to the limit *)

Section details.

Implicit Types (api : omdb) (acc : list movie) (c : option search_item).

(** one candidate: below the limit, the call moves to the next candidate
    with the accepted detail appended and its request logged *)
Lemma fetch_details_step api c rest acc limit min_rating dbg reqs :
  (Z.of_nat (length acc) < limit)%Z →
  ∃ dbg',
    fetch_details_sequential api (c :: rest) acc limit min_rating dbg reqs
    = fetch_details_sequential api rest
        (acc ++ option_list (accept api min_rating c)) limit min_rating dbg'
        (reqs ++ detail_requests [c]).
Proof.
  intros Hlt.
  assert (Hreq : detail_requests [c]
                 = match truthy_str (c ≫= s_imdbID) with
                   | Some id => [GetDetail id]
                   | None => []
                   end).
  { unfold detail_requests. simpl. by destruct (truthy_str _). }
  rewrite Hreq. cbn [fetch_details_sequential].
  destruct (Z.leb_spec limit (Z.of_nat (length acc))) as [Hle|_]; [lia|].
  unfold accept.
  destruct (truthy_str (c ≫= s_imdbID)) as [id|]; cbn [option_list map].
  2:{ exists dbg. by rewrite !app_nil_r. }
  destruct (detail api id) as [e|[m|]]; cbn [option_list].
  - exists dbg. by rewrite app_nil_r.
  - destruct (bool_decide (Response m = Some "False"%string)); cbn [negb andb].
    + exists dbg. by rewrite app_nil_r.
    + destruct (isFinite (parseFloat (imdbRating m)) && qge (parseFloat (imdbRating m)) min_rating)
        eqn:Hpass; cbn [option_list].
      * by exists dbg.
      * eexists. by rewrite app_nil_r.
  - exists dbg. by rewrite app_nil_r.
Qed.

Lemma accept_passes api min_rating c m :
  accept api min_rating c = Some m →
  isFinite (parseFloat (imdbRating m)) = true ∧
  qge (parseFloat (imdbRating m)) min_rating = true.
Proof.
  unfold accept. destruct (truthy_str _) as [id|]; [|done].
  destruct (detail api id) as [e|[m'|]]; [done| |done].
  destruct (_ && _ && _) eqn:Hc; [|done]. intros [= <-].
  apply andb_prop in Hc as [Hc ?]. by apply andb_prop in Hc as [_ ?].
Qed.

Lemma accepted_app api min_rating l1 l2 :
  accepted api min_rating (l1 ++ l2) = accepted api min_rating l1 ++ accepted api min_rating l2.
Proof. unfold accepted. apply omap_app. Qed.

Lemma accepted_length api min_rating l :
  length (accepted api min_rating l) <= length l.
Proof.
  induction l as [|c l IH]; [done|].
  change (c :: l) with ([c] ++ l). rewrite accepted_app, !length_app.
  assert (length (accepted api min_rating [c]) <= 1).
  { unfold accepted. simpl. destruct (accept api min_rating c); simpl; lia. }
  change (length [c]) with 1. lia.
Qed.

Lemma detail_requests_app l1 l2 :
  detail_requests (l1 ++ l2) = detail_requests l1 ++ detail_requests l2.
Proof. unfold detail_requests. by rewrite omap_app, map_app. Qed.

(** the run from any accumulator that is not over the limit *)
Lemma fetch_details_run api min_rating limit candidates : ∀ acc dbg reqs,
  (Z.of_nat (length acc) <= limit)%Z →
  let out := fetch_details_sequential api candidates acc limit min_rating dbg reqs in
  err out = None ∧
  ∃ fetched rest,
    candidates = fetched ++ rest ∧
    movies out = acc ++ accepted api min_rating fetched ∧
    requests out = reqs ++ detail_requests fetched ∧
    (rest = [] ∨ Z.of_nat (length (movies out)) = limit) ∧
    ∀ k, k < length fetched →
         (Z.of_nat (length (acc ++ accepted api min_rating (take k fetched))) < limit)%Z.
Proof.
  induction candidates as [|c cands IH]; intros acc dbg reqs Hacc out.
  - subst out. cbn [fetch_details_sequential].
    assert (Hout : (if (limit <=? Z.of_nat (length acc))%Z
                    then Outcome None acc dbg reqs else Outcome None acc dbg reqs)
                   = Outcome None acc dbg reqs) by (by destruct (_ <=? _)%Z).
    rewrite Hout. split; [done|]. exists [], []. simpl. rewrite !app_nil_r.
    split; [done|]. split; [done|]. split; [done|]. split; [by left|]. intros k Hk. lia.
  - destruct (Z.eq_dec (Z.of_nat (length acc)) limit) as [Hfull|Hroom].
    + subst out. cbn [fetch_details_sequential].
      destruct (Z.leb_spec limit (Z.of_nat (length acc))) as [_|Hlt]; [|lia].
      split; [done|]. exists [], (c :: cands). simpl. rewrite !app_nil_r.
      split; [done|]. split; [done|]. split; [done|]. split; [by right|]. intros k Hk. lia.
    + destruct (fetch_details_step api c cands acc limit min_rating dbg reqs) as [dbg' Hstep];
        [lia|].
      subst out. rewrite Hstep.
      destruct (IH (acc ++ option_list (accept api min_rating c)) dbg'
                   (reqs ++ detail_requests [c]))
        as (Herr & fetched & rest & Hsplit & Hmovies & Hreqs & Hstop & Hmin).
      { rewrite length_app. destruct (accept api min_rating c); simpl; lia. }
      split; [done|]. exists (c :: fetched), rest.
      split; [by rewrite Hsplit|].
      split; [rewrite Hmovies; change (c :: fetched) with ([c] ++ fetched);
              rewrite accepted_app, app_assoc; f_equal; unfold accepted; simpl;
              by destruct (accept api min_rating c)|].
      split; [rewrite Hreqs; change (c :: fetched) with ([c] ++ fetched);
              by rewrite detail_requests_app, app_assoc|].
      split; [done|].
      intros [|k] Hk.
      * unfold accepted. simpl. rewrite app_nil_r. lia.
      * specialize (Hmin k ltac:(simpl in Hk; lia)).
        change (take (S k) (c :: fetched)) with ([c] ++ take k fetched).
        rewrite accepted_app, app_assoc.
        replace (accepted api min_rating [c]) with (option_list (accept api min_rating c));
          [done|].
        unfold accepted. simpl. by destruct (accept api min_rating c).
Qed.

(** C5. For every candidate list, every integer limit L >= 0 and every
    min_rating, [fetch_details_sequential] returns without an error the first
    L of the candidates that pass (an ID, a successful detail fetch, a rating
    that parses to a finite number >= min_rating), in candidate order: that
    is min(L, number of passing candidates) results, each with a finite
    parsed rating >= min_rating.  It requests details for a prefix of the
    candidate list only, the shortest one that holds L passing candidates
    (or the whole list): it stops as soon as the count reaches L. *)
Theorem details_up_to_limit :
  ∀ (api : omdb) (candidates : list (option search_item)) (limit : Z)
    (min_rating : num Q) (dbg : list step) (reqs : list request),
    (0 <= limit)%Z →
    let out := fetch_details_sequential api candidates [] limit min_rating dbg reqs in
    let passing := accepted api min_rating candidates in
    err out = None ∧
    movies out = take (Z.to_nat limit) passing ∧
    Z.of_nat (length (movies out)) = Z.min limit (Z.of_nat (length passing)) ∧
    Forall (fun m => isFinite (parseFloat (imdbRating m)) = true ∧
                     qge (parseFloat (imdbRating m)) min_rating = true) (movies out) ∧
    ∃ fetched rest,
      candidates = fetched ++ rest ∧
      requests out = reqs ++ detail_requests fetched ∧
      movies out = accepted api min_rating fetched ∧
      (rest = [] ∨ Z.of_nat (length (movies out)) = limit) ∧
      ∀ k, k < length fetched →
           (Z.of_nat (length (accepted api min_rating (take k fetched))) < limit)%Z.
Proof.
  intros api candidates limit min_rating dbg reqs Hlimit out passing.
  destruct (fetch_details_run api min_rating limit candidates [] dbg reqs)
    as (Herr & fetched & rest & Hsplit & Hmovies & Hreqs & Hstop & Hmin); [simpl; lia|].
  fold out in Herr, Hmovies, Hreqs, Hstop. simpl in Hmovies, Hmin.
  assert (Hpass : passing = movies out ++ accepted api min_rating rest).
  { unfold passing. by rewrite Hsplit, accepted_app, Hmovies. }
  assert (Hlen : (Z.of_nat (length (movies out)) <= limit)%Z).
  { destruct Hstop as [->|Heq]; [|lia].
    destruct (decide (length fetched = 0)) as [H0|Hn0].
    - rewrite Hmovies. destruct fetched; [simpl; lia | done].
    - specialize (Hmin (length fetched - 1) ltac:(lia)).
      rewrite Hmovies.
      assert (Hfe : fetched = take (length fetched - 1) fetched
                              ++ drop (length fetched - 1) fetched)
        by (by rewrite take_drop).
      rewrite Hfe at 1. rewrite accepted_app, length_app.
      assert (length (accepted api min_rating (drop (length fetched - 1) fetched)) <= 1).
      { etrans; [apply accepted_length|]. rewrite length_drop. lia. }
      lia. }
  assert (Htake : movies out = take (Z.to_nat limit) passing).
  { rewrite Hpass. destruct Hstop as [->|Heq].
    - simpl. rewrite app_nil_r. rewrite take_ge; [done | lia].
    - rewrite take_app_length'; [done | lia]. }
  split; [done|]. split; [done|]. split; [|split].
  - rewrite Htake at 1. rewrite length_take. lia.
  - rewrite Hmovies. apply Forall_forall. intros m Hm.
    apply list_elem_of_omap in Hm as (c & _ & Hc). by eapply accept_passes.
  - exists fetched, rest. done.
Qed.

(** Scenario D: limit 3 and min_rating 8.0 over ratings 9.1, 7.5, 8.8, N/A,
    8.0 give the three movies rated 9.1, 8.8 and 8.0, in that order. *)
Lemma details_up_to_limit_witness :
  (0 <= 3)%Z ∧
  map imdbRating
      (movies (fetch_details_sequential api_D
                 (map (fun r => Some (item (fst r))) ratings_D) [] 3 (Fin 8%Q) [] []))
  = [Some "9.1"; Some "8.8"; Some "8.0"]%string.
Proof.
  split; [lia|].
  destruct (details_up_to_limit api_D (map (fun r => Some (item (fst r))) ratings_D)
              3 (Fin 8%Q) [] [] ltac:(lia)) as (_ & -> & _).
  by vm_compute.
Defined.

End details.

(** ** Phase 1: pages, deduplicated *)

Section pages.

Implicit Types (api : omdb) (term : string) (seen : gset string)
  (items cands : list search_item).

Lemma first_seen_app seen l1 l2 :
  first_seen seen (l1 ++ l2)
  = first_seen seen l1 ++ first_seen (seen ∪ ids_of l1) l2.
Proof.
  revert seen. induction l1 as [|it l1 IH]; intros seen; simpl.
  - f_equal. unfold ids_of. simpl. set_solver.
  - case_bool_decide as Hin.
    + rewrite IH. do 2 f_equal. unfold ids_of. simpl. set_solver.
    + simpl. rewrite IH. do 3 f_equal. unfold ids_of. simpl. set_solver.
Qed.

Lemma first_seen_fresh seen items it :
  it ∈ first_seen seen items → item_id it ∉ seen.
Proof.
  revert seen. induction items as [|x items IH]; intros seen; simpl.
  - by intros ?%elem_of_nil.
  - case_bool_decide as Hin; [apply IH|].
    intros [->|Hit]%elem_of_cons; [done|].
    apply IH in Hit. set_solver.
Qed.

Lemma first_seen_NoDup seen items : NoDup (map item_id (first_seen seen items)).
Proof.
  revert seen. induction items as [|x items IH]; intros seen; simpl.
  - constructor.
  - case_bool_decide as Hin; [apply IH|].
    simpl. constructor; [|apply IH].
    intros (it & Hid & Hit)%list_elem_of_fmap.
    apply first_seen_fresh in Hit. set_solver.
Qed.

Lemma valid_items_cons r (results : list (option search_item)) :
  valid_items (r :: results)
  = match r with
    | Some it =>
        match truthy_str (s_imdbID it) with
        | Some _ => it :: valid_items results
        | None => valid_items results
        end
    | None => valid_items results
    end.
Proof.
  unfold valid_items. simpl. destruct r as [it|]; simpl; [|done].
  by destruct (truthy_str (s_imdbID it)).
Qed.

Lemma truthy_item_id it id : truthy_str (s_imdbID it) = Some id → item_id it = id.
Proof.
  unfold truthy_str, item_id. destruct (s_imdbID it) as [id'|]; [|done].
  destruct (Text.nonempty id'); naive_solver.
Qed.

(** the loop over a page's results *)
Lemma add_results seen cands (results : list (option search_item)) :
  foldl add_result (seen, cands) results
  = (seen ∪ ids_of (valid_items results), cands ++ first_seen seen (valid_items results)).
Proof.
  revert seen cands. induction results as [|r results IH]; intros seen cands.
  - simpl. rewrite app_nil_r. f_equal. unfold ids_of. simpl. set_solver.
  - cbn [foldl]. rewrite valid_items_cons. unfold add_result.
    destruct r as [it|]; [|apply IH].
    destruct (truthy_str (s_imdbID it)) as [id|] eqn:Hid; [|apply IH].
    pose proof (truthy_item_id it id Hid) as <-.
    case_bool_decide as Hin; rewrite IH; cbn [first_seen].
    + rewrite bool_decide_eq_true_2 by done.
      f_equal. unfold ids_of. simpl. set_solver.
    + rewrite bool_decide_eq_false_2 by done.
      rewrite <- app_assoc. simpl. f_equal. unfold ids_of. simpl. set_solver.
Qed.

Lemma gathered_one api term seen cands page :
  gathered api term seen cands page page
  = cands ++ first_seen seen (page_items api term page).
Proof.
  unfold gathered. replace (page + 1 - page) with 1 by lia. simpl.
  by rewrite app_nil_r.
Qed.

Lemma gathered_next api term seen cands page p :
  page < p →
  gathered api term (seen ∪ ids_of (page_items api term page))
           (cands ++ first_seen seen (page_items api term page)) (page + 1) p
  = gathered api term seen cands page p.
Proof.
  intros Hp. unfold gathered.
  replace (p + 1 - page) with (S (p + 1 - (page + 1))) by lia.
  cbn [seq map concat]. rewrite first_seen_app, <- app_assoc.
  by replace (S page) with (page + 1) by lia.
Qed.

(** [fetch_page] always ends, at some page up to [MAX_PAGES], having gone
    through pages that all answered with results and left fewer than 45
    candidates *)
Lemma fetch_page_run api term : ∀ fuel page seen cands dbg reqs,
  page + fuel = MAX_PAGES + 1 → 1 <= fuel →
  ∃ r n,
    fetch_page api term fuel page seen cands dbg reqs = Some r ∧
    page <= n <= MAX_PAGES ∧
    (∀ p, page <= p < n →
          page_ok api term p = true ∧ length (gathered api term seen cands page p) < 45) ∧
    stops_at api term seen cands reqs page n r.
Proof.
  induction fuel as [|fuel IH]; intros page seen cands dbg reqs Hsum Hfuel; [lia|].
  cbn [fetch_page].
  assert (Hreq1 : ∀ n, n = page →
            reqs ++ map (GetSearch term) (seq page (n + 1 - page))
            = reqs ++ [GetSearch term page]).
  { intros n ->. by replace (page + 1 - page) with 1 by lia. }
  destruct (search api term page) as [e|[data|]] eqn:Hsearch.
  - eexists _, page. split; [done|]. split; [lia|]. split; [intros p Hp; lia|].
    unfold stops_at. rewrite Hsearch. cbv zeta. rewrite Hreq1 by done. by eexists.
  - case_bool_decide as Hfalse.
    + eexists _, page. split; [done|]. split; [lia|]. split; [intros p Hp; lia|].
      unfold stops_at. rewrite Hsearch. cbv zeta. rewrite Hreq1 by done.
      split.
      * unfold page_ok. rewrite Hsearch. by rewrite bool_decide_eq_true_2.
      * rewrite gathered_one. unfold page_items. rewrite Hsearch.
        rewrite bool_decide_eq_true_2 by done. simpl. rewrite app_nil_r. by eexists.
    + rewrite add_results.
      assert (Hitems : page_items api term page = valid_items (default [] (sd_Search data))).
      { unfold page_items. rewrite Hsearch. by rewrite bool_decide_eq_false_2. }
      assert (Hok : page_ok api term page = true).
      { unfold page_ok. rewrite Hsearch. by rewrite bool_decide_eq_false_2. }
      rewrite <- Hitems.
      destruct ((MAX_PAGES <=? page) || (45 <=? length (cands ++ first_seen seen (page_items api term page))))
        eqn:Hstop.
      * eexists _, page. split; [done|]. split; [lia|]. split; [intros p Hp; lia|].
        unfold stops_at. rewrite Hsearch. cbv zeta. rewrite Hreq1 by done.
        rewrite gathered_one. split; [|by eexists].
        intros _. apply orb_prop in Hstop as [H|H].
        -- left. apply Nat.leb_le in H. lia.
        -- right. by apply Nat.leb_le in H.
      * apply orb_false_elim in Hstop as [Hmax Hcap].
        apply Nat.leb_gt in Hmax. apply Nat.leb_gt in Hcap.
        destruct (IH (page + 1) (seen ∪ ids_of (page_items api term page))
                     (cands ++ first_seen seen (page_items api term page))
                     (dbg ++ [StepSearch page]) (reqs ++ [GetSearch term page]))
          as (r & n & Hrun & Hn & Hgo & Hend); [lia | lia |].
        exists r, n. split; [done|]. split; [lia|]. split.
        -- intros p Hp. destruct (decide (p = page)) as [->|Hne].
           ++ split; [done|]. by rewrite gathered_one.
           ++ destruct (Hgo p ltac:(lia)) as [Hokp Hlen]. split; [done|].
              by rewrite gathered_next in Hlen by lia.
        -- unfold stops_at in *. cbv zeta in *.
           rewrite gathered_next in Hend by lia.
           replace (reqs ++ map (GetSearch term) (seq page (n + 1 - page)))
             with ((reqs ++ [GetSearch term page])
                   ++ map (GetSearch term) (seq (page + 1) (n + 1 - (page + 1)))); [done|].
           replace (n + 1 - page) with (S (n + 1 - (page + 1))) by lia.
           cbn [seq map]. rewrite <- app_assoc.
           by replace (S page) with (page + 1) by lia.
  - eexists _, page. split; [done|]. split; [lia|]. split; [intros p Hp; lia|].
    unfold stops_at. rewrite Hsearch. cbv zeta. rewrite Hreq1 by done.
    split.
    + unfold page_ok. by rewrite Hsearch.
    + rewrite gathered_one. unfold page_items. rewrite Hsearch. simpl.
      rewrite app_nil_r. by eexists.
Qed.

Lemma gathered_collected api term n : gathered api term ∅ [] 1 n = collected api term n.
Proof.
  unfold gathered, collected. simpl. by replace (n + 1 - 1) with n by lia.
Qed.

(** C7. The search phase always ends.  When it ends in [finish()], having
    requested pages 1 to n, the candidate list is the concatenation of the
    candidates those pages offer with every item dropped whose ID was seen
    before, on the same page or an earlier one: each ID occurs once, and the
    candidates stand in first-seen order. *)
Theorem candidates_are_first_seen :
  ∀ (api : omdb) (term : string),
    match fetch_page api term MAX_PAGES 1 ∅ [] [] [] with
    | None => False
    | Some (PageError _ _ _) => True
    | Some (Finish candidates _ reqs) =>
        ∃ n, 1 <= n <= MAX_PAGES ∧
             reqs = map (GetSearch term) (seq 1 n) ∧
             candidates = first_seen ∅ (concat (map (page_items api term) (seq 1 n))) ∧
             NoDup (map item_id candidates)
    end.
Proof.
  intros api term.
  destruct (fetch_page_run api term MAX_PAGES 1 ∅ [] [] [])
    as (r & n & -> & Hn & _ & Hend); [done | unfold MAX_PAGES; lia |].
  unfold stops_at in Hend. cbv zeta in Hend. rewrite gathered_collected in Hend.
  replace (n + 1 - 1) with n in Hend by lia. simpl in Hend.
  destruct (search api term n) as [e|data].
  - by destruct Hend as [dbg' ->].
  - destruct Hend as [_ [dbg' ->]]. exists n. split; [done|]. split; [done|].
    split; [done|]. apply first_seen_NoDup.
Qed.

End pages.

(** ** A page that fails, a page that is empty *)

Section page_failure.

Implicit Types (api : omdb) (term : string).

Lemma page_not_ok_no_items api term n :
  page_ok api term n = false → page_items api term n = [].
Proof.
  unfold page_ok, page_items. destruct (search api term n) as [e|[data|]]; [done| |done].
  by case_bool_decide.
Qed.

Lemma collected_skip api term n :
  1 <= n → page_ok api term n = false → collected api term n = collected api term (n - 1).
Proof.
  intros Hn Hbad. unfold collected.
  replace n with (n - 1 + 1) at 1 by lia.
  rewrite seq_app, map_app, concat_app, first_seen_app.
  change (seq (1 + (n - 1)) 1) with [1 + (n - 1)].
  replace (1 + (n - 1)) with n by lia. cbn [map concat].
  rewrite (page_not_ok_no_items api term n Hbad). simpl. by rewrite app_nil_r.
Qed.

(** the pipeline always calls back: [MAX_PAGES] of fuel is enough *)
Lemma omdb_search_then_fill_total api term limit min_rating :
  is_Some (omdb_search_then_fill api term limit min_rating).
Proof.
  unfold omdb_search_then_fill.
  destruct (fetch_page_run api term MAX_PAGES 1 ∅ [] [] [])
    as (r & n & -> & _); [done | unfold MAX_PAGES; lia |].
  by destruct r.
Qed.

(** C1 (amended). Let page n <= MAX_PAGES be reached, the pages before it
    having answered with results and left fewer than 45 candidates.  If the
    request for page n fails (a network error or a body that is not JSON),
    the failure is fatal: the pipeline hands that error to its caller with an
    empty result list, and the candidates of the earlier pages are dropped.
    If page n answers but has no results (a null body or Response "False"),
    pagination ends and the pipeline goes on to [finish()], that is to Phase 2,
    with the deduplicated candidates of the earlier pages. *)
Theorem page_error_is_fatal_empty_page_is_not :
  ∀ (api : omdb) (term : string) (limit : Z) (min_rating : num Q) (n : nat),
    1 <= n <= MAX_PAGES →
    (∀ p, 1 <= p < n →
          page_ok api term p = true ∧ length (collected api term p) < 45) →
    match search api term n with
    | HttpError e =>
        ∃ dbg reqs,
          omdb_search_then_fill api term limit min_rating
          = Some (Outcome (Some e) [] dbg reqs)
    | HttpOk _ =>
        page_ok api term n = false →
        ∃ dbg reqs,
          omdb_search_then_fill api term limit min_rating
          = Some (finish api limit min_rating (collected api term (n - 1)) dbg reqs)
    end.
Proof.
  intros api term limit min_rating n Hn Hbefore.
  destruct (fetch_page_run api term MAX_PAGES 1 ∅ [] [] [])
    as (r & n' & Hrun & Hn' & Hgo & Hend); [done | unfold MAX_PAGES; lia |].
  assert (Hbad : page_ok api term n = false →
                 n' = n ∧ stops_at api term ∅ [] [] 1 n r).
  { intros Hbad. assert (n' = n); [|by subst].
    destruct (Nat.lt_trichotomy n' n) as [Hlt|[Heq|Hgt]]; [|done|].
    - destruct (Hbefore n' ltac:(lia)) as [Hok Hlen].
      unfold stops_at in Hend. cbv zeta in Hend.
      rewrite gathered_collected in Hend.
      destruct (search api term n') as [e|data] eqn:Hs.
      + unfold page_ok in Hok. by rewrite Hs in Hok.
      + destruct Hend as [Hstop _]. destruct (Hstop Hok); lia.
    - destruct (Hgo n ltac:(lia)) as [Hok _]. congruence. }
  unfold omdb_search_then_fill. rewrite Hrun.
  destruct (search api term n) as [e|data] eqn:Hs.
  - destruct Hbad as [-> Hstop]; [unfold page_ok; by rewrite Hs|].
    unfold stops_at in Hstop. rewrite Hs in Hstop. destruct Hstop as [dbg' ->].
    by eexists _, _.
  - intros Hnot. destruct (Hbad Hnot) as [-> Hstop].
    unfold stops_at in Hstop. rewrite Hs in Hstop. cbv zeta in Hstop.
    destruct Hstop as [_ [dbg' ->]].
    rewrite gathered_collected, collected_skip by (done || lia).
    by eexists _, _.
Qed.

(** With one movie on page 1: a second page that cannot be fetched gives the
    error and no movie; a second page without results gives the movie. *)
Lemma page_error_is_fatal_empty_page_is_not_witness :
  (∃ dbg reqs,
     omdb_search_then_fill api_page2_fails "Drama" 10 (Fin 7%Q)
     = Some (Outcome (Some "HTTPS error: socket hang up") [] dbg reqs)) ∧
  (∃ dbg reqs,
     omdb_search_then_fill api_page2_empty "Drama" 10 (Fin 7%Q)
     = Some (finish api_page2_empty 10 (Fin 7%Q) [item "tt1"] dbg reqs)).
Proof.
  assert (Hn : 1 <= 2 <= MAX_PAGES) by (unfold MAX_PAGES; lia).
  split.
  - apply (page_error_is_fatal_empty_page_is_not api_page2_fails "Drama" 10 (Fin 7%Q) 2 Hn).
    intros p Hp. assert (p = 1) as -> by lia.
    split; [done|]. change (collected api_page2_fails "Drama" 1) with [item "tt1"].
    simpl. lia.
  - apply (page_error_is_fatal_empty_page_is_not api_page2_empty "Drama" 10 (Fin 7%Q) 2 Hn).
    + intros p Hp. assert (p = 1) as -> by lia.
      split; [done|]. change (collected api_page2_empty "Drama" 1) with [item "tt1"].
      simpl. lia.
    + done.
Defined.

(** C1 fails as stated.  Page 1 lists a movie rated 9.0 and the request for
    page 2 fails: the pipeline returns the error and no movie, although
    Phase 2 over the candidate collected from page 1 would return it. *)
Lemma page_error_counterexample :
  omdb_search_then_fill api_page2_fails "Drama" 10 (Fin 7%Q)
  = Some (Outcome (Some "HTTPS error: socket hang up") []
            [StepSearch 1; StepSearch 2]
            [GetSearch "Drama" 1; GetSearch "Drama" 2]) ∧
  collected api_page2_fails "Drama" 1 = [item "tt1"] ∧
  movies (finish api_page2_fails 10 (Fin 7%Q) (collected api_page2_fails "Drama" 1) [] [])
  = [rated "tt1" "9.0"].
Proof. repeat split; by vm_compute. Qed.

(** Scenario D through the whole pipeline: page 1 lists five candidates,
    page 2 has none; with limit 3 and min_rating 8.0 the movies rated 9.1, 8.8
    and 8.0 come back, and the debug trail records the two that were filtered
    out. *)
Example scenario_D :
  omdb_search_then_fill api_D "science fiction" 3 (Fin 8%Q)
  = Some (Outcome None
            [rated "tt1" "9.1"; rated "tt3" "8.8"; rated "tt5" "8.0"]
            [StepSearch 1; StepSearch 2; StepSearchPageEmpty 2 "Movie not found!";
             StepFinalCandidates 5;
             StepFilteredOut "tt2" (Some "7.5"); StepFilteredOut "tt4" (Some "N/A")]
            [GetSearch "science fiction" 1; GetSearch "science fiction" 2;
             GetDetail "tt1"; GetDetail "tt2"; GetDetail "tt3"; GetDetail "tt4";
             GetDetail "tt5"]).
Proof. by vm_compute. Qed.

End page_failure.

(** ** Feedback *)

Section feedback.

Implicit Types (srv : server) (req : feedback_request) (b : gmap string (num Q)).

Lemma clamp_num_range n : ∃ q, clamp_num n (-2) 2 = Fin q ∧ (-2 <= q <= 2)%Q.
Proof.
  destruct n as [x| | |]; simpl; eexists; (split; [done|]); try (by split).
  split.
  - apply Q.le_max_l.
  - apply Q.max_lub; [discriminate | apply Q.le_min_l].
Qed.

Lemma init_bias_in_range : bias_in_range init_bias.
Proof.
  unfold init_bias, GENRE_LABELS. simpl.
  repeat (apply map_Forall_insert_2; [by exists 0%Q|]).
  apply map_Forall_empty.
Qed.

Lemma bias_of_in_range (s : session) :
  (∀ b, preferenceBias s = Some b → bias_in_range b) → bias_in_range (bias_of s).
Proof.
  unfold bias_of. destruct (preferenceBias s) as [b|]; simpl.
  - intros H. by apply H.
  - intros _. apply init_bias_in_range.
Qed.

(** what a request does, read off the reply: an error reply leaves both
    stores as they were; a success reply comes with the requesting session,
    its LastRun, and the new bias map, which differs from the old one at the
    LastRun genre only *)
Lemma handle_feedback_cases req srv :
  match handle_feedback req srv with
  | (ReplyError _ _, srv') => srv' = srv
  | (ReplyOk action id g b' _, srv') =>
      ∃ sid s lr,
        cookie_sid req = Some sid ∧
        session_store srv !! sid = Some s ∧
        last s = Some lr ∧ g = last_genre lr ∧
        (action = "like"%string ∨ action = "dislike"%string) ∧
        obj_get (moviesById lr) id ≠ Absent ∧
        b' = <[g := clamp_num
                      ((if String.eqb action "like" then qadd else qsub)
                         (bias_read (bias_of s) g) (Fin STEP)) (-2) 2]> (bias_of s) ∧
        session_store srv'
        = <[sid := {| session_user := session_user s;
                      access_token := access_token s;
                      created_at := created_at s;
                      preferenceBias := Some b';
                      last := last s |}]> (session_store srv) ∧
        GENRE_MODEL srv'
        = (if String.eqb action "like"
           then trainOne g (build_movie_training_text (obj_get (moviesById lr) id))
                         (GENRE_MODEL srv)
           else GENRE_MODEL srv)
  end.
Proof.
  unfold handle_feedback, get_session.
  destruct (cookie_sid req) as [sid0|] eqn:Hcookie; [|done]. simpl.
  destruct (Text.nonempty sid0) eqn:Hsid; [|done].
  destruct (session_store srv !! sid0) as [s|] eqn:Hs; [|done]. simpl.
  destruct (body req) as [e|bd]; [done|].
  set (id := Text.trim (body_imdbID bd)).
  set (action := Text.toLowerCase (Text.trim (body_action bd))).
  destruct (negb (Text.nonempty id) || _) eqn:Hvalid; [done|].
  apply orb_false_elim in Hvalid as [_ Hact].
  destruct (last s) as [lr|] eqn:Hlast; [|done].
  destruct (negb (Text.nonempty (last_genre lr))); [done|].
  assert (Haction : action = "like"%string ∨ action = "dislike"%string).
  { destruct (String.eqb_spec action "like"); [by left|].
    destruct (String.eqb_spec action "dislike"); [by right | done]. }
  destruct (obj_get (moviesById lr) id) as [m| |] eqn:Hmovie; [| |done].
  - exists sid0, s, lr. unfold bias_of. rewrite Hmovie.
    repeat (split; [done|]). split; [by destruct (String.eqb action "like")|].
    cbn [session_store GENRE_MODEL]. by rewrite ?Hlast.
  - exists sid0, s, lr. unfold bias_of. rewrite Hmovie.
    repeat (split; [done|]). split; [by destruct (String.eqb action "like")|].
    cbn [session_store GENRE_MODEL]. by rewrite ?Hlast.
Qed.

Lemma handle_feedback_in_range req srv :
  biases_in_range srv → biases_in_range (snd (handle_feedback req srv)).
Proof.
  intros Hsrv. pose proof (handle_feedback_cases req srv) as Hcases.
  destruct (handle_feedback req srv) as [[status e|action id g b' st] srv']; simpl.
  - by subst.
  - destruct Hcases as (sid & s & lr & _ & Hs & _ & _ & _ & _ & Hb & Hstore & _).
    unfold biases_in_range. rewrite Hstore.
    apply map_Forall_insert_2; [|done]. simpl. intros b [= <-]. rewrite Hb.
    apply map_Forall_insert_2; [apply clamp_num_range|].
    apply bias_of_in_range. by apply (Hsrv sid s).
Qed.

Lemma feedback_run_in_range reqs : ∀ srv,
  biases_in_range srv → biases_in_range (feedback_run reqs srv).
Proof.
  unfold feedback_run. induction reqs as [|req reqs IH]; intros srv Hsrv; simpl; [done|].
  by apply IH, handle_feedback_in_range.
Qed.

(** C9. From any server state whose bias values lie in [-2, 2] (all zero
    when a session is created), every sequence of feedback requests leaves
    every bias value of every session a finite number in [-2, 2].  A request
    that succeeds stores, for the genre of the session's LastRun, the old
    value (or 0) plus STEP = 0.25 for a like and minus STEP for a dislike,
    clamped into [-2, 2]. *)
Theorem feedback_keeps_bias_clamped :
  ∀ (srv : server) (reqs : list feedback_request),
    biases_in_range srv →
    let srv' := feedback_run reqs srv in
    biases_in_range srv' ∧
    ∀ req,
      match handle_feedback req srv' with
      | (ReplyOk action _ g b' _, srv'') =>
          ∃ sid s s',
            session_store srv' !! sid = Some s ∧
            session_store srv'' !! sid = Some s' ∧
            preferenceBias s' = Some b' ∧
            (action = "like"%string ∨ action = "dislike"%string) ∧
            b' !! g = Some (clamp_num
                              ((if String.eqb action "like" then qadd else qsub)
                                 (bias_read (bias_of s) g) (Fin STEP)) (-2) 2) ∧
            STEP = (1 # 4)%Q ∧
            bias_in_range b'
      | (ReplyError _ _, _) => True
      end.
Proof.
  intros srv reqs Hsrv srv'.
  assert (Hsrv' : biases_in_range srv') by (by apply feedback_run_in_range).
  split; [done|]. intros req.
  pose proof (handle_feedback_cases req srv') as Hcases.
  pose proof (handle_feedback_in_range req srv' Hsrv') as Hnext.
  destruct (handle_feedback req srv') as [[status e|action id g b' st] srv'']; [done|].
  destruct Hcases as (sid & s & lr & _ & Hs & _ & _ & Hact & _ & Hb & Hstore & _).
  simpl in Hnext.
  eexists sid, s, _. split; [done|]. split; [by rewrite Hstore, lookup_insert_eq|].
  split; [done|]. split; [done|]. split; [by rewrite Hb, lookup_insert_eq|].
  split; [done|].
  eapply (Hnext sid); [by rewrite Hstore, lookup_insert_eq | done].
Qed.

Lemma server_1_in_range : biases_in_range server_1.
Proof.
  unfold biases_in_range, server_1. simpl.
  apply map_Forall_singleton. intros b [= <-]. apply init_bias_in_range.
Qed.

(** Nine likes in a row on the one movie of a Drama run: the Drama bias
    climbs by 0.25 a time and stays at 2. *)
Lemma feedback_keeps_bias_clamped_witness :
  biases_in_range server_1 ∧
  biases_in_range (feedback_run (replicate 9 (feedback "tt1" "like")) server_1) ∧
  map (fun n => bias_at (feedback_run (replicate n (feedback "tt1" "like")) server_1)
                        "s1" "Drama") [0; 1; 8; 9]
  = [Some (Fin 0%Q); Some (Fin (1 # 4)%Q); Some (Fin 2%Q); Some (Fin 2%Q)].
Proof.
  split; [apply server_1_in_range|]. split.
  - apply (feedback_keeps_bias_clamped server_1 (replicate 9 (feedback "tt1" "like"))
             server_1_in_range).
  - by vm_compute.
Defined.

(** the frame of a request: an error reply changes nothing; a success
    changes, in the session store, only the requesting session, and there
    only the bias of the LastRun genre; a dislike leaves the classifier
    alone *)
Lemma handle_feedback_frame req srv :
  match handle_feedback req srv with
  | (ReplyError _ _, srv') => srv' = srv
  | (ReplyOk action _ g b' _, srv') =>
      ∃ sid s s',
        session_store srv !! sid = Some s ∧
        session_store srv' = <[sid := s']> (session_store srv) ∧
        last s' = last s ∧ session_user s' = session_user s ∧
        preferenceBias s' = Some b' ∧
        (∀ g', g' ≠ g → b' !! g' = bias_of s !! g') ∧
        (action = "dislike"%string → GENRE_MODEL srv' = GENRE_MODEL srv)
  end.
Proof.
  pose proof (handle_feedback_cases req srv) as Hcases.
  destruct (handle_feedback req srv) as [[status e|action id g b' st] srv']; [done|].
  destruct Hcases as (sid & s & lr & _ & Hs & _ & _ & _ & _ & Hb & Hstore & Hmodel).
  eexists sid, s, _. split; [done|]. split; [exact Hstore|].
  split; [done|]. split; [done|]. split; [done|]. split.
  - intros g' Hne. by rewrite Hb, lookup_insert_ne.
  - intros ->. by rewrite Hmodel.
Qed.

(** an ID that is neither a key of [moviesById] nor a property name of
    [Object.prototype] is turned down with 404, both stores untouched *)
Lemma handle_feedback_unknown_id sid s lr id action srv :
  Text.nonempty sid = true →
  session_store srv !! sid = Some s → last s = Some lr →
  moviesById lr !! Text.trim id = None → Text.trim id ∉ OBJECT_PROTOTYPE_KEYS →
  Text.nonempty (Text.trim id) = true → Text.nonempty (last_genre lr) = true →
  Text.toLowerCase (Text.trim action) = "like"%string
  ∨ Text.toLowerCase (Text.trim action) = "dislike"%string →
  handle_feedback {| cookie_sid := Some sid; body := inr (Body id action) |} srv
  = (ReplyError 404 "Movie not found in last recommendation results.", srv).
Proof.
  intros Hsid Hs Hlast Hmiss Hproto Hid Hgenre Haction.
  unfold handle_feedback, get_session. simpl. rewrite Hsid, Hs. simpl.
  rewrite Hid, Hlast, Hgenre. simpl.
  assert (Hact : negb (String.eqb (Text.toLowerCase (Text.trim action)) "like")
                 && negb (String.eqb (Text.toLowerCase (Text.trim action)) "dislike")
                 = false) by (by destruct Haction as [-> | ->]).
  rewrite Hact. unfold obj_get. rewrite Hmiss.
  by rewrite bool_decide_eq_false_2.
Qed.

(** C10, at the failing input.  The session's LastRun holds one movie,
    "tt1".  A like for the ID "constructor", which is not in that mapping, is
    answered with 200: the lookup [moviesById["constructor"]] finds the
    function inherited from [Object.prototype], so the not-found check passes,
    the Drama bias goes from 0 to 0.25 and the classifier is trained on the
    empty text, which adds a Drama document. *)
Lemma feedback_inherited_id_is_accepted :
  moviesById (LastRun "Drama" (movies_by_id [rated "tt1" "9.0"]) 0) !! "constructor" = None ∧
  status_of (fst (handle_feedback (feedback "constructor" "like") server_1)) = 200 ∧
  bias_at (snd (handle_feedback (feedback "constructor" "like") server_1)) "s1" "Drama"
  = Some (Fin (1 # 4)%Q) ∧
  bias_at server_1 "s1" "Drama" = Some (Fin 0%Q) ∧
  docCounts (GENRE_MODEL (snd (handle_feedback (feedback "constructor" "like") server_1)))
    !! "Drama" = Some 4 ∧
  docCounts (GENRE_MODEL server_1) !! "Drama" = Some 3.
Proof. repeat split; by vm_compute. Qed.

End feedback.

(** ** Text normalisation and tokens *)

Section text_facts.

Import Text.

Lemma lower_char_idem (c : ascii) : lower_char (lower_char c) = lower_char c.
Proof. each_char c; reflexivity. Qed.

Lemma lower_char_space (c : ascii) : is_space (lower_char c) = is_space c.
Proof. each_char c; reflexivity. Qed.

Lemma toLowerCase_idem (s : string) : toLowerCase (toLowerCase s) = toLowerCase s.
Proof. induction s as [|c s IH]; cbn [toLowerCase]; [done|]. by rewrite lower_char_idem, IH. Qed.

(** a text whose characters [lower_char] fixes is its own lower case *)
Lemma toLowerCase_fixed (s : string) :
  string_forall (fun c => Ascii.eqb (lower_char c) c) s = true -> toLowerCase s = s.
Proof.
  induction s as [|c s IH]; cbn [string_forall toLowerCase]; [done|].
  intros [Hc Hs]%andb_prop. apply Ascii.eqb_eq in Hc. by rewrite Hc, IH.
Qed.

Lemma toLowerCase_forall (s : string) :
  string_forall (fun c => Ascii.eqb (lower_char c) c) (toLowerCase s) = true.
Proof.
  induction s as [|c s IH]; cbn [string_forall toLowerCase]; [done|].
  rewrite IH, lower_char_idem, Ascii.eqb_refl. done.
Qed.

Lemma collapse_from_forall (P : ascii -> bool) (b : bool) (s : string) :
  P " "%char = true -> string_forall P s = true ->
  string_forall P (collapse_from b s) = true.
Proof.
  intros Hsp. revert b. induction s as [|c s IH]; intros b; cbn [string_forall collapse_from];
    [done|].
  intros [Hc Hs]%andb_prop.
  destruct (is_space c), b; cbn [string_forall]; rewrite ?Hsp, ?Hc, ?IH; done.
Qed.

Lemma trimStart_forall (P : ascii -> bool) (s : string) :
  string_forall P s = true -> string_forall P (trimStart s) = true.
Proof.
  induction s as [|c s IH]; cbn [string_forall trimStart]; [done|].
  intros H. destruct (is_space c); [|done].
  apply andb_prop in H as [_ H]. by apply IH.
Qed.

Lemma trimEnd_forall (P : ascii -> bool) (s : string) :
  string_forall P s = true -> string_forall P (trimEnd s) = true.
Proof.
  induction s as [|c s IH]; [done|].
  cbn [trimEnd]. destruct (all_space (String c s)); [done|].
  cbn [string_forall]. intros [Hc Hs]%andb_prop. by rewrite Hc, IH.
Qed.

Lemma collapse_from_single (b : bool) (s : string) :
  single_blanks b (collapse_from b s) = true.
Proof.
  revert b. induction s as [|c s IH]; intros b; cbn [collapse_from]; [done|].
  destruct (is_space c) eqn:Hc.
  - destruct b; [apply IH|]. cbn [single_blanks].
    change (is_space " ") with true. cbn [negb andb]. rewrite Ascii.eqb_refl. apply IH.
  - cbn [single_blanks]. rewrite Hc. apply IH.
Qed.

Lemma single_blanks_collapse (b : bool) (s : string) :
  single_blanks b s = true -> collapse_from b s = s.
Proof.
  revert b. induction s as [|c s IH]; intros b; cbn [collapse_from single_blanks]; [done|].
  destruct (is_space c).
  - intros [[Hc Hb]%andb_prop Hs]%andb_prop. apply Ascii.eqb_eq in Hc. subst c.
    destruct b; [done|]. by rewrite IH.
  - intros Hs. by rewrite IH.
Qed.

Lemma single_blanks_weaken (b : bool) (s : string) :
  single_blanks b s = true -> single_blanks false s = true.
Proof.
  destruct s as [|c s]; cbn [single_blanks]; [done|].
  destruct (is_space c); [|done].
  intros [[Hc Hb]%andb_prop Hs]%andb_prop. by rewrite Hc, Hs.
Qed.

Lemma trimStart_single (s : string) :
  single_blanks false s = true -> single_blanks false (trimStart s) = true.
Proof.
  induction s as [|c s IH]; [done|].
  cbn [trimStart]. destruct (is_space c) eqn:Hc; [|done].
  cbn [single_blanks]. rewrite Hc. intros [_ Hs]%andb_prop.
  apply IH. by apply single_blanks_weaken in Hs.
Qed.

Lemma trimEnd_single (b : bool) (s : string) :
  single_blanks b s = true -> single_blanks b (trimEnd s) = true.
Proof.
  revert b. induction s as [|c s IH]; intros b; [done|].
  cbn [trimEnd]. destruct (all_space (String c s)); [done|].
  cbn [single_blanks]. destruct (is_space c).
  - intros [H Hs]%andb_prop. by rewrite H, IH.
  - apply IH.
Qed.

Lemma all_space_trimEnd (s : string) : all_space (trimEnd s) = all_space s.
Proof.
  induction s as [|c s IH]; [done|].
  cbn [trimEnd]. destruct (all_space (String c s)) eqn:H; [done|].
  cbn [all_space] in H |- *. by rewrite IH.
Qed.

Lemma trimEnd_idem (s : string) : trimEnd (trimEnd s) = trimEnd s.
Proof.
  induction s as [|c s IH]; [done|].
  cbn [trimEnd]. destruct (all_space (String c s)) eqn:H; [done|].
  cbn [trimEnd]. cbn [all_space] in H |- *. by rewrite all_space_trimEnd, H, IH.
Qed.

Lemma trimStart_clean (s : string) : starts_clean (trimStart s) = true.
Proof.
  induction s as [|c s IH]; [done|].
  cbn [trimStart]. destruct (is_space c) eqn:Hc; [done|]. cbn. by rewrite Hc.
Qed.

Lemma starts_clean_trimStart (s : string) : starts_clean s = true -> trimStart s = s.
Proof. destruct s as [|c s]; [done|]. cbn. by destruct (is_space c). Qed.

Lemma trimEnd_clean (s : string) : starts_clean s = true -> starts_clean (trimEnd s) = true.
Proof.
  destruct s as [|c s]; [done|].
  cbn [trimEnd]. by destruct (all_space (String c s)).
Qed.

Lemma trim_idem (s : string) : trim (trim s) = trim s.
Proof.
  unfold trim.
  rewrite (starts_clean_trimStart (trimEnd _)); [apply trimEnd_idem|].
  apply trimEnd_clean, trimStart_clean.
Qed.

(** a trimmed text that is not empty starts with a character that is not
    white space *)
Lemma trim_nonempty (s : string) :
  nonempty (trim s) = true ->
  exists c r, trim s = String c r /\ is_space c = false.
Proof.
  intros H. pose proof (trimEnd_clean _ (trimStart_clean s)) as Hc. fold (trim s) in Hc.
  destruct (trim s) as [|c r]; [done|].
  exists c, r. split; [done|]. cbn in Hc. by destruct (is_space c).
Qed.

Lemma normalize_text_lower (s : string) :
  toLowerCase (normalize_text s) = normalize_text s.
Proof.
  apply toLowerCase_fixed. unfold normalize_text, trim, collapse_spaces.
  apply trimEnd_forall, trimStart_forall, collapse_from_forall; [done|].
  apply toLowerCase_forall.
Qed.

Lemma normalize_text_collapsed (s : string) :
  collapse_spaces (normalize_text s) = normalize_text s.
Proof.
  apply single_blanks_collapse. unfold normalize_text, trim, collapse_spaces.
  apply trimEnd_single, trimStart_single, collapse_from_single.
Qed.

(** X1: [normalize_text] is idempotent and does not see letter case, and so
    [tokenize], which starts by normalising, gives the same tokens for a
    text, for its normal form and for its lower case. *)
Theorem normalize_text_idempotent (s : string) :
  normalize_text (normalize_text s) = normalize_text s /\
  normalize_text (toLowerCase s) = normalize_text s /\
  tokenize (normalize_text s) = tokenize s /\
  tokenize (toLowerCase s) = tokenize s.
Proof.
  assert (Hidem : normalize_text (normalize_text s) = normalize_text s).
  { unfold normalize_text at 1.
    rewrite normalize_text_lower, normalize_text_collapsed.
    unfold normalize_text. apply trim_idem. }
  assert (Hlow : normalize_text (toLowerCase s) = normalize_text s).
  { unfold normalize_text. by rewrite toLowerCase_idem. }
  unfold tokenize. by rewrite Hidem, Hlow.
Qed.

Lemma string_forall_app (P : ascii -> bool) (s t : string) :
  string_forall P (s ++ t)%string = string_forall P s && string_forall P t.
Proof.
  induction s as [|c s IH]; simpl; [done|].
  by rewrite IH, andb_assoc.
Qed.

Lemma split_from_pieces (P : ascii -> bool) (cur : string) (b : bool) (s : string) :
  string_forall P cur = true ->
  string_forall (fun c => is_space c || P c) s = true ->
  Forall (fun t => string_forall P t = true) (split_from cur b s).
Proof.
  revert cur b. induction s as [|c s IH]; intros cur b Hcur; cbn [split_from string_forall].
  - intros _. by constructor.
  - intros [Hc Hs]%andb_prop. destruct (is_space c) eqn:Hsp.
    + destruct b; [by apply IH|]. constructor; [done|]. by apply IH.
    + apply IH; [|done]. rewrite string_forall_app, Hcur. cbn [string_forall].
      cbn [orb] in Hc. by rewrite Hc.
Qed.

Lemma blank_non_token_chars (s : string) :
  string_forall (fun c => is_space c || is_alnum c) (blank_non_token s) = true.
Proof.
  induction s as [|c s IH]; cbn [blank_non_token string_forall]; [done|].
  rewrite IH, andb_true_r. unfold is_token_char, is_alnum.
  destruct (_ || _ || is_space c) eqn:H; [|done].
  destruct (is_space c); [done|]. cbn [orb]. by rewrite orb_false_r in H.
Qed.

(** X2: [tokenize] gives at most 120 tokens; none is empty and each is made
    of the characters a-z and 0-9 only, whatever the text holds. *)
Theorem tokenize_tokens (text : string) :
  length (tokenize text) <= 120 /\
  Forall (fun t => nonempty t = true /\ string_forall is_alnum t = true) (tokenize text).
Proof.
  unfold tokenize. split; [rewrite length_take; lia|].
  apply Forall_take, Forall_forall. intros t [Ht Hne]%list_elem_of_In%filter_In.
  split; [done|]. apply list_elem_of_In in Ht.
  pose proof (split_from_pieces is_alnum "" false _ eq_refl
                (blank_non_token_chars (normalize_text text))) as H.
  rewrite Forall_forall in H. by apply H.
Qed.

End text_facts.

(** ** What training does, seen through [stats] *)

Section training.

Lemma fill_lookup {V : Type} (f : string → V) ls : ∀ (m : gmap string V) k,
  foldl (fun out l => <[l := f l]> out) m ls !! k
  = if decide (k ∈ ls) then Some (f k) else m !! k.
Proof.
  induction ls as [|l ls IH]; intros m k; cbn [foldl].
  - rewrite decide_False; [done | apply not_elem_of_nil].
  - rewrite IH. destruct (decide (k ∈ ls)) as [Hin|Hin].
    + rewrite decide_True; [done | by apply elem_of_cons; right].
    + rewrite lookup_insert. destruct (decide (l = k)) as [->|Hne].
      * rewrite decide_True; [done | by apply elem_of_cons; left].
      * rewrite decide_False; [done|].
        intros [?|?]%elem_of_cons; congruence.
Qed.

Lemma stats_lookup st l :
  perLabel (stats st) !! l
  = if decide (l ∈ labels st)
    then Some {| docs := count_of (docCounts st) l; words := count_of (totalWords st) l |}
    else None.
Proof.
  unfold stats. cbn [perLabel].
  rewrite (fill_lookup (fun l => LabelStats (count_of (docCounts st) l)
                                   (count_of (totalWords st) l))).
  by case_decide.
Qed.

Lemma createNaiveBayesModel_dom ls :
  dom (wordCounts (createNaiveBayesModel ls)) = list_to_set ls.
Proof.
  unfold createNaiveBayesModel. generalize ls at 1. intros ls0.
  assert (H : ∀ st,
    dom (wordCounts (foldl (fun st l =>
           {| labels := labels st;
              wordCounts := <[l := ∅]> (wordCounts st);
              docCounts := <[l := 0]> (docCounts st);
              totalWords := <[l := 0]> (totalWords st);
              vocab := vocab st |}) st ls))
    = dom (wordCounts st) ∪ list_to_set ls).
  { induction ls as [|l ls IH]; intros st; cbn [foldl list_to_set].
    - set_solver.
    - rewrite IH. cbn [wordCounts]. rewrite dom_insert_L. set_solver. }
  rewrite H. cbn [wordCounts]. rewrite dom_empty_L. set_solver.
Qed.

Lemma add_token_dom label st tok :
  is_Some (wordCounts st !! label) →
  dom (wordCounts (add_token label st tok)) = dom (wordCounts st).
Proof.
  intros Hl%elem_of_dom. unfold add_token. cbn [wordCounts].
  rewrite dom_insert_L. set_solver.
Qed.

(** the token loop of [trainOne], field by field *)
Lemma add_tokens_fields label toks : ∀ st,
  is_Some (wordCounts st !! label) →
  let st' := foldl (add_token label) st toks in
  labels st' = labels st ∧
  dom (wordCounts st') = dom (wordCounts st) ∧
  docCounts st' = docCounts st ∧
  (∀ l, count_of (totalWords st') l
        = count_of (totalWords st) l + (if decide (l = label) then length toks else 0)) ∧
  vocab st' = vocab st ∪ list_to_set toks.
Proof.
  induction toks as [|tok toks IH]; intros st Hl; cbn [foldl].
  - repeat split; try done.
    + intros l. cbn [length]. case_decide; lia.
    + cbn [list_to_set]. set_solver.
  - destruct (IH (add_token label st tok)) as (H1 & H2 & H3 & H4 & H5).
    { by apply add_token_wordCounts. }
    cbv zeta. rewrite H1, H2, H3, H5. repeat split.
    + by apply add_token_dom.
    + intros l. rewrite H4. unfold add_token at 1. cbn [totalWords length].
      rewrite count_of_insert. repeat case_decide; subst; try done; lia.
    + unfold add_token. cbn [vocab list_to_set]. set_solver.
Qed.

Lemma trainOne_known label text st :
  is_Some (wordCounts st !! label) →
  trainOne label text st
  = foldl (add_token label) (count_document label st) (Text.tokenize text).
Proof. intros [m Hm]. unfold trainOne. by rewrite Hm. Qed.

Lemma trainOne_unknown label text st :
  wordCounts st !! label = None → trainOne label text st = st.
Proof. intros Hm. unfold trainOne. by rewrite Hm. Qed.

Lemma trainOne_dom label text st :
  dom (wordCounts (trainOne label text st)) = dom (wordCounts st).
Proof.
  destruct (wordCounts st !! label) as [m|] eqn:Hm.
  - rewrite trainOne_known by done.
    by destruct (add_tokens_fields label (Text.tokenize text) (count_document label st))
      as (_ & -> & _); [cbn [count_document wordCounts]; by rewrite Hm|].
  - by rewrite trainOne_unknown.
Qed.

Lemma trainBatch_dom samples : ∀ st,
  dom (wordCounts (trainBatch samples st)) = dom (wordCounts st).
Proof.
  unfold trainBatch. induction samples as [|s samples IH]; intros st; cbn [foldl]; [done|].
  by rewrite IH, trainOne_dom.
Qed.

(** in a classifier made by [createNaiveBayesModel] and trained since, the
    labels with a token map are the ones it was created with *)
Lemma trained_known ls history l :
  is_Some (wordCounts (trainBatch history (createNaiveBayesModel ls)) !! l) ↔ l ∈ ls.
Proof.
  rewrite <- elem_of_dom, trainBatch_dom, createNaiveBayesModel_dom. set_solver.
Qed.

Lemma size_list_to_set_le (toks : list string) :
  size (list_to_set toks : gset string) <= length toks.
Proof.
  induction toks as [|t toks IH]; cbn [list_to_set length].
  - by rewrite size_empty.
  - rewrite size_union_alt, size_singleton.
    pose proof (subseteq_size (list_to_set toks ∖ {[t]}) (list_to_set toks : gset string)
                  ltac:(set_solver)).
    lia.
Qed.

(** X3: What one [trainOne] call does to a classifier in use, as [stats]
    shows it.  For a label the classifier was created with, that label gets
    one more document and as many more words as the text has tokens, the
    other labels' numbers stay, and the vocabulary gains exactly the text's
    tokens, so its size grows by at most their number.  For any other label
    the call changes nothing at all. *)
Theorem trainOne_effect (ls : list string) (history : list sample) (label text : string) :
  let st := trainBatch history (createNaiveBayesModel ls) in
  let st' := trainOne label text st in
  let toks := Text.tokenize text in
  if decide (label ∈ ls)
  then
    (∃ d w,
       perLabel (stats st) !! label = Some {| docs := d; words := w |} ∧
       perLabel (stats st') !! label = Some {| docs := d + 1; words := w + length toks |}) ∧
    (∀ l, l ≠ label → perLabel (stats st') !! l = perLabel (stats st) !! l) ∧
    vocab st' = vocab st ∪ list_to_set toks ∧
    stats_vocabSize (stats st) <= stats_vocabSize (stats st')
      <= stats_vocabSize (stats st) + length toks
  else st' = st.
Proof.
  intros st st' toks.
  pose proof (trained_known ls history label) as Hknown. fold st in Hknown.
  assert (Hls : labels st = ls).
  { unfold st. by rewrite trainBatch_labels, createNaiveBayesModel_labels. }
  case_decide as Hin.
  - apply Hknown in Hin as Hsome.
    destruct (add_tokens_fields label toks (count_document label st))
      as (H1 & H2 & H3 & H4 & H5); [done|].
    cbv zeta in H1, H2, H3, H4, H5.
    assert (Hst' : st' = foldl (add_token label) (count_document label st) toks)
      by (by apply trainOne_known).
    rewrite <- Hst' in H1, H2, H3, H4, H5.
    cbn [count_document labels docCounts totalWords vocab] in H1, H3, H4, H5.
    split; [|split; [|split]].
    + exists (count_of (docCounts st) label), (count_of (totalWords st) label).
      rewrite !stats_lookup, H1, Hls, !decide_True by done.
      split; [done|]. rewrite H3, H4, count_of_insert, !decide_True by done. done.
    + intros l Hne. rewrite !stats_lookup, H1. case_decide; [|done].
      rewrite H3, H4, count_of_insert, !decide_False by done.
      by rewrite Nat.add_0_r.
    + done.
    + unfold stats. cbn [stats_vocabSize]. rewrite H5. split.
      * apply subseteq_size. set_solver.
      * rewrite size_union_alt.
        pose proof (subseteq_size (list_to_set toks ∖ vocab st)
                      (list_to_set toks : gset string) ltac:(set_solver)).
        pose proof (size_list_to_set_le toks). lia.
  - apply trainOne_unknown.
    apply eq_None_not_Some. intros Hm. by apply Hin, Hknown.
Qed.

(** two bookkeeping steps commute *)
Lemma add_token_comm l1 l2 t1 t2 st :
  add_token l1 (add_token l2 st t2) t1 = add_token l2 (add_token l1 st t1) t2.
Proof.
  unfold add_token. cbn [labels wordCounts docCounts totalWords vocab].
  destruct (decide (l1 = l2)) as [->|Hl].
  - rewrite !lookup_insert_eq. cbn [default from_option]. unfold Datatypes.id.
    destruct (decide (t1 = t2)) as [->|Ht]; [done|].
    rewrite !count_of_insert.
    rewrite !(decide_True (P := l2 = l2)), ?(decide_False (P := t1 = t2)),
      ?(decide_False (P := t2 = t1)) by done.
    rewrite !insert_insert_eq.
    rewrite (insert_insert_ne _ t1 t2) by done.
    f_equal. set_solver.
  - rewrite !lookup_insert_ne by done.
    rewrite !count_of_insert, ?(decide_False (P := l1 = l2)),
      ?(decide_False (P := l2 = l1)) by done.
    rewrite (insert_insert_ne (wordCounts st) l1 l2) by done.
    rewrite (insert_insert_ne (totalWords st) l1 l2) by done.
    f_equal. set_solver.
Qed.

Lemma count_document_add_token l1 l2 t st :
  count_document l1 (add_token l2 st t) = add_token l2 (count_document l1 st) t.
Proof. done. Qed.

Lemma count_document_comm l1 l2 st :
  count_document l1 (count_document l2 st) = count_document l2 (count_document l1 st).
Proof.
  unfold count_document. cbn [labels wordCounts docCounts totalWords vocab]. f_equal.
  destruct (decide (l1 = l2)) as [->|Hl]; [done|].
  rewrite !count_of_insert, ?(decide_False (P := l1 = l2)),
    ?(decide_False (P := l2 = l1)) by done.
  by apply insert_insert_ne.
Qed.

Lemma foldl_comm {A B C : Type} (f : A → B → A) (g : A → C → A) :
  (∀ s x y, f (g s y) x = g (f s x) y) →
  ∀ xs ys s, foldl f (foldl g s ys) xs = foldl g (foldl f s xs) ys.
Proof.
  intros Hfg.
  assert (H1 : ∀ ys s x, f (foldl g s ys) x = foldl g (f s x) ys).
  { induction ys as [|y ys IH]; intros s x; cbn [foldl]; [done|].
    by rewrite IH, Hfg. }
  induction xs as [|x xs IH]; intros ys s; cbn [foldl]; [done|].
  by rewrite H1, IH.
Qed.

Lemma count_document_add_tokens l1 l2 ts st :
  count_document l1 (foldl (add_token l2) st ts)
  = foldl (add_token l2) (count_document l1 st) ts.
Proof.
  revert st. induction ts as [|t ts IH]; intros st; cbn [foldl]; [done|].
  by rewrite IH.
Qed.

Lemma trainOne_comm l1 x1 l2 x2 st :
  trainOne l1 x1 (trainOne l2 x2 st) = trainOne l2 x2 (trainOne l1 x1 st).
Proof.
  assert (Hsome : ∀ l l' x, is_Some (wordCounts (trainOne l' x st) !! l)
                            ↔ is_Some (wordCounts st !! l)).
  { intros l l' x. by rewrite <- !elem_of_dom, trainOne_dom. }
  destruct (wordCounts st !! l1) as [m1|] eqn:H1;
    destruct (wordCounts st !! l2) as [m2|] eqn:H2.
  - rewrite (trainOne_known l1 x1 (trainOne _ _ _)) by (apply Hsome; by rewrite H1).
    rewrite (trainOne_known l2 x2 (trainOne _ _ _)) by (apply Hsome; by rewrite H2).
    rewrite !trainOne_known by (by rewrite ?H1, ?H2).
    rewrite !count_document_add_tokens, count_document_comm.
    apply foldl_comm. intros s x y. apply add_token_comm.
  - rewrite (trainOne_unknown l2 x2 st) by done.
    rewrite (trainOne_unknown l2 x2 (trainOne _ _ _)); [done|].
    apply eq_None_not_Some. rewrite Hsome. by rewrite H2; intros [? ?].
  - rewrite (trainOne_unknown l1 x1 st) by done.
    rewrite (trainOne_unknown l1 x1 (trainOne _ _ _)); [done|].
    apply eq_None_not_Some. rewrite Hsome. by rewrite H1; intros [? ?].
  - by rewrite (trainOne_unknown l2 x2 st), !(trainOne_unknown l1 x1 st),
      (trainOne_unknown l2 x2 st).
Qed.

(** X4: the classifier does not depend on the order in which it saw its
    training samples: batches that are permutations of each other leave the
    same state, from any starting state. *)
Theorem trainBatch_order_irrelevant (samples samples' : list sample) (st : model) :
  Permutation samples samples' → trainBatch samples st = trainBatch samples' st.
Proof.
  intros Hperm. revert st. unfold trainBatch.
  induction Hperm as [|s l l' _ IH|s s' l|l l' l'' _ IH1 _ IH2]; intros st; cbn [foldl].
  - done.
  - apply IH.
  - by rewrite trainOne_comm.
  - by rewrite IH1, IH2.
Qed.

(** the seed samples in reverse order give the classifier the server starts
    with *)
Lemma trainBatch_order_irrelevant_witness :
  trainBatch (rev SEED_TRAINING) (createNaiveBayesModel GENRE_LABELS) = GENRE_MODEL_0.
Proof.
  apply (trainBatch_order_irrelevant (rev SEED_TRAINING) SEED_TRAINING).
  symmetry. apply Permutation_rev.
Defined.

End training.

(** ** The softmax in closed form *)

Section softmax_formula.

Local Open Scope R_scope.

Lemma Rsum_ext (a b : string → R) ls :
  (∀ l, a l = b l) → Rsum (map a ls) = Rsum (map b ls).
Proof. intros H. f_equal. apply map_ext. intros l. apply H. Qed.

(** X5: over finite scores for distinct keys, [softmaxFromLogScores] is the
    textbook softmax, exp(s_k) / sum_j exp(s_j), key by key and in the keys'
    order: subtracting the maximum first changes nothing in the result. *)
Theorem softmax_closed_form (s : string → R) (ls : list string) :
  NoDup ls → ls ≠ [] →
  softmaxFromLogScores (map (fun l => (l, Fin (s l))) ls)
  = map (fun l => (l, Fin (exp (s l) / Rsum (map (fun k => exp (s k)) ls)))) ls.
Proof.
  intros Hnd Hne.
  destruct (softmax_max_finite s ls Hne) as [M HM].
  set (e := fun l => exp (s l - M)).
  set (S := Rsum (map e ls)).
  assert (He : ∀ l, 0 < e l) by (intros l; apply exp_pos).
  assert (HS : 0 < S) by (by apply Rsum_pos).
  assert (Hexps : softmax_exps (map (fun l => (l, Fin (s l))) ls)
                  = (map (fun l => (l, Fin (e l))) ls, Fin S)).
  { unfold softmax_exps. rewrite HM.
    etrans; [apply (softmax_exps_tabulated s M ls [] 0 Hnd);
             intros l _; apply not_elem_of_nil|].
    simpl. fold e. fold S. by rewrite Rplus_0_l. }
  unfold softmaxFromLogScores. rewrite Hexps.
  rewrite (softmax_probs_tabulated e S ls []); [| lra | done |];
    [|intros l _; apply not_elem_of_nil].
  cbn [List.app]. apply map_ext. intros l. do 2 f_equal.
  assert (Hshift : ∀ k, e k = exp (s k) / exp M).
  { intros k. unfold e, Rminus, Rdiv. by rewrite exp_plus, exp_Ropp. }
  unfold S. rewrite (Rsum_ext e (fun k => exp (s k) / exp M)) by done.
  rewrite Rsum_scale, Hshift.
  pose proof (exp_pos M) as HeM.
  assert (HT : 0 < Rsum (map (fun k => exp (s k)) ls)).
  { apply (Rsum_pos (fun k => exp (s k))); [|done]. intros k. apply exp_pos. }
  field. split; lra.
Qed.

(** six equal scores give six equal probabilities *)
Lemma softmax_closed_form_witness :
  softmaxFromLogScores (map (fun l => (l, Fin 0)) GENRE_LABELS)
  = map (fun l => (l, Fin (exp 0 / Rsum (map (fun _ => exp 0) GENRE_LABELS))))
        GENRE_LABELS.
Proof.
  apply (softmax_closed_form (fun _ => 0) GENRE_LABELS).
  - apply (bool_decide_unpack _). by vm_compute.
  - discriminate.
Defined.

End softmax_formula.

(** ** What decides the genre *)

Section decision_facts.

Lemma heuristic_notes bio location :
  snd (heuristic_priors bio location)
  = (if no_bio bio then [NoBio] else [])
    ++ (if name_only_bio bio then [NameOnlyBio] else [])
    ++ (if nyc_location location then [NycLocation] else [])
    ++ (if tech_hub_location location then [TechHubLocation] else []).
Proof.
  unfold heuristic_priors.
  by destruct (no_bio bio), (name_only_bio bio), (nyc_location location),
    (tech_hub_location location).
Qed.

(** a bio that normalises to nothing is trimmed to nothing *)
Lemma trimmed_bio_normalizes (s : string) :
  Text.nonempty (Text.trim s) = true →
  Text.nonempty (Text.normalize_text (Text.trim s)) = true.
Proof.
  intros (c & r & Hs & Hc)%trim_nonempty. rewrite Hs.
  unfold Text.normalize_text, Text.collapse_spaces, Text.trim.
  cbn [Text.toLowerCase Text.collapse_from]. rewrite lower_char_space, Hc.
  cbn [Text.trimStart]. rewrite lower_char_space, Hc.
  cbn [Text.trimEnd Text.all_space]. rewrite lower_char_space, Hc. done.
Qed.

(** X6: the rule for a missing bio and the rule for a bio that is only a
    name never fire together: no decision carries both notes, so Drama's
    0.7 and Thriller's 0.9 are never both added. *)
Theorem no_bio_and_name_only_exclude (st : model) (bio location : string)
    (userBias : gmap string (num Q)) :
  no_bio bio && name_only_bio bio = false ∧
  let d := choose_genre_deep st bio location userBias in
  NoBio ∉ notes d ∨ NameOnlyBio ∉ notes d.
Proof.
  assert (H : no_bio bio && name_only_bio bio = false).
  { unfold no_bio, name_only_bio.
    destruct (Text.nonempty (Text.trim bio)) eqn:Hne; [|by rewrite andb_false_r].
    by rewrite trimmed_bio_normalizes. }
  split; [done|]. cbv zeta. unfold choose_genre_deep. cbn [notes].
  rewrite heuristic_notes.
  destruct (no_bio bio), (name_only_bio bio); try done.
  - right. destruct (nyc_location location), (tech_hub_location location); set_solver.
  - left. destruct (nyc_location location), (tech_hub_location location); set_solver.
  - left. destruct (nyc_location location), (tech_hub_location location); set_solver.
Qed.

(** X7: the genre a decision names is always one of the six labels, for
    every bio, location and bias and every training history, and the search
    term made from it is the label itself, but for Sci-Fi, which is searched
    as "science fiction". *)
Theorem decision_genre_and_search_term (history : list sample) (bio location : string)
    (userBias : gmap string (num Q)) :
  let d := choose_genre_deep (trainBatch history (createNaiveBayesModel GENRE_LABELS))
             bio location userBias in
  genre d ∈ GENRE_LABELS ∧
  genre_to_search_term (genre d)
  = if bool_decide (genre d = "Sci-Fi") then "science fiction" else genre d.
Proof.
  intros d.
  destruct (decision_anatomy _ bio location userBias (reachable_labels history))
    as (prob & i & _ & _ & _ & Hrest).
  cbv zeta in Hrest. destruct Hrest as (_ & Hi & _).
  fold d in Hi.
  assert (Hg : genre d ∈ GENRE_LABELS).
  { apply priority_labels. by eapply list_elem_of_lookup_2. }
  split; [done|]. revert Hg. generalize (genre d).
  apply label_cases; by vm_compute.
Qed.

Lemma heuristic_prior_range bio location l :
  (0 <= heuristic_prior bio location l <= 9 # 10)%Q.
Proof.
  unfold heuristic_prior.
  destruct (no_bio bio), (name_only_bio bio), (nyc_location location),
    (tech_hub_location location);
    rewrite ?andb_true_r, ?andb_false_r;
    repeat case_bool_decide; simplify_eq; split; vm_compute; discriminate.
Qed.

Lemma probability_below_one (prob : string → R) l :
  (∀ l, 0 < prob l)%R → Rsum (map prob GENRE_LABELS) = 1%R →
  l ∈ GENRE_LABELS → (prob l < 1)%R.
Proof.
  intros Hpos Hsum. unfold GENRE_LABELS in Hsum. cbn [map Rsum foldr] in Hsum.
  pose proof (Hpos "Sci-Fi"%string). pose proof (Hpos "Action"%string).
  pose proof (Hpos "Thriller"%string). pose proof (Hpos "Drama"%string).
  pose proof (Hpos "Mystery"%string). pose proof (Hpos "Romance"%string).
  revert l. apply label_cases; lra.
Qed.



(** X9: feedback can override everything else: once a label's bias is 1.9
    or more (the cap is 2) and no other label has a positive bias, that
    label is chosen for every bio and location and every state of the
    classifier. *)
Theorem strong_bias_decides (history : list sample) (bio location : string)
    (userBias : gmap string (num Q)) (g : string) :
  g ∈ GENRE_LABELS →
  (19 # 10 <= bias_effect userBias g)%Q →
  (∀ l, l ∈ GENRE_LABELS → l ≠ g → (bias_effect userBias l <= 0)%Q) →
  genre (choose_genre_deep (trainBatch history (createNaiveBayesModel GENRE_LABELS))
           bio location userBias) = g.
Proof.
  intros Hg Hbig Hrest.
  destruct (decision_anatomy _ bio location userBias (reachable_labels history))
    as (prob & i & _ & Hpos & Hsum & Hmore).
  cbv zeta in Hmore. destruct Hmore as (_ & Hi & Hmax & _).
  set (d := choose_genre_deep _ _ _ _) in *.
  assert (Hd : genre d ∈ GENRE_LABELS).
  { apply priority_labels. by eapply list_elem_of_lookup_2. }
  destruct (decide (genre d = g)) as [|Hne]; [done|]. exfalso.
  pose proof (proj1 (Forall_forall _ _) Hmax g Hg) as Hle. cbv beta in Hle.
  pose proof (probability_below_one prob (genre d) Hpos Hsum Hd) as Hlt.
  pose proof (Hpos g) as Hpg.
  assert (HQ : (prior_value bio location userBias (genre d) + 1
                <= prior_value bio location userBias g)%Q).
  { unfold prior_value.
    pose proof (heuristic_prior_range bio location (genre d)) as [_ H1].
    pose proof (heuristic_prior_range bio location g) as [H2 _].
    pose proof (Hrest (genre d) Hd Hne) as H3.
    Lqa.lra. }
  apply Qle_Rle in HQ.
  rewrite Q2R_plus in HQ. change (Q2R 1) with (Q2R (1 # 1)) in HQ.
  unfold Q2R at 2 in HQ. cbn [Qnum Qden] in HQ.
  replace (IZR 1 * / IZR (Z.pos 1))%R with 1%R in HQ by (simpl; lra).
  lra.
Qed.

Lemma strong_bias_decides_witness :
  genre (choose_genre_deep GENRE_MODEL_0 "coding in new york" "Seattle"
           {[ "Romance" := Fin 2%Q ]}) = "Romance".
Proof.
  apply (strong_bias_decides SEED_TRAINING "coding in new york" "Seattle"
           {[ "Romance" := Fin 2%Q ]} "Romance").
  - apply (bool_decide_unpack _). by vm_compute.
  - vm_compute. discriminate.
  - apply (label_cases (fun l => l ≠ "Romance" → _)); intros Hne; try done;
      vm_compute; discriminate.
Defined.

End decision_facts.

(** ** Request parameters *)

Section params.

(** X10: [clamp_int] gives the fallback exactly when the text does not
    start with an integer; otherwise, for bounds in order, it gives a value
    within the bounds, and the parsed integer itself when that is within
    them. *)
Theorem clamp_int_range (v : option string) (min max fallback : Z) :
  (min <= max)%Z →
  match parseInt v with
  | None => clamp_int v min max fallback = fallback
  | Some k =>
      (min <= clamp_int v min max fallback <= max)%Z ∧
      ((min <= k <= max)%Z → clamp_int v min max fallback = k)
  end.
Proof.
  intros Hle. unfold clamp_int. destruct (parseInt v) as [k|]; [|done]. lia.
Qed.

Lemma clamp_int_range_witness :
  (1 <= clamp_int (Some " 42 movies") 1 10 10 <= 10)%Z ∧
  ((1 <= 42 <= 10)%Z → clamp_int (Some " 42 movies") 1 10 10 = 42%Z).
Proof.
  apply (clamp_int_range (Some " 42 movies") 1 10 10). lia.
Defined.

(** X11: [clamp_float] always gives a finite number: the fallback when the
    text does not start with a number, and otherwise, for bounds in order, a
    value within the bounds (an infinite reading goes to the nearer bound),
    equal to the parsed number when that is within them. *)
Theorem clamp_float_range (v : option string) (min max fallback : Q) :
  (min <= max)%Q →
  ∃ r : Q,
    clamp_float v min max fallback = Fin r ∧
    match parseFloat v with
    | NaN => r = fallback
    | Fin x => (min <= r <= max)%Q ∧ ((min <= x <= max)%Q → (r == x)%Q)
    | PosInf => (r == max)%Q
    | NegInf => (r == min)%Q
    end.
Proof.
  intros Hle. unfold clamp_float.
  destruct (parseFloat v) as [x| | |]; cbn [Math_max Math_min].
  - exists (Qmax min (Qmin max x)). split; [done|]. split.
    + split; [apply Q.le_max_l|].
      apply Q.max_lub; [done | apply Q.le_min_l].
    + intros [H1 H2]. rewrite (Q.min_r max x) by done. by apply Q.max_r.
  - exists (Qmax min max). split; [done|]. by apply Q.max_r.
  - exists min. split; [done|]. reflexivity.
  - by exists fallback.
Qed.

Lemma clamp_float_range_witness :
  ∃ r : Q,
    clamp_float (Some "7.5") 0 10 7 = Fin r ∧
    match parseFloat (Some "7.5") with
    | NaN => r = 7%Q
    | Fin x => (0 <= r <= 10)%Q ∧ ((0 <= x <= 10)%Q → (r == x)%Q)
    | PosInf => (r == 10)%Q
    | NegInf => (r == 0)%Q
    end.
Proof.
  apply (clamp_float_range (Some "7.5") 0 10 7). discriminate.
Defined.


End params.

(** ** Escaping *)

Section escaping.

Lemma append_cons x (a b : string) : (String x a ++ b = String x (a ++ b))%string.
Proof. done. Qed.

Lemma append_assoc (a b c : string) : ((a ++ b) ++ c = a ++ (b ++ c))%string.
Proof.
  induction a as [|x a IH]; [done|]. by rewrite !append_cons, IH.
Qed.

Lemma replaceAll_app c r (a b : string) :
  replaceAll c r (a ++ b)%string = (replaceAll c r a ++ replaceAll c r b)%string.
Proof.
  induction a as [|x a IH]; [done|].
  rewrite append_cons. cbn [replaceAll].
  destruct (Ascii.eqb x c); rewrite IH; [by rewrite append_assoc | done].
Qed.

Lemma replaceAll_flat_map c r f s :
  replaceAll c r (string_flat_map f s) = string_flat_map (fun x => replaceAll c r (f x)) s.
Proof.
  induction s as [|x s IH]; cbn [string_flat_map]; [done|].
  by rewrite replaceAll_app, IH.
Qed.

Lemma replaceAll_per_character c r s :
  replaceAll c r s = string_flat_map (fun x => if Ascii.eqb x c then r else String x "") s.
Proof.
  induction s as [|x s IH]; cbn [string_flat_map replaceAll]; [done|].
  rewrite IH. by destruct (Ascii.eqb x c).
Qed.

Lemma string_flat_map_ext f g s :
  (∀ c, f c = g c) → string_flat_map f s = string_flat_map g s.
Proof.
  intros H. induction s as [|x s IH]; cbn [string_flat_map]; [done|]. by rewrite H, IH.
Qed.

Lemma escape_html_per_character (s : string) :
  escape_html s = string_flat_map entity s.
Proof.
  unfold escape_html.
  rewrite (replaceAll_per_character "&"), !replaceAll_flat_map.
  apply string_flat_map_ext. intros c. each_char c; reflexivity.
Qed.

Lemma occurs_app c (a b : string) : occurs c (a ++ b)%string = occurs c a || occurs c b.
Proof.
  induction a as [|x a IH]; [done|].
  rewrite append_cons. cbn [occurs]. by rewrite IH, orb_assoc.
Qed.

Lemma occurs_flat_map c f s :
  (∀ x, occurs c (f x) = false) → occurs c (string_flat_map f s) = false.
Proof.
  intros H. induction s as [|x s IH]; cbn [string_flat_map]; [done|].
  by rewrite occurs_app, H, IH.
Qed.

(** X12: [escape_html] rewrites each character on its own: the five
    characters & < > " ' become their entities and every other character
    stays, so the & of an entity the function has just written is never
    escaped again.  Its result holds none of < > " ', and the result of
    [escape_attr] holds no backquote either. *)
Theorem escape_html_is_safe (s : string) :
  escape_html s = string_flat_map entity s ∧
  occurs "<" (escape_html s) = false ∧
  occurs ">" (escape_html s) = false ∧
  occurs dquote (escape_html s) = false ∧
  occurs "'" (escape_html s) = false ∧
  Forall (fun c => occurs c (escape_attr s) = false)
         ["<"; ">"; dquote; "'"; "`"]%char.
Proof.
  split; [apply escape_html_per_character|].
  rewrite escape_html_per_character.
  repeat split; try (apply occurs_flat_map; intros c; each_char c; reflexivity).
  unfold escape_attr. rewrite escape_html_per_character, replaceAll_flat_map.
  repeat constructor; apply occurs_flat_map; intros c; each_char c; reflexivity.
Qed.

(** X13: escaping loses nothing: reading the five entities back gives the
    text that was escaped, so two different texts never have the same
    escaped form. *)
Theorem escape_html_round_trip (s : string) :
  unescape_html (escape_html s) = s.
Proof.
  rewrite escape_html_per_character.
  induction s as [|c s IH]; [done|].
  cbn [string_flat_map]. rewrite <- IH at 2.
  generalize (string_flat_map entity s). intros r.
  each_char c; reflexivity.
Qed.

End escaping.

(** ** The rule-based chooser of the earlier version *)

Section legacy.

Lemma nonempty_false (s : string) : Text.nonempty s = false → s = "".
Proof. by destruct s. Qed.

(** X14: the earlier chooser names one of four genres, and it looks at the
    location only when the bio normalises to the empty text: for any other
    bio the decision is the same at every location. *)
Theorem legacy_chooser_genres (bio location location' : string) :
  fst (Legacy.choose_genre_from_bio_location bio location)
    ∈ ["Sci-Fi"; "Action"; "Drama"; "Thriller"] ∧
  (Legacy.choose_genre_from_bio_location bio location
   = Legacy.choose_genre_from_bio_location bio location'
   ∨ Text.normalize_text bio = "").
Proof.
  unfold Legacy.choose_genre_from_bio_location. cbv zeta.
  destruct (Legacy.contains_any_phrase _ _).
  { split; [set_solver | by left]. }
  destruct (Text.nonempty (Text.normalize_text bio)) eqn:Hb; cbn [negb].
  - split; [|by left]. destruct (Text.is_name_only_bio bio); set_solver.
  - split; [|right; by apply nonempty_false].
    destruct (_ || _); set_solver.
Qed.

End legacy.

(** ** The pipeline from the first search to the callback *)

Section pipeline.

(** one candidate: what is accepted, what is recorded, what is requested *)
Lemma fetch_details_step_trace api c rest acc limit min_rating dbg reqs :
  (Z.of_nat (length acc) < limit)%Z →
  fetch_details_sequential api (c :: rest) acc limit min_rating dbg reqs
  = fetch_details_sequential api rest
      (acc ++ option_list (accept api min_rating c)) limit min_rating
      (dbg ++ option_list (filtered_out api min_rating c))
      (reqs ++ detail_requests [c]).
Proof.
  intros Hlt.
  assert (Hreq : detail_requests [c]
                 = match truthy_str (c ≫= s_imdbID) with
                   | Some id => [GetDetail id]
                   | None => []
                   end).
  { unfold detail_requests. simpl. by destruct (truthy_str _). }
  rewrite Hreq. cbn [fetch_details_sequential].
  destruct (Z.leb_spec limit (Z.of_nat (length acc))) as [Hle|_]; [lia|].
  unfold accept, filtered_out.
  destruct (truthy_str (c ≫= s_imdbID)) as [id|]; cbn [option_list map].
  2:{ by rewrite !app_nil_r. }
  destruct (detail api id) as [e|[m|]]; cbn [option_list].
  - by rewrite !app_nil_r.
  - destruct (bool_decide (Response m = Some "False"%string)); cbn [negb andb].
    + by rewrite !app_nil_r.
    + destruct (isFinite (parseFloat (imdbRating m)) && qge (parseFloat (imdbRating m)) min_rating)
        eqn:Hpass; cbn [option_list negb].
      * by rewrite app_nil_r.
      * by rewrite app_nil_r.
  - by rewrite !app_nil_r.
Qed.

Lemma accepted_cons api min_rating c l :
  accepted api min_rating (c :: l)
  = option_list (accept api min_rating c) ++ accepted api min_rating l.
Proof. unfold accepted. simpl. by destruct (accept api min_rating c). Qed.

Lemma omap_cons_option_list {A B : Type} (f : A → option B) c l :
  omap f (c :: l) = option_list (f c) ++ omap f l.
Proof. simpl. by destruct (f c). Qed.

(** the whole detail phase *)
Lemma fetch_details_trace api min_rating limit candidates : ∀ acc dbg reqs,
  (Z.of_nat (length acc) <= limit)%Z →
  ∃ fetched rest,
    candidates = fetched ++ rest ∧
    fetch_details_sequential api candidates acc limit min_rating dbg reqs
    = Outcome None (acc ++ accepted api min_rating fetched)
        (dbg ++ omap (filtered_out api min_rating) fetched)
        (reqs ++ detail_requests fetched) ∧
    acc ++ accepted api min_rating fetched
    = take (Z.to_nat limit) (acc ++ accepted api min_rating candidates).
Proof.
  induction candidates as [|c cands IH]; intros acc dbg reqs Hacc.
  - exists [], []. split; [done|]. cbn [fetch_details_sequential].
    unfold accepted, detail_requests. simpl. rewrite !app_nil_r.
    split; [by destruct (_ <=? _)%Z|]. rewrite take_ge; [done | lia].
  - destruct (Z.eq_dec (Z.of_nat (length acc)) limit) as [Hfull|Hroom].
    + exists [], (c :: cands). split; [done|]. cbn [fetch_details_sequential].
      destruct (Z.leb_spec limit (Z.of_nat (length acc))) as [_|Hlt]; [|lia].
      unfold accepted at 1 2, detail_requests. simpl. rewrite !app_nil_r.
      split; [done|]. rewrite take_app_length'; [done | lia].
    + rewrite fetch_details_step_trace by lia.
      destruct (IH (acc ++ option_list (accept api min_rating c))
                   (dbg ++ option_list (filtered_out api min_rating c))
                   (reqs ++ detail_requests [c]))
        as (fetched & rest & Hsplit & Hout & Htake).
      { rewrite length_app. destruct (accept api min_rating c); simpl; lia. }
      exists (c :: fetched), rest. split; [by rewrite Hsplit|].
      rewrite Hout.
      change (c :: fetched) with ([c] ++ fetched) at 3.
      rewrite detail_requests_app, omap_cons_option_list, !accepted_cons, !app_assoc.
      split; [done|]. by rewrite <- !app_assoc, <- accepted_cons in Htake |- *.
Qed.

(** an accepted candidate leaves no debug record, and a recorded one is not
    accepted *)
Lemma accept_or_filtered_out api min_rating c :
  accept api min_rating c = None ∨ filtered_out api min_rating c = None.
Proof.
  unfold accept, filtered_out. destruct (truthy_str _) as [id|]; [|by left].
  destruct (detail api id) as [e|[m|]]; [by left| |by left].
  destruct (bool_decide (Response m = Some "False"%string)); cbn [negb andb]; [by left|].
  destruct (isFinite _ && qge _ _); [by right | by left].
Qed.

(** X15: the debug trail of the detail phase.  Whatever the limit, the phase
    reads a prefix of the candidates; the movies are the accepted candidates
    of that prefix, the debug records it adds are one "filtered out" record
    for each candidate of the prefix whose detail came back but whose rating
    did not pass, in candidate order, and no candidate is both returned and
    recorded.  A candidate whose detail request failed leaves no trace. *)
Theorem details_debug_trail (api : omdb) (candidates : list (option search_item))
    (limit : Z) (min_rating : num Q) (dbg : list step) (reqs : list request) :
  ∃ fetched rest,
    candidates = fetched ++ rest ∧
    fetch_details_sequential api candidates [] limit min_rating dbg reqs
    = Outcome None (accepted api min_rating fetched)
        (dbg ++ omap (filtered_out api min_rating) fetched)
        (reqs ++ detail_requests fetched) ∧
    Forall (fun c => accept api min_rating c = None
                     ∨ filtered_out api min_rating c = None) fetched.
Proof.
  assert (Hex : ∃ fetched rest,
    candidates = fetched ++ rest ∧
    fetch_details_sequential api candidates [] limit min_rating dbg reqs
    = Outcome None (accepted api min_rating fetched)
        (dbg ++ omap (filtered_out api min_rating) fetched)
        (reqs ++ detail_requests fetched)).
  { destruct (Z.le_gt_cases 0 limit) as [Hpos|Hneg].
    - destruct (fetch_details_trace api min_rating limit candidates [] dbg reqs)
        as (fetched & rest & Hsplit & Hout & _); [simpl; lia|].
      exists fetched, rest. by rewrite Hout.
    - exists [], candidates. split; [done|].
      unfold accepted, detail_requests. simpl. rewrite !app_nil_r.
      destruct candidates; cbn [fetch_details_sequential length];
        by destruct (Z.leb_spec limit (Z.of_nat 0)); [|lia]. }
  destruct Hex as (fetched & rest & Hsplit & Hout).
  exists fetched, rest. split; [done|]. split; [done|].
  apply Forall_forall. intros c _. apply accept_or_filtered_out.
Qed.

(** X16: the pipeline from end to end.  [omdb_search_then_fill] always calls
    back, after requesting the search pages 1 to n for some n <= 5 and
    nothing before them.  Either page n failed: then the callback gets that
    error and no movie, and no detail was requested.  Or it gets no error
    and the first [limit] accepted candidates of the deduplicated candidate
    list of pages 1 to n, and every detail request comes after the last
    search request, for a prefix of that list. *)
Theorem pipeline_end_to_end (api : omdb) (term : string) (limit : Z) (min_rating : num Q) :
  ∃ out n,
    omdb_search_then_fill api term limit min_rating = Some out ∧
    1 <= n <= MAX_PAGES ∧
    match err out with
    | Some e =>
        search api term n = HttpError e ∧
        movies out = [] ∧
        requests out = map (GetSearch term) (seq 1 n)
    | None =>
        let candidates := map Some (collected api term n) in
        movies out = take (Z.to_nat limit) (accepted api min_rating candidates) ∧
        ∃ fetched rest,
          candidates = fetched ++ rest ∧
          requests out = map (GetSearch term) (seq 1 n) ++ detail_requests fetched
    end.
Proof.
  unfold omdb_search_then_fill.
  destruct (fetch_page_run api term MAX_PAGES 1 ∅ [] [] [])
    as (r & n & -> & Hn & _ & Hend); [done | unfold MAX_PAGES; lia |].
  unfold stops_at in Hend. cbv zeta in Hend.
  replace (n + 1 - 1) with n in Hend by lia. cbn [List.app] in Hend.
  rewrite gathered_collected in Hend.
  destruct (search api term n) as [e|data] eqn:Hsearch.
  - destruct Hend as [dbg' ->]. eexists _, n. split; [done|]. split; [done|].
    cbn [err movies requests]. by rewrite Hsearch.
  - destruct Hend as [_ [dbg' ->]]. eexists _, n. split; [done|]. split; [done|].
    unfold finish. cbv zeta.
    destruct (length (collected api term n) =? 0) eqn:Hlen.
    + apply Nat.eqb_eq in Hlen. apply nil_length_inv in Hlen. rewrite Hlen.
      cbn [err movies requests map]. split.
      * unfold accepted. simpl. by rewrite take_nil.
      * exists [], []. split; [done|]. unfold detail_requests. simpl.
        by rewrite app_nil_r.
    + destruct (Z.le_gt_cases 0 limit) as [Hpos|Hneg].
      * destruct (fetch_details_trace api min_rating limit
                    (map Some (collected api term n)) []
                    (dbg' ++ [StepFinalCandidates (length (collected api term n))])
                    (map (GetSearch term) (seq 1 n)))
          as (fetched & rest & Hsplit & Hout & Htake); [simpl; lia|].
        rewrite Hout. cbn [err movies requests List.app] in Htake |- *.
        split; [done|]. by exists fetched, rest.
      * assert (Hout : ∀ cands dbg reqs,
                  fetch_details_sequential api cands [] limit min_rating dbg reqs
                  = Outcome None [] dbg reqs).
        { intros cands dbg reqs.
          destruct cands; cbn [fetch_details_sequential length];
            by destruct (Z.leb_spec limit (Z.of_nat 0)); [|lia]. }
        rewrite Hout. cbn [err movies requests].
        replace (Z.to_nat limit) with 0 by lia. split; [done|].
        exists [], (map Some (collected api term n)). split; [done|].
        unfold detail_requests. simpl. by rewrite app_nil_r.
Qed.

End pipeline.

(** ** A run of the pipeline for a request *)

Section runs.

(** the winner loop starts at a label and only moves to labels *)
Lemma choose_winner_priority (combined : jsmap (num R)) :
  fst (choose_winner combined) ∈ priority.
Proof.
  unfold choose_winner.
  assert (H : ∀ ps init,
            fst init ∈ priority → (∀ g, g ∈ ps → g ∈ priority) →
            fst (foldl (fun '(bestGenre, bestScore) g =>
                          let s := default NaN (JsMap.get combined g) in
                          if rgt s bestScore then (g, s) else (bestGenre, bestScore))
                       init ps) ∈ priority).
  { induction ps as [|g ps IH]; intros [g0 s0] Hinit Hps; cbn [foldl]; [done|].
    apply IH.
    - destruct (rgt _ s0); [|done]. apply Hps. by apply elem_of_cons; left.
    - intros g' Hg'. apply Hps. by apply elem_of_cons; right. }
  apply H; [|done]. unfold priority. cbn [fst]. set_solver.
Qed.

Lemma decision_genre_known st bio location userBias :
  genre (choose_genre_deep st bio location userBias) ∈ GENRE_LABELS.
Proof. apply priority_labels. unfold choose_genre_deep. apply choose_winner_priority. Qed.

Lemma label_nonempty l : l ∈ GENRE_LABELS → Text.nonempty l = true.
Proof. revert l. by apply label_cases. Qed.


(** what a run hands to its callback and leaves in the stores *)
Lemma run_pipeline_cases api github_user now sid limit min_rating srv :
  ∃ res srv',
    run_pipeline api github_user now sid limit min_rating srv = Some (res, srv') ∧
    match res with
    | inl _ => srv' = srv
    | inr p =>
        ∃ user out,
          github_user = inr user ∧
          let userBias :=
            match get_session srv sid with
            | Some (_, s) => default init_bias (preferenceBias s)
            | None => init_bias
            end in
          let d := choose_genre_deep (GENRE_MODEL srv) (Text.trim (bio user))
                     (Text.trim (location user)) userBias in
          omdb_search_then_fill api (genre_to_search_term (genre d)) limit min_rating
          = Some out ∧
          err out = None ∧
          p = {| page_user := user; page_decision := d;
                 page_search_term := genre_to_search_term (genre d);
                 page_movies := movies out; page_steps := steps out;
                 page_userBias := userBias |} ∧
          srv' = match get_session srv sid with
                 | Some (k, s) =>
                     {| session_store :=
                          <[k := {| session_user := user;
                                    access_token := access_token s;
                                    created_at := created_at s;
                                    preferenceBias := preferenceBias s;
                                    last := Some (LastRun (genre d)
                                                    (movies_by_id (movies out)) now) |}]>
                            (session_store srv);
                        GENRE_MODEL := GENRE_MODEL srv |}
                 | None => srv
                 end
    end.
Proof.
  unfold run_pipeline. destruct github_user as [e|user].
  { eexists _, _. split; reflexivity. }
  cbv zeta.
  assert (Hsess : ∀ (X : Type) (f : string → session → X) (x : X),
            match match truthy_str sid with
                  | Some sid0 => session_store srv !! sid0
                  | None => None
                  end, truthy_str sid with
            | Some s, Some k => f k s
            | _, _ => x
            end
            = match get_session srv sid with Some (k, s) => f k s | None => x end).
  { intros X f x. unfold get_session. destruct (truthy_str sid) as [k|]; [|done].
    by destruct (session_store srv !! k). }
  assert (Hbias : match match truthy_str sid with
                        | Some sid0 => session_store srv !! sid0
                        | None => None
                        end with
                  | Some s => default init_bias (preferenceBias s)
                  | None => init_bias
                  end
                  = match get_session srv sid with
                    | Some (_, s) => default init_bias (preferenceBias s)
                    | None => init_bias
                    end).
  { unfold get_session. destruct (truthy_str sid) as [k|]; [|done].
    by destruct (session_store srv !! k). }
  rewrite Hbias.
  set (userBias := match get_session srv sid with
                   | Some (_, s) => default init_bias (preferenceBias s)
                   | None => init_bias
                   end).
  set (d := choose_genre_deep _ _ _ userBias).
  destruct (omdb_search_then_fill_total api (genre_to_search_term (genre d)) limit min_rating)
    as [out Hout].
  rewrite Hout. destruct (err out) as [e2|] eqn:Herr.
  { eexists _, _. split; reflexivity. }
  eexists _, _. split; [reflexivity|]. exists user, out. split; [reflexivity|].
  split; [exact Hout|]. split; [exact Herr|]. split; [reflexivity|].
  apply (Hsess server
           (fun k s => {| session_store :=
                            <[k := {| session_user := user;
                                      access_token := access_token s;
                                      created_at := created_at s;
                                      preferenceBias := preferenceBias s;
                                      last := Some (LastRun (genre d)
                                                      (movies_by_id (movies out)) now) |}]>
                              (session_store srv);
                          GENRE_MODEL := GENRE_MODEL srv |}) srv).
Qed.

Lemma get_session_lookup srv sid k s :
  get_session srv sid = Some (k, s) →
  truthy_str sid = Some k ∧ session_store srv !! k = Some s.
Proof.
  unfold get_session. destruct (truthy_str sid) as [k'|]; [|done].
  destruct (session_store srv !! k') as [s'|] eqn:Hs; [|done].
  cbn. by intros [= <- <-].
Qed.

(** X17: a run of the pipeline always calls back, and it is a reader of
    what feedback has learnt: it never changes the classifier, never adds or
    removes a session, and never changes a bias, a token or a creation time.
    A run that ends in an error changes nothing at all; a run that succeeds
    changes only the session it ran for, whose user data it refreshes and
    whose last run it replaces by this one: the chosen genre, the returned
    movies by ID, and the time. *)
Theorem run_pipeline_frame (api : omdb) (github_user : string + user) (now : nat)
    (sid : option string) (limit : Z) (min_rating : num Q) (srv : server) :
  ∃ res srv',
    run_pipeline api github_user now sid limit min_rating srv = Some (res, srv') ∧
    GENRE_MODEL srv' = GENRE_MODEL srv ∧
    dom (session_store srv') = dom (session_store srv) ∧
    (∀ k s', session_store srv' !! k = Some s' →
       ∃ s, session_store srv !! k = Some s ∧
            preferenceBias s' = preferenceBias s ∧
            access_token s' = access_token s ∧
            created_at s' = created_at s ∧
            (truthy_str sid ≠ Some k → s' = s)) ∧
    match res with
    | inl _ => srv' = srv
    | inr p =>
        ∀ k s', truthy_str sid = Some k → session_store srv' !! k = Some s' →
          session_user s' = page_user p ∧
          last s' = Some (LastRun (genre (page_decision p))
                            (movies_by_id (page_movies p)) now)
    end.
Proof.
  destruct (run_pipeline_cases api github_user now sid limit min_rating srv)
    as (res & srv' & Hrun & Hres).
  exists res, srv'. split; [done|].
  assert (Hsame : srv' = srv →
    GENRE_MODEL srv' = GENRE_MODEL srv ∧
    dom (session_store srv') = dom (session_store srv) ∧
    (∀ k s', session_store srv' !! k = Some s' →
       ∃ s, session_store srv !! k = Some s ∧
            preferenceBias s' = preferenceBias s ∧
            access_token s' = access_token s ∧
            created_at s' = created_at s ∧
            (truthy_str sid ≠ Some k → s' = s))).
  { intros ->. split; [done|]. split; [done|]. intros k s' Hk. by exists s'. }
  destruct res as [e|p].
  { destruct (Hsame Hres) as (H1 & H2 & H3). done. }
  destruct Hres as (user & out & _ & Hres). cbv zeta in Hres.
  set (d := choose_genre_deep _ _ _ _) in Hres. clearbody d.
  destruct Hres as (_ & _ & Hp & Hsrv').
  rewrite Hp, Hsrv'. clear Hp Hsrv' Hrun Hsame.
  cbn [page_user page_decision page_movies].
  destruct (get_session srv sid) as [[k0 s0]|] eqn:Hsess.
  - apply get_session_lookup in Hsess as [Hk0 Hs0].
    cbn [GENRE_MODEL session_store].
    split; [reflexivity|]. split; [|split].
    + rewrite dom_insert_L. apply elem_of_dom_2 in Hs0. set_solver.
    + intros k s'. rewrite lookup_insert. case_decide as Hk.
      * subst k. intros [= <-]. exists s0.
        cbn [preferenceBias access_token created_at].
        split; [exact Hs0|]. do 3 (split; [reflexivity|]).
        intros Hne. by destruct Hne.
      * intros Hs'. exists s'. split; [exact Hs'|]. by repeat split.
    + intros k s' Hk. rewrite Hk0 in Hk. injection Hk as <-.
      rewrite lookup_insert_eq. intros [= <-]. split; reflexivity.
  - split; [reflexivity|]. split; [reflexivity|]. split.
    + intros k s' Hk. exists s'. split; [exact Hk|]. by repeat split.
    + intros k s' Hk. unfold get_session in Hsess. rewrite Hk in Hsess.
      destruct (session_store srv !! k) eqn:Hs; [discriminate Hsess|]. intros; discriminate.
Qed.

End runs.

(** ** Signing in and out *)

Section sign_in.

Lemma callback_rejected api token gu gu2 now now2 new_sid code state a :
  match truthy_str state with
  | Some st => oauth_state_store a !! st = None
  | None => True
  end →
  handle_github_callback api token gu gu2 now now2 new_sid code state a
  = Some (RespText 400 "OAuth Error: missing/invalid code or state.", a).
Proof.
  intros Hst. unfold handle_github_callback.
  destruct (truthy_str code) as [c|]; [|reflexivity].
  destruct (truthy_str state) as [st|]; [|reflexivity].
  by rewrite Hst.
Qed.

(** X18: an OAuth state can be used once.  After a callback that came with
    a code, the state it named is not pending any more, whether the sign-in
    went through or failed on the way: every later callback with that state
    is turned down with 400 and changes nothing. *)
Theorem oauth_state_is_one_shot (api : omdb) (token : string + string)
    (gu gu2 : string + user) (now now2 : nat) (new_sid : string)
    (code state : option string) (a : process) :
  match truthy_str code,
        handle_github_callback api token gu gu2 now now2 new_sid code state a with
  | Some _, Some (_, a') =>
      ∀ api' token' gu' gu2' now' now2' new_sid' code',
        handle_github_callback api' token' gu' gu2' now' now2' new_sid' code' state a'
        = Some (RespText 400 "OAuth Error: missing/invalid code or state.", a')
  | _, _ => True
  end.
Proof.
  unfold handle_github_callback at 1.
  destruct (truthy_str code) as [c|]; [|exact I].
  destruct (truthy_str state) as [st|] eqn:Hst.
  - destruct (oauth_state_store a !! st) as [entry|] eqn:Hentry.
    + assert (Hgone : ∀ srv,
                match truthy_str state with
                | Some st' => oauth_state_store
                                {| oauth_state_store := delete st (oauth_state_store a);
                                   stores := srv |} !! st' = None
                | None => True
                end).
      { intros srv. rewrite Hst. cbn [oauth_state_store]. apply lookup_delete_eq. }
      destruct token as [e|tok]; [intros; apply callback_rejected, Hgone|].
      destruct gu as [e|u]; [intros; apply callback_rejected, Hgone|].
      destruct (run_pipeline _ _ _ _ _ _ _) as [[[e|p] srv]|]; [| |exact I];
        intros; apply callback_rejected, Hgone.
    + intros. apply callback_rejected. by rewrite Hst.
  - intros. apply callback_rejected. by rewrite Hst.
Qed.


(** X20: logging out ends the session of the cookie and nothing else: the
    other sessions, the pending OAuth states and the classifier stay as they
    were, and feedback sent with that cookie afterwards is turned down with
    401 and changes nothing. *)
Theorem logout_ends_session (cookie : option string) (a : process)
    (body : string + feedback_body) :
  let a' := snd (logout cookie a) in
  fst (logout cookie a) = RespRedirectHome ∧
  GENRE_MODEL (stores a') = GENRE_MODEL (stores a) ∧
  oauth_state_store a' = oauth_state_store a ∧
  get_session (stores a') cookie = None ∧
  (∀ k, truthy_str cookie ≠ Some k →
        session_store (stores a') !! k = session_store (stores a) !! k) ∧
  handle_feedback {| cookie_sid := cookie; body := body |} (stores a')
  = (ReplyError 401 "Not logged in.", stores a').
Proof.
  intros a'.
  assert (Hsess : get_session (stores a') cookie = None).
  { unfold a', logout, get_session. cbn [snd].
    destruct (truthy_str cookie) as [k|]; [|reflexivity].
    cbn [stores session_store]. by rewrite lookup_delete_eq. }
  split; [reflexivity|]. split; [|split; [|split; [exact Hsess|split]]].
  - unfold a', logout. cbn [snd]. by destruct (truthy_str cookie).
  - unfold a', logout. cbn [snd]. by destruct (truthy_str cookie).
  - intros k Hk. unfold a', logout. cbn [snd].
    destruct (truthy_str cookie) as [k'|]; [|reflexivity].
    cbn [stores session_store]. rewrite lookup_delete_ne; [done | congruence].
  - unfold handle_feedback. cbn [cookie_sid]. by rewrite Hsess.
Qed.

End sign_in.

(** ** From a run to the feedback on it *)

Section run_then_feedback.

Lemma movies_by_id_lookup (ms : list movie) (m : movie) (id : string) :
  m ∈ ms → truthy_str (imdbID m) = Some id → is_Some (movies_by_id ms !! id).
Proof.
  intros Hin Hid. unfold movies_by_id.
  assert (H : ∀ l (o : gmap string movie),
            is_Some (o !! id) ∨ m ∈ l →
            is_Some (foldl (fun o m => match truthy_str (imdbID m) with
                                       | Some id => <[id := m]> o
                                       | None => o
                                       end) o l !! id)).
  { clear Hin. intros l. induction l as [|m' ms' IH]; intros o Ho; cbn [foldl].
    - destruct Ho as [Ho|Ho]; [done | by apply elem_of_nil in Ho].
    - apply IH. destruct Ho as [Ho|Ho].
      + left. destruct (truthy_str (imdbID m')) as [id'|]; [|done].
        rewrite lookup_insert. by case_decide.
      + apply elem_of_cons in Ho as [<-|Ho]; [|by right].
        left. rewrite Hid. by rewrite lookup_insert_eq. }
  apply H. by right.
Qed.

(** X21: a run and the feedback on it fit together.  After a run that
    succeeded for a logged-in session, a like or a dislike sent with that
    session's cookie for the ID of any movie on the page is accepted, and it
    is applied to the genre the run chose. *)
Theorem feedback_after_run (api : omdb) (gu : string + user) (now : nat)
    (sid : string) (s : session) (limit : Z) (min_rating : num Q) (srv : server)
    (id action : string) :
  Text.nonempty sid = true →
  session_store srv !! sid = Some s →
  Text.trim id = id → Text.nonempty id = true →
  Text.toLowerCase (Text.trim action) = "like"%string
  ∨ Text.toLowerCase (Text.trim action) = "dislike"%string →
  match run_pipeline api gu now (Some sid) limit min_rating srv with
  | Some (inr p, srv') =>
      (∃ m, m ∈ page_movies p ∧ imdbID m = Some id) →
      ∃ b' st,
        fst (handle_feedback {| cookie_sid := Some sid; body := inr (Body id action) |} srv')
        = ReplyOk (Text.toLowerCase (Text.trim action)) id (genre (page_decision p)) b' st
  | _ => True
  end.
Proof.
  intros Hsid Hs Htrim Hid Haction.
  destruct (run_pipeline_cases api gu now (Some sid) limit min_rating srv)
    as (res & srv' & Hrun & Hres).
  rewrite Hrun. destruct res as [e|p]; [exact I|].
  destruct Hres as (user & out & _ & Hres). cbv zeta in Hres.
  set (d := choose_genre_deep _ _ _ _) in Hres.
  assert (Hd : Text.nonempty (genre d) = true)
    by apply label_nonempty, decision_genre_known.
  clearbody d. destruct Hres as (_ & _ & Hp & Hsrv').
  assert (Hsess : get_session srv (Some sid) = Some (sid, s)).
  { unfold get_session, truthy_str. by rewrite Hsid, Hs. }
  rewrite Hsess in Hsrv'. rewrite Hp, Hsrv'. clear Hp Hsrv' Hrun.
  cbn [page_movies page_decision]. intros (m & Hm & Hmid).
  destruct (movies_by_id_lookup (movies out) m id Hm) as [m' Hm'].
  { rewrite Hmid. unfold truthy_str. by rewrite Hid. }
  assert (Hact : negb (String.eqb (Text.toLowerCase (Text.trim action)) "like")
                 && negb (String.eqb (Text.toLowerCase (Text.trim action)) "dislike")
                 = false) by (by destruct Haction as [-> | ->]).
  unfold handle_feedback, get_session, truthy_str.
  cbn [cookie_sid body session_store body_imdbID body_action].
  rewrite Hsid, lookup_insert_eq. cbn [fmap option_fmap option_map last].
  rewrite Htrim, Hid, Hact. cbn [negb orb last_genre moviesById].
  rewrite Hd. cbn [negb]. unfold obj_get. rewrite Hm'. cbn [fst].
  by eexists _, _.
Qed.

(** Scenario D seen from the pipeline: whatever is searched, the catalogue
    gives the three movies rated 8.0 or more *)
Lemma api_D_run (term : string) :
  ∃ st rq,
    omdb_search_then_fill api_D term 3 (Fin 8%Q)
    = Some (Outcome None [rated "tt1" "9.1"; rated "tt3" "8.8"; rated "tt5" "8.0"] st rq).
Proof. eexists _, _. vm_compute. reflexivity. Qed.

(** a run over the catalogue of Scenario D for the session "s1" shows three
    movies, and a like for the second one is accepted *)
Lemma feedback_after_run_witness :
  ∃ p srv',
    run_pipeline api_D (inr (User "octocat" "" "")) 1 (Some "s1") 3 (Fin 8%Q) server_1
    = Some (inr p, srv') ∧
    map imdbID (page_movies p) = [Some "tt1"; Some "tt3"; Some "tt5"]%string ∧
    ∃ b' st,
      fst (handle_feedback {| cookie_sid := Some "s1"%string;
                              body := inr (Body "tt3" " Like ") |} srv')
      = ReplyOk "like" "tt3" (genre (page_decision p)) b' st.
Proof.
  pose proof (feedback_after_run api_D (inr (User "octocat" "" "")) 1 "s1" session_1 3
                (Fin 8%Q) server_1 "tt3" " Like " eq_refl (lookup_singleton_eq _ _)
                eq_refl eq_refl (or_introl eq_refl)) as H.
  unfold run_pipeline in H |- *. cbv zeta in H |- *.
  set (d := choose_genre_deep _ _ _ _) in H |- *.
  destruct (api_D_run (genre_to_search_term (genre d))) as (st & rq & Hout).
  rewrite Hout in H |- *. cbn [err movies steps] in H |- *.
  eexists _, _. split; [reflexivity|]. split; [reflexivity|].
  destruct H as (b' & st' & Hfb).
  - exists (rated "tt3" "8.8"). split; [|reflexivity].
    cbn [page_movies]. apply elem_of_cons. right. apply elem_of_cons. by left.
  - exists b', st'. exact Hfb.
Defined.

End run_then_feedback.

(** ** The server, request after request *)

Section server.











End server.

(** ** What a feedback request touches *)

Section feedback_frame.

(** X23: the reach of one feedback request.  It never adds or removes a
    session, never touches a session other than the one of its cookie, and
    in that one never the user, the token, the creation time or the last
    run; the classifier keeps its labels.  An error reply changes nothing at
    all.  A success reply reports the bias map it has stored and the
    statistics of the classifier as it now is; that bias map differs from
    the session's old one at the genre of the last run only, and a dislike
    leaves the classifier as it was. *)
Theorem feedback_reach (req : feedback_request) (srv : server) :
  let r := fst (handle_feedback req srv) in
  let srv' := snd (handle_feedback req srv) in
  dom (session_store srv') = dom (session_store srv) ∧
  labels (GENRE_MODEL srv') = labels (GENRE_MODEL srv) ∧
  (∀ k, cookie_sid req ≠ Some k →
        session_store srv' !! k = session_store srv !! k) ∧
  (∀ k s', session_store srv' !! k = Some s' →
     ∃ s, session_store srv !! k = Some s ∧
          session_user s' = session_user s ∧ access_token s' = access_token s ∧
          created_at s' = created_at s ∧ last s' = last s) ∧
  match r with
  | ReplyError _ _ => srv' = srv
  | ReplyOk action _ g b' st =>
      st = stats (GENRE_MODEL srv') ∧
      (action = "dislike"%string → GENRE_MODEL srv' = GENRE_MODEL srv) ∧
      ∃ k s s',
        cookie_sid req = Some k ∧
        session_store srv !! k = Some s ∧
        session_store srv' !! k = Some s' ∧
        preferenceBias s' = Some b' ∧
        ∀ g', g' ≠ g → b' !! g' = bias_of s !! g'
  end.
Proof.
  cbv zeta.
  assert (Hst : match handle_feedback req srv with
                | (ReplyOk _ _ _ _ st, srv') => st = stats (GENRE_MODEL srv')
                | _ => True
                end).
  { unfold handle_feedback.
    destruct (get_session srv (cookie_sid req)) as [[k s]|]; [|exact I].
    destruct (body req) as [e|bd]; [exact I|]. cbv zeta.
    destruct (_ || _); [exact I|].
    destruct (last s) as [lr|]; [|exact I].
    destruct (negb _); [exact I|].
    by destruct (obj_get _ _). }
  pose proof (handle_feedback_cases req srv) as Hcases.
  destruct (handle_feedback req srv) as [[status e|action id g b' st] srv'];
    cbn [fst snd].
  { subst srv'. split; [reflexivity|]. split; [reflexivity|]. split; [done|].
    split; [|reflexivity]. intros k s' Hk. by exists s'. }
  destruct Hcases as (sid & s & lr & Hcookie & Hs & Hlr & Hg & Hact & _ & Hb & Hstore & Hmod).
  rewrite Hstore. split; [|split; [|split; [|split]]].
  - rewrite dom_insert_L. apply elem_of_dom_2 in Hs. set_solver.
  - rewrite Hmod. destruct (String.eqb action "like"); [|reflexivity].
    apply trainOne_labels.
  - intros k Hk. rewrite lookup_insert_ne; [done|]. congruence.
  - intros k s'. rewrite lookup_insert. case_decide as Hk.
    + subst k. intros [= <-]. exists s. by repeat split.
    + intros Hs'. exists s'. by repeat split.
  - split; [exact Hst|]. split.
    + intros ->. by rewrite Hmod.
    + eexists sid, s, _. split; [exact Hcookie|]. split; [exact Hs|].
      split; [apply lookup_insert_eq|]. split; [reflexivity|].
      intros g' Hne. by rewrite Hb, lookup_insert_ne.
Qed.

(** X24: which IDs feedback accepts.  For a logged-in session whose last
    run named a genre, a well-formed like or dislike is answered with 200
    when the trimmed ID is a key of the run's movies or one of the property
    names every object inherits, and with 404, changing nothing, for every
    other ID. *)
Theorem feedback_id_lookup (sid : string) (s : session) (lr : lastrun)
    (id action : string) (srv : server) :
  Text.nonempty sid = true →
  session_store srv !! sid = Some s → last s = Some lr →
  Text.nonempty (last_genre lr) = true →
  Text.nonempty (Text.trim id) = true →
  Text.toLowerCase (Text.trim action) = "like"%string
  ∨ Text.toLowerCase (Text.trim action) = "dislike"%string →
  let req := {| cookie_sid := Some sid; body := inr (Body id action) |} in
  if bool_decide (is_Some (moviesById lr !! Text.trim id)
                  ∨ Text.trim id ∈ OBJECT_PROTOTYPE_KEYS)
  then status_of (fst (handle_feedback req srv)) = 200
  else handle_feedback req srv
       = (ReplyError 404 "Movie not found in last recommendation results.", srv).
Proof.
  intros Hsid Hs Hlast Hgenre Hid Haction req.
  assert (Hact : negb (String.eqb (Text.toLowerCase (Text.trim action)) "like")
                 && negb (String.eqb (Text.toLowerCase (Text.trim action)) "dislike")
                 = false) by (by destruct Haction as [-> | ->]).
  unfold req, handle_feedback, get_session, truthy_str.
  cbn [cookie_sid body body_imdbID body_action].
  rewrite Hsid, Hs. cbn [fmap option_fmap option_map].
  rewrite Hid, Hact, Hlast, Hgenre. cbn [negb orb].
  unfold obj_get. case_bool_decide as Hknown.
  - destruct (moviesById lr !! Text.trim id) as [m|] eqn:Hm; [reflexivity|].
    destruct Hknown as [[? ?]|Hproto]; [done|].
    by rewrite bool_decide_eq_true_2.
  - destruct (moviesById lr !! Text.trim id) as [m|] eqn:Hm.
    + exfalso. apply Hknown. left. by eexists.
    + rewrite bool_decide_eq_false_2; [reflexivity|]. tauto.
Qed.

Lemma feedback_id_lookup_witness :
  handle_feedback (feedback " tt2 " "Dislike") server_1
  = (ReplyError 404 "Movie not found in last recommendation results.", server_1).
Proof.
  apply (feedback_id_lookup "s1" session_1
           (LastRun "Drama" (movies_by_id [rated "tt1" "9.0"]) 0) " tt2 " "Dislike" server_1).
  - reflexivity.
  - unfold server_1. cbn [session_store]. apply lookup_singleton_eq.
  - reflexivity.
  - reflexivity.
  - reflexivity.
  - right. reflexivity.
Defined.

End feedback_frame.
